(** * Aperture extraction, pixel collection and flux normalisation

    A shallow embedding of [stark/extract.py]: [aperture_extract], [flux_coo]
    and [norm_flux_coo], with the properties of their windows, index table and
    normalisation.

    Conventions of the embedding.
    - A trace position and the radius are binary64 floats ([npfloat]): a
      finite value, a NaN or an infinity.  What the code computes from them
      ([p - ap_rad], [p + ap_rad], [row - p], [ap_rad * 2]) is rounded as
      binary64 rounds, to the nearest double with ties to the even mantissa,
      and overflows to an infinity.
    - A pixel value is a finite value, a rational ([Q]); sums, means and
      quotients of pixel values are exact.  [NaN] is added where the code can
      make one out of finite values (the mean of an empty slice).
    - Python integers and the [int] cells of [col_array_pos] are [Z]: the
      sum of a start and a count is taken not to wrap, as it cannot for a
      table over an array in memory.  A frame has at most [2^53] rows, so
      that a row number converts to a float without rounding.  A zero has no
      sign: [-0.0] compares and rounds as [0.0] does.
    - An array that is only read ([frame], [variance], the 2D [ord_pos], the
      reference spectrum) is its shape with a function from indices to values;
      an array that is written by index is a list.
    - An exception is an [Err] result; a [for] loop stops at the first one. *)

From Stdlib Require Import ZArith QArith Qround Qabs Qpower Lia Lqa.
From stdpp Require Import base option list gmap.

(** ** Exceptions *)

Inductive pyerr := IndexError | ValueError | TypeError | OverflowError.

#[global] Instance pyerr_eq_dec : EqDecision pyerr.
Proof. solve_decision. Defined.

Inductive result (A : Type) :=
  | Ok (a : A)
  | Err (e : pyerr).
Arguments Ok {A} a.
Arguments Err {A} e.

#[global] Instance result_ret : MRet result := λ A a, Ok a.
#[global] Instance result_bind : MBind result := λ A B f m,
  match m with
  | Ok a => f a
  | Err e => Err e
  end.

(** [for x in l: s = body(x, s)] *)
Definition for_each {A S : Type} (l : list A) (body : A → S → result S) (s : S)
  : result S :=
  foldl (λ acc x, acc ≫= body x) (Ok s) l.

(** [for i in range(n): s = body(i, s)] *)
Definition for_range {S : Type} (n : nat) (body : nat → S → result S) (s : S)
  : result S :=
  for_each (seq 0 n) body s.

(** ** Numbers *)

(** A float: a finite value, a NaN, or an infinity with its sign. *)
Inductive npfloat :=
  | Num (q : Q)
  | NaN
  | Inf (negative : bool).

Definition Qltb (x y : Q) : bool := negb (Qle_bool y x).

(** [x * k] for a value [x] and a float [k]: exact on two finite values, and
    as IEEE 754 has it when an infinity or a NaN comes in. *)
Definition np_mul (x k : npfloat) : npfloat :=
  match x, k with
  | Num a, Num b => Num (a * b)
  | NaN, _ | _, NaN => NaN
  | Inf s, Inf t => Inf (xorb s t)
  | Inf s, Num a | Num a, Inf s =>
    if Qeq_bool a 0 then NaN else Inf (xorb s (Qltb a 0))
  end.

(** [np.sum] of a 1D array; 0 on the empty array. *)
Definition np_sum (l : list Q) : Q := foldr Qplus 0%Q l.

(** [np.mean] of a 1D array; NaN (with a warning, not an exception) on the
    empty array. *)
Definition np_mean (l : list Q) : npfloat :=
  match l with
  | [] => NaN
  | _ => Num (np_sum l / inject_Z (Z.of_nat (length l)))
  end.

(** [np.maximum] on two finite scalars. *)
Definition np_maximum (x y : Q) : Q := if Qle_bool x y then y else x.

(** [round(x)] of a finite [x] in Python 3: to the nearest integer, a tie to
    the even one. *)
Definition py_round (x : Q) : Z :=
  let f := Qfloor x in
  match (x - inject_Z f ?= 1 # 2)%Q with
  | Lt => f
  | Gt => (f + 1)%Z
  | Eq => if Z.even f then f else (f + 1)%Z
  end.

(** ** binary64 *)

(** [floor(log2(x))] for [x > 0] *)
Definition Qlog2 (x : Q) : Z :=
  let e := (Z.log2 (Qnum x) - Z.log2 (Zpos (Qden x)))%Z in
  if Qle_bool (2 ^ e) x then e else (e - 1)%Z.

(** The exponent of the last of the 53 bits of [x > 0]; that of the
    subnormal numbers below [2^-1022]. *)
Definition b64_exp (x : Q) : Z := (Z.max (Qlog2 x) (-1022) - 52)%Z.

(** [x >= 0] rounded to 53 bits: to the nearest, a tie to the even
    mantissa. *)
Definition b64_round_pos (x : Q) : Q :=
  inject_Z (py_round (x * 2 ^ (- b64_exp x))) * 2 ^ b64_exp x.

(** The double nearest to [x], as long as that is finite: sign and
    magnitude. *)
Definition b64_round (x : Q) : Q :=
  Qred (if Qltb x 0 then - b64_round_pos (- x) else b64_round_pos x).

(** The float that binary64 arithmetic gives for the exact result [x]: an
    infinity when the rounded magnitude reaches [2^1024]. *)
Definition to_b64 (x : Q) : npfloat :=
  let y := b64_round x in
  if Qle_bool (2 ^ 1024) (Qabs y) then Inf (Qltb y 0) else Num y.

(** A float literal: the double nearest to the decimal that is written. *)
Definition py_float (q : Q) : npfloat := to_b64 q.

(** [x + y] on floats *)
Definition float_add (x y : npfloat) : npfloat :=
  match x, y with
  | Num a, Num b => to_b64 (a + b)
  | NaN, _ | _, NaN => NaN
  | Inf s, Inf t => if Bool.eqb s t then Inf s else NaN
  | Inf s, Num _ | Num _, Inf s => Inf s
  end.

(** [- x] *)
Definition float_opp (x : npfloat) : npfloat :=
  match x with
  | Num a => Num (- a)
  | NaN => NaN
  | Inf s => Inf (negb s)
  end.

(** [x - y] *)
Definition float_sub (x y : npfloat) : npfloat := float_add x (float_opp y).

(** [x * y] *)
Definition float_mul (x y : npfloat) : npfloat :=
  match x, y with
  | Num a, Num b => to_b64 (a * b)
  | NaN, _ | _, NaN => NaN
  | Inf s, Inf t => Inf (xorb s t)
  | Inf s, Num a | Num a, Inf s =>
    if Qeq_bool a 0 then NaN else Inf (xorb s (Qltb a 0))
  end.

(** [x < y] and [x <= y]: false as soon as a NaN is compared. *)
Definition float_ltb (x y : npfloat) : bool :=
  match x, y with
  | Num a, Num b => Qltb a b
  | Num _, Inf s => negb s
  | Inf s, Num _ => s
  | Inf s, Inf t => s && negb t
  | NaN, _ | _, NaN => false
  end.

Definition float_leb (x y : npfloat) : bool :=
  match x, y with
  | Num a, Num b => Qle_bool a b
  | Num _, Inf s => negb s
  | Inf s, Num _ => s
  | Inf s, Inf t => s || negb t
  | NaN, _ | _, NaN => false
  end.

(** [int(round(x))]: a NaN cannot be converted, nor can an infinity. *)
Definition int_round (x : npfloat) : result Z :=
  match x with
  | Num q => Ok (py_round q)
  | NaN => Err ValueError
  | Inf _ => Err OverflowError
  end.

(** ** Arrays and slices *)

Record array2_of (A : Type) := Array2 {
  shape2_0 : nat;
  shape2_1 : nat;
  at2 : nat → nat → A
}.
Arguments Array2 {A} shape2_0 shape2_1 at2.
Arguments shape2_0 {A} a.
Arguments shape2_1 {A} a.
Arguments at2 {A} a _ _.

(** An array of pixel values. *)
Abbreviation array2 := (array2_of Q).

Record array3 := Array3 {
  shape3_0 : nat;
  shape3_1 : nat;
  shape3_2 : nat;
  at3 : nat → nat → nat → Q
}.

(** A bound of a slice [a[i:j]] on an axis of length [len]: a negative bound
    counts from the end, and the result is clipped to [0, len]. *)
Definition slice_bound (len i : Z) : Z :=
  if (i <? 0)%Z then Z.max 0 (i + len) else Z.min i len.

(** The first position and the length of [a[i0:i1]] *)
Definition slice_range (len : nat) (i0 i1 : Z) : nat * nat :=
  let a := slice_bound (Z.of_nat len) i0 in
  let b := slice_bound (Z.of_nat len) i1 in
  (Z.to_nat a, Z.to_nat (b - a)).

Definition py_slice {A : Type} (l : list A) (i0 i1 : Z) : list A :=
  let '(a, n) := slice_range (length l) i0 i1 in
  take n (drop a l).

(** [range(i0, i1)] *)
Definition py_range (i0 i1 : Z) : list Z := seqZ i0 (i1 - i0).

(** [l[i]] for [i >= 0] *)
Definition index1 {A : Type} (l : list A) (i : nat) : result A :=
  match l !! i with
  | Some x => Ok x
  | None => Err IndexError
  end.

(** [a[i, j]] for [i, j >= 0] *)
Definition index2 {A : Type} (a : array2_of A) (i j : nat) : result A :=
  if decide (i < shape2_0 a ∧ j < shape2_1 a) then Ok (at2 a i j)
  else Err IndexError.

(** [a[:, col]] *)
Definition column2 (a : array2) (col : nat) : list Q :=
  (λ r, at2 a r col) <$> seq 0 (shape2_0 a).

(** [a[i0:i1, col]] *)
Definition slice2 (a : array2) (i0 i1 : Z) (col : nat) : result (list Q) :=
  if decide (col < shape2_1 a) then Ok (py_slice (column2 a col) i0 i1)
  else Err IndexError.

(** [a[k, :, col]] *)
Definition column3 (a : array3) (k col : nat) : list Q :=
  (λ r, at3 a k r col) <$> seq 0 (shape3_1 a).

(** [a[k, i0:i1, col]] *)
Definition slice3 (a : array3) (k : nat) (i0 i1 : Z) (col : nat)
  : result (list Q) :=
  if decide (k < shape3_0 a ∧ col < shape3_2 a)
  then Ok (py_slice (column3 a k col) i0 i1)
  else Err IndexError.

(** ** The aperture window (lines 49-57 and 108-116, the same text twice) *)

(** [p < 0 or p >= nrows]: a NaN passes both comparisons and is not
    skipped. *)
Definition skipped (nrows : nat) (p : npfloat) : bool :=
  float_ltb p (Num 0) || float_leb (Num (inject_Z (Z.of_nat nrows))) p.

Definition aperture_window (nrows : nat) (p ap_rad : npfloat)
  : result (Z * Z) :=
  i0 ← int_round (float_sub p ap_rad);
  i1 ← int_round (float_add p ap_rad);
  let i0 := if (i0 <? 0)%Z then 0%Z else i0 in
  let i1 := if (i1 >=? Z.of_nat nrows)%Z then (Z.of_nat nrows - 1)%Z else i1 in
  Ok (i0, i1).

(** ** [aperture_extract] *)

Definition extract_column (frame variance : array2) (ord_pos : list npfloat)
    (ap_rad : npfloat) (uniform : bool) (nslitpix : npfloat) (col : nat)
    (st : list npfloat * list npfloat)
  : result (list npfloat * list npfloat) :=
  let '(spec, var) := st in
  p ← index1 ord_pos col;
  if skipped (shape2_0 frame) p then Ok (spec, var)
  else
    '(i0, i1) ← aperture_window (shape2_0 frame) p ap_rad;
    if uniform then
      fs ← slice2 frame i0 i1 col;
      let spec := <[col := np_mul (np_mean fs) nslitpix]> spec in
      vs ← slice2 variance i0 i1 col;
      let var := <[col := np_mul (np_mean vs) nslitpix]> var in
      Ok (spec, var)
    else
      fs ← slice2 frame i0 i1 col;
      let spec := <[col := Num (np_sum fs)]> spec in
      vs ← slice2 variance i0 i1 col;
      let var := <[col := Num (np_sum vs)]> var in
      Ok (spec, var).

Definition aperture_extract (frame variance : array2) (ord_pos : list npfloat)
    (ap_rad : npfloat) (uniform : bool)
  : result (list npfloat * list npfloat) :=
  let nslitpix := float_mul ap_rad (Num 2) in
  let ncols := shape2_1 frame in
  let spec := replicate ncols (Num 0) in
  let var := replicate ncols (Num 0) in
  for_range ncols
    (extract_column frame variance ord_pos ap_rad uniform nslitpix)
    (spec, var).

(** ** [flux_coo] *)

(** A row of [pix_array]: distance from the trace, flux, variance, column. *)
Record sample := Sample {
  s_off : Q;
  s_flux : Q;
  s_var : Q;
  s_col : Q
}.

Definition zero_sample : sample := Sample 0 0 0 0.

Definition set_off (x : Q) (s : sample) : sample :=
  Sample x (s_flux s) (s_var s) (s_col s).
Definition set_flux (x : Q) (s : sample) : sample :=
  Sample (s_off s) x (s_var s) (s_col s).
Definition set_var (x : Q) (s : sample) : sample :=
  Sample (s_off s) (s_flux s) x (s_col s).
Definition set_col (x : Q) (s : sample) : sample :=
  Sample (s_off s) (s_flux s) (s_var s) x.

(** [np.zeros((npix, 4))]: a negative dimension is refused. *)
Definition np_zeros4 (npix : Z) : result (list sample) :=
  if (npix <? 0)%Z then Err ValueError
  else Ok (replicate (Z.to_nat npix) zero_sample).

(** [arr[:, k] = vals], [set] writing field [k]: the lengths agree, or [vals]
    has one element that is written to every row; anything else cannot be
    broadcast. *)
Definition assign_col (set : Q → sample → sample) (arr : list sample)
    (vals : list Q) : result (list sample) :=
  if decide (length vals = length arr) then Ok (zip_with set vals arr)
  else
    match vals with
    | [v] => Ok (set v <$> arr)
    | _ => Err ValueError
    end.

(** [l[i0:i1, k] = vals] *)
Definition assign_slice_col (set : Q → sample → sample) (l : list sample)
    (i0 i1 : Z) (vals : list Q) : result (list sample) :=
  let '(a, n) := slice_range (length l) i0 i1 in
  new ← assign_col set (take n (drop a l)) vals;
  Ok (take a l ++ new ++ drop (a + n) l).

(** [l[i0:i1, :] = rows] *)
Definition assign_slice_rows (l : list sample) (i0 i1 : Z)
    (rows : list sample) : result (list sample) :=
  let '(a, n) := slice_range (length l) i0 i1 in
  if decide (length rows = n) then Ok (take a l ++ rows ++ drop (a + n) l)
  else
    match rows with
    | [r] => Ok (take a l ++ replicate n r ++ drop (a + n) l)
    | _ => Err ValueError
    end.

(** [col_array_pos]: an [int] array of shape [(tshape_0, tshape_1, 2)], the
    two cells of the last axis kept as a pair, pairs stored row after row. *)
Record table := Table {
  tshape_0 : nat;
  tshape_1 : nat;
  cells : list (Z * Z)
}.

(** [np.zeros((nints, ncols, 2), dtype=int)] *)
Definition table_zeros (nints ncols : nat) : table :=
  Table nints ncols (replicate (nints * ncols) (0%Z, 0%Z)).

(** [t[i, c, 0] = v] and [t[i, c, 1] = v], for [i] and [c] inside the shape
    (the loops that write the table run over its shape). *)
Definition table_set0 (t : table) (i c : nat) (v : Z) : table :=
  Table (tshape_0 t) (tshape_1 t)
    (alter (λ x, (v, x.2)) (i * tshape_1 t + c) (cells t)).
Definition table_set1 (t : table) (i c : nat) (v : Z) : table :=
  Table (tshape_0 t) (tshape_1 t)
    (alter (λ x, (x.1, v)) (i * tshape_1 t + c) (cells t)).

(** [(t[i, c, 0], t[i, c, 1])] *)
Definition table_get (t : table) (i c : nat) : result (Z * Z) :=
  if decide (i < tshape_0 t ∧ c < tshape_1 t)
  then index1 (cells t) (i * tshape_1 t + c)
  else Err IndexError.

(** [row - p] for the row [k] and a trace position that has passed the test
    of line 108 and [round]: it is finite, and the difference is rounded. *)
Definition row_offset (k : Z) (p : npfloat) : Q :=
  match p with
  | Num q => b64_round (inject_Z k - q)
  | _ => 0
  end.

Definition collect_state : Type := table * list (list sample) * Z.

(** The body of the inner loop, lines 106-125. *)
Definition collect_column (frame variance : array3)
    (ord_pos : array2_of npfloat) (ap_rad : npfloat) (integration col : nat)
    (st : collect_state) : result collect_state :=
  let '(col_array_pos, pix_list, col_pos) := st in
  let col_array_pos := table_set0 col_array_pos integration col col_pos in
  p ← index2 ord_pos integration col;
  if skipped (shape3_1 frame) p then Ok (col_array_pos, pix_list, col_pos)
  else
    '(i0, i1) ← aperture_window (shape3_1 frame) p ap_rad;
    let npix := (i1 - i0)%Z in
    col_array ← np_zeros4 npix;
    col_array ← assign_col set_off col_array
                  ((λ k, row_offset k p) <$> py_range i0 i1);
    fs ← slice3 frame integration i0 i1 col;
    col_array ← assign_col set_flux col_array fs;
    vs ← slice3 variance integration i0 i1 col;
    col_array ← assign_col set_var col_array vs;
    col_array ← assign_col set_col col_array
                  (replicate (Z.to_nat npix) (1 * inject_Z (Z.of_nat col))%Q);
    let col_array_pos := table_set1 col_array_pos integration col npix in
    Ok (col_array_pos, pix_list ++ [col_array], (col_pos + npix)%Z).

(** Lines 128-134: one contiguous array out of the list of arrays.  [np.sum]
    of a list of integers is an integer, but [np.sum([])] is the float [0.0],
    and [np.zeros((0.0, 4))] raises a [TypeError]: a float is no dimension. *)
Definition materialise (pix_list : list (list sample))
  : result (list sample) :=
  match pix_list with
  | [] => Err TypeError
  | _ =>
    let num_entries := sum_list (length <$> pix_list) in
    let pix_array := replicate num_entries zero_sample in
    st ← for_each pix_list
           (λ p '(pix_array, entry),
              let N := length p in
              pix_array ← assign_slice_rows pix_array (Z.of_nat entry)
                            (Z.of_nat (entry + N)) p;
              Ok (pix_array, entry + N))
           (pix_array, 0);
    Ok st.1
  end.

Definition flux_coo (frame variance : array3) (ord_pos : array2_of npfloat)
    (ap_rad : npfloat) : result (list sample * table) :=
  let nints := shape3_0 frame in
  let ncols := shape3_2 frame in
  let col_array_pos := table_zeros nints ncols in
  '(col_array_pos, pix_list, _) ←
    for_range nints
      (λ integration,
         for_range ncols
           (collect_column frame variance ord_pos ap_rad integration))
      (col_array_pos, [], 0%Z);
  pix_array ← materialise pix_list;
  Ok (pix_array, col_array_pos).

(** ** [norm_flux_coo] *)

(** Arrays live in a store; [copy] puts the copy at a new address. *)
Abbreviation heap := (gmap nat (list sample)).

Definition copy (h : heap) (l : nat) : nat * heap :=
  let l' := fresh (dom h) in
  (l', <[l' := h !!! l]> h).

Definition min_norm : Q := 1 # 100.

(** The body of the inner loop, lines 167-175. *)
Definition normalise_column (pix_array norm_array : nat)
    (col_array_pos : table) (spec : option array2) (integration col : nat)
    (h : heap) : result heap :=
  '(ind0, count) ← table_get col_array_pos integration col;
  let ind1 := (ind0 + count)%Z in
  norm_sum ← match spec with
             | None =>
               Ok (np_sum (s_flux <$> py_slice (h !!! pix_array) ind0 ind1))
             | Some s => index2 s integration col
             end;
  let norm_sum := np_maximum norm_sum min_norm in
  new ← assign_slice_col set_flux (h !!! norm_array) ind0 ind1
          ((λ x, x / norm_sum)%Q <$>
             (s_flux <$> py_slice (h !!! pix_array) ind0 ind1));
  let h := <[norm_array := new]> h in
  new ← assign_slice_col set_var (h !!! norm_array) ind0 ind1
          ((λ x, x / norm_sum ^ 2)%Q <$>
             (s_var <$> py_slice (h !!! pix_array) ind0 ind1));
  let h := <[norm_array := new]> h in
  Ok h.

Definition norm_flux_coo (h : heap) (pix_array : nat) (col_array_pos : table)
    (spec : option array2) : result (nat * heap) :=
  let '(norm_array, h) := copy h pix_array in
  let ncols := tshape_1 col_array_pos in
  let nints := tshape_0 col_array_pos in
  h ← for_range nints
        (λ integration,
           for_range ncols
             (normalise_column pix_array norm_array col_array_pos spec
                integration))
        h;
  Ok (norm_array, h).

(** ** Closed forms *)

Definition same_shape2 (a b : array2) : Prop :=
  shape2_0 a = shape2_0 b ∧ shape2_1 a = shape2_1 b.

Definition same_shape3 (a b : array3) : Prop :=
  shape3_0 a = shape3_0 b ∧ shape3_1 a = shape3_1 b ∧ shape3_2 a = shape3_2 b.

(** The exception that stops a loop over [l]: that of the first iteration
    that has one. *)
Fixpoint first_error {A : Type} (status : A → option pyerr) (l : list A)
  : option pyerr :=
  match l with
  | [] => None
  | x :: l =>
    match status x with
    | Some e => Some e
    | None => first_error status l
    end
  end.

(** The exception that the window of a trace position raises: none when the
    position is skipped, else that of [int(round(p - ap_rad))] or of
    [int(round(p + ap_rad))]. *)
Definition window_error (nrows : nat) (p ap_rad : npfloat) : option pyerr :=
  if skipped nrows p then None
  else
    match aperture_window nrows p ap_rad with
    | Ok _ => None
    | Err e => Some e
    end.

(** The exception that a column of [aperture_extract] raises: a column
    without a trace position cannot be indexed. *)
Definition column_error (nrows : nat) (ord_pos : list npfloat)
    (ap_rad : npfloat) (col : nat) : option pyerr :=
  match ord_pos !! col with
  | Some p => window_error nrows p ap_rad
  | None => Some IndexError
  end.

(** What [aperture_extract] leaves in cell [col] of the output it computes
    from the array [a], for a frame of [nrows] rows. *)
Definition extract_cell (nrows : nat) (a : array2) (ord_pos : list npfloat)
    (ap_rad : npfloat) (uniform : bool) (col : nat) : npfloat :=
  match ord_pos !! col with
  | Some p =>
    if skipped nrows p then Num 0
    else
      match aperture_window nrows p ap_rad with
      | Ok (i0, i1) =>
        let xs := py_slice (column2 a col) i0 i1 in
        if uniform then np_mul (np_mean xs) (float_mul ap_rad (Num 2))
        else Num (np_sum xs)
      | Err _ => Num 0
      end
  | None => Num 0
  end.

(** The pairs a nested loop visits, in the order it visits them. *)
Definition pairs (n m : nat) : list (nat * nat) :=
  seq 0 n ≫= λ i, (λ c, (i, c)) <$> seq 0 m.

(** [ord_pos] has one position for every integration and column. *)
Definition trace_shape (frame : array3) (ord_pos : array2_of npfloat)
  : Prop :=
  shape2_0 ord_pos = shape3_0 frame ∧ shape2_1 ord_pos = shape3_2 frame.

Definition sumZ (l : list Z) : Z := foldr Z.add 0%Z l.

Section collected.
Variables (frame variance : array3) (ord_pos : array2_of npfloat)
  (ap_rad : npfloat).

(** The trace position of a pair (integration, column) is not skipped by the
    test of line 108. *)
Definition valid_at (ic : nat * nat) : Prop :=
  skipped (shape3_1 frame) (at2 ord_pos ic.1 ic.2) = false.

#[global] Instance valid_at_dec (ic : nat * nat) : Decision (valid_at ic).
Proof. unfold valid_at. apply _. Defined.

(** The rounding of the window of a pair raises no exception. *)
Definition rounds_at (ic : nat * nat) : Prop :=
  window_error (shape3_1 frame) (at2 ord_pos ic.1 ic.2) ap_rad = None.

#[global] Instance rounds_at_dec (ic : nat * nat) : Decision (rounds_at ic).
Proof. unfold rounds_at. apply _. Defined.

(** The number of samples of a pair: [i1 - i0], or 0 when it is skipped. *)
Definition count_at (ic : nat * nat) : Z :=
  let p := at2 ord_pos ic.1 ic.2 in
  if skipped (shape3_1 frame) p then 0%Z
  else
    match aperture_window (shape3_1 frame) p ap_rad with
    | Ok (i0, i1) => (i1 - i0)%Z
    | Err _ => 0%Z
    end.

(** The samples of a pair: one for each row of its window. *)
Definition run_at (ic : nat * nat) : list sample :=
  let p := at2 ord_pos ic.1 ic.2 in
  if skipped (shape3_1 frame) p then []
  else
    match aperture_window (shape3_1 frame) p ap_rad with
    | Ok (i0, i1) =>
      (λ k, Sample (row_offset (Z.of_nat k + i0) p)
                   (at3 frame ic.1 (Z.to_nat i0 + k) ic.2)
                   (at3 variance ic.1 (Z.to_nat i0 + k) ic.2)
                   (1 * inject_Z (Z.of_nat ic.2)))
        <$> seq 0 (Z.to_nat (i1 - i0))
    | Err _ => []
    end.

(** The clamps have left [i1] below [i0]. *)
Definition inverted_at (ic : nat * nat) : bool := (count_at ic <? 0)%Z.

(** The exception that a pair raises in [flux_coo]: that of the rounding of
    its window, or the [ValueError] of [np.zeros] for a negative length. *)
Definition collect_error (ic : nat * nat) : option pyerr :=
  match window_error (shape3_1 frame) (at2 ord_pos ic.1 ic.2) ap_rad with
  | Some e => Some e
  | None => if inverted_at ic then Some ValueError else None
  end.
End collected.

(** The cells of the index table for the given counts, the first run
    starting at [cur]. *)
Fixpoint cells_from (cur : Z) (counts : list Z) : list (Z * Z) :=
  match counts with
  | [] => []
  | n :: counts => (cur, n) :: cells_from (cur + n) counts
  end.

(** [flux_coo] on arrays of matching shapes, without its loops. *)
Definition flux_coo_closed (frame variance : array3)
    (ord_pos : array2_of npfloat) (ap_rad : npfloat)
  : result (list sample * table) :=
  let ps := pairs (shape3_0 frame) (shape3_2 frame) in
  match first_error (collect_error frame ord_pos ap_rad) ps with
  | Some e => Err e
  | None =>
    match filter (valid_at frame ord_pos) ps with
    | [] => Err TypeError
    | _ =>
      Ok (concat (run_at frame variance ord_pos ap_rad <$> ps),
          Table (shape3_0 frame) (shape3_2 frame)
            (cells_from 0 (count_at frame ord_pos ap_rad <$> ps)))
    end
  end.

(** The inputs on which [flux_coo] returns: the three arrays agree on their
    shapes, no window fails to be rounded, some pair is not skipped, and no
    pair has a window that the clamps have inverted. *)
Definition flux_coo_pre (frame variance : array3)
    (ord_pos : array2_of npfloat) (ap_rad : npfloat) : Prop :=
  same_shape3 frame variance ∧
  trace_shape frame ord_pos ∧
  Forall (rounds_at frame ord_pos ap_rad)
    (pairs (shape3_0 frame) (shape3_2 frame)) ∧
  Exists (valid_at frame ord_pos) (pairs (shape3_0 frame) (shape3_2 frame)) ∧
  Forall (λ ic, (0 <= count_at frame ord_pos ap_rad ic)%Z)
    (pairs (shape3_0 frame) (shape3_2 frame)).


(** A sample with its flux divided by [norm_sum] and its variance by the
    square of [norm_sum]. *)
Definition scale (norm_sum : Q) (s : sample) : sample :=
  Sample (s_off s) (s_flux s / norm_sum) (s_var s / norm_sum ^ 2) (s_col s).

(** The divisor of a pair whose samples are [run]: the value of the reference
    spectrum, or the sum of the fluxes without one, not below [min_norm]. *)
Definition norm_of (spec : option array2) (integration col : nat)
    (run : list sample) : Q :=
  np_maximum
    match spec with
    | None => np_sum (s_flux <$> run)
    | Some s => at2 s integration col
    end
    min_norm.

(** A reference spectrum, when there is one, has a value for every pair. *)
Definition spec_shape (nints ncols : nat) (spec : option array2) : Prop :=
  match spec with
  | None => True
  | Some s => shape2_0 s = nints ∧ shape2_1 s = ncols
  end.

(** ** The outcomes of [aperture_extract] and [flux_coo] *)

(** No trace position of the list makes the rounding of its window raise. *)
Definition windows_round (nrows : nat) (ord_pos : list npfloat)
    (ap_rad : npfloat) : Prop :=
  Forall (λ p, window_error nrows p ap_rad = None) ord_pos.

(** No trace position of the array makes the rounding of its window raise. *)
Definition all_round (frame : array3) (ord_pos : array2_of npfloat)
    (ap_rad : npfloat) : Prop :=
  ∀ i c, i < shape3_0 frame → c < shape3_2 frame →
         window_error (shape3_1 frame) (at2 ord_pos i c) ap_rad = None.

(** Some pair is not skipped. *)
Definition some_valid (frame : array3) (ord_pos : array2_of npfloat) : Prop :=
  ∃ i c, i < shape3_0 frame ∧ c < shape3_2 frame ∧
         skipped (shape3_1 frame) (at2 ord_pos i c) = false.

(** The pair [(i, c)] is not skipped and the clamps leave [i1] below
    [i0]. *)
Definition inverted_window (frame : array3) (ord_pos : array2_of npfloat)
    (ap_rad : npfloat) (i c : nat) : Prop :=
  skipped (shape3_1 frame) (at2 ord_pos i c) = false ∧
  ∃ i0 i1,
    aperture_window (shape3_1 frame) (at2 ord_pos i c) ap_rad = Ok (i0, i1) ∧
    (i1 < i0)%Z.

Definition some_inverted (frame : array3) (ord_pos : array2_of npfloat)
    (ap_rad : npfloat) : Prop :=
  ∃ i c, i < shape3_0 frame ∧ c < shape3_2 frame ∧
         inverted_window frame ord_pos ap_rad i c.

(** A number with a mantissa of 53 bits and an exponent that binary64 has;
    no bound is put on large exponents, overflow being the matter of
    [to_b64]. *)
Definition binary64 (x : Q) : Prop :=
  ∃ m k : Z, (Z.abs m < 2 ^ 53)%Z ∧ (-1074 <= k)%Z ∧
             (x == inject_Z m * 2 ^ k)%Q.

(** A trace position that a float array can hold and that is not a NaN. *)
Definition is_position (p : npfloat) : Prop :=
  match p with
  | Num q => binary64 q
  | NaN => False
  | Inf _ => True
  end.

(** ** Any table *)

(** The cells of a table are as many as its shape says. *)
Definition table_wf (t : table) : Prop :=
  length (cells t) = tshape_0 t * tshape_1 t.

(** The reference spectrum, when there is one, has a value at [(i, c)]. *)
Definition covered (spec : option array2) (ic : nat * nat) : bool :=
  match spec with
  | None => true
  | Some s => bool_decide (ic.1 < shape2_0 s ∧ ic.2 < shape2_1 s)
  end.

(** Two samples with the same distance from the trace and the same
    column. *)
Definition same_place (s s' : sample) : Prop :=
  s_off s' = s_off s ∧ s_col s' = s_col s.

(** The reference spectrum, when there is one, is at least as large as the
    table. *)
Definition spec_covers (t : table) (spec : option array2) : Prop :=
  match spec with
  | None => True
  | Some s => tshape_0 t ≤ shape2_0 s ∧ tshape_1 t ≤ shape2_1 s
  end.

(** ** One integration of a cube *)

(** [cube[k]]: the frame of integration [k]. *)
Definition integration_frame (cube : array3) (k : nat) : array2 :=
  Array2 (shape3_1 cube) (shape3_2 cube) (λ r c, at3 cube k r c).

(** [ord_pos[k]]: the trace positions of integration [k]. *)
Definition trace_row (ord_pos : array2_of npfloat) (k : nat) : list npfloat :=
  (λ c, at2 ord_pos k c) <$> seq 0 (shape2_1 ord_pos).

(** ** Inputs for the examples *)

Definition const2 (n0 n1 : nat) (q : Q) : array2 := Array2 n0 n1 (λ _ _, q).
Definition const3 (n0 n1 n2 : nat) (q : Q) : array3 :=
  Array3 n0 n1 n2 (λ _ _ _, q).

(** The same trace position in every integration and column. *)
Definition const_trace (n0 n1 : nat) (p : npfloat) : array2_of npfloat :=
  Array2 n0 n1 (λ _ _, p).

(** One integration of five rows and three columns, every pixel 1, the trace
    on row 2 in every column: with the radius 1 every window is rows 1 and 2.
    [example_pix] and [example_table] are what [flux_coo] returns for it. *)
Definition example_cube : array3 := const3 1 5 3 1.
Definition example_trace : array2_of npfloat := const_trace 1 3 (Num 2).

Definition example_pix : list sample :=
  Eval vm_compute in
    match flux_coo example_cube example_cube example_trace (Num 1) with
    | Ok res => res.1
    | Err _ => []
    end.

Definition example_table : table :=
  Eval vm_compute in
    match flux_coo example_cube example_cube example_trace (Num 1) with
    | Ok res => res.2
    | Err _ => table_zeros 0 0
    end.

(** Two runs that no frame has produced: two samples for the pair (0, 0) and
    one for the pair (0, 1). *)
Definition example_runs (ic : nat * nat) : list sample :=
  if decide (ic.2 = 0) then [Sample 0 2 1 0; Sample 1 6 1 0]
  else [Sample 0 4 9 1].

(** * Properties *)

(** ** Loops *)

Lemma bind_Ok {A B : Type} (f : A → result B) (a : A) : Ok a ≫= f = f a.
Proof. reflexivity. Qed.

Lemma for_each_nil {A S : Type} (body : A → S → result S) (s : S) :
  for_each [] body s = Ok s.
Proof. reflexivity. Qed.

Lemma for_each_snoc {A S : Type} (l : list A) (x : A)
    (body : A → S → result S) (s : S) :
  for_each (l ++ [x]) body s = for_each l body s ≫= body x.
Proof. unfold for_each. by rewrite foldl_snoc. Qed.

Lemma for_each_app {A S : Type} (l k : list A) (body : A → S → result S)
    (s : S) :
  for_each (l ++ k) body s = for_each l body s ≫= for_each k body.
Proof.
  induction k as [|x k IH] using rev_ind.
  - rewrite app_nil_r. by destruct (for_each l body s).
  - rewrite app_assoc, !for_each_snoc, IH.
    destruct (for_each l body s) as [s'|e]; [|done].
    by rewrite !bind_Ok, for_each_snoc.
Qed.

Lemma for_each_ext {A S : Type} (l : list A) (body body' : A → S → result S)
    (s : S) :
  (∀ x s', body x s' = body' x s') →
  for_each l body s = for_each l body' s.
Proof.
  intros Hext. induction l as [|x l IH] using rev_ind; [done|].
  rewrite !for_each_snoc, IH.
  destruct (for_each l body' s) as [s'|e]; [|done].
  rewrite !bind_Ok. apply Hext.
Qed.

Lemma for_each_fmap {A B S : Type} (g : A → B) (l : list A)
    (body : B → S → result S) (s : S) :
  for_each (g <$> l) body s = for_each l (λ x, body (g x)) s.
Proof.
  induction l as [|x l IH] using rev_ind; [done|].
  rewrite fmap_app. change (g <$> [x]) with [g x].
  by rewrite !for_each_snoc, IH.
Qed.

Lemma for_each_bind {A B S : Type} (f : A → list B) (l : list A)
    (body : B → S → result S) (s : S) :
  for_each (l ≫= f) body s = for_each l (λ x, for_each (f x) body) s.
Proof.
  induction l as [|x l IH] using rev_ind; [done|].
  rewrite bind_app, for_each_app, for_each_snoc, IH. simpl.
  by rewrite app_nil_r.
Qed.

Lemma for_range_S {S : Type} (n : nat) (body : nat → S → result S) (s : S) :
  for_range (Datatypes.S n) body s = for_range n body s ≫= body n.
Proof. unfold for_range. by rewrite seq_S, for_each_snoc. Qed.

Lemma for_range_nested {S : Type} (n m : nat)
    (body : nat → nat → S → result S) (s : S) :
  for_range n (λ i, for_range m (body i)) s
  = for_each (pairs n m) (λ ic, body ic.1 ic.2) s.
Proof.
  unfold pairs, for_range. rewrite for_each_bind.
  apply for_each_ext. intros i s'. by rewrite for_each_fmap.
Qed.

(** ** Lists written one cell after the other *)

Lemma insert_next {A : Type} (xs : list A) (n k : nat) (z v : A) :
  length xs = n → n < k →
  <[n := v]> (xs ++ replicate (k - n) z) = (xs ++ [v]) ++ replicate (k - S n) z.
Proof.
  intros Hlen Hlt. rewrite insert_app_r_alt by lia.
  replace (n - length xs) with 0 by lia.
  replace (k - n) with (S (k - S n)) by lia.
  by rewrite <- app_assoc.
Qed.

Lemma keep_next {A : Type} (xs : list A) (n k : nat) (z : A) :
  n < k →
  xs ++ replicate (k - n) z = (xs ++ [z]) ++ replicate (k - S n) z.
Proof.
  intros Hlt. replace (k - n) with (S (k - S n)) by lia.
  by rewrite <- app_assoc.
Qed.

(** ** The first exception of a loop *)

Lemma first_error_app {A : Type} (status : A → option pyerr) (l k : list A) :
  first_error status (l ++ k)
  = match first_error status l with
    | Some e => Some e
    | None => first_error status k
    end.
Proof.
  induction l as [|x l IH]; [done|]. simpl. by destruct (status x).
Qed.

Lemma first_error_None {A : Type} (status : A → option pyerr) (l : list A) :
  first_error status l = None ↔ Forall (λ x, status x = None) l.
Proof.
  induction l as [|x l IH]; simpl.
  - split; [constructor|done].
  - rewrite Forall_cons. destruct (status x) as [e|].
    + split; [done | by intros [? _]].
    + rewrite IH. split; [by intros ? | by intros [_ ?]].
Qed.

Lemma first_error_Some {A : Type} (status : A → option pyerr) (l : list A)
    (e : pyerr) :
  first_error status l = Some e → ∃ x, x ∈ l ∧ status x = Some e.
Proof.
  induction l as [|x l IH]; simpl; [done|].
  destruct (status x) as [e'|] eqn:Hx.
  - intros [= ->]. exists x. split; [apply list_elem_of_here|done].
  - intros He. destruct (IH He) as (y & Hy & Hs).
    exists y. split; [by apply list_elem_of_further|done].
Qed.

Lemma first_error_ext {A : Type} (status status' : A → option pyerr)
    (l : list A) :
  (∀ x, x ∈ l → status x = status' x) →
  first_error status l = first_error status' l.
Proof.
  induction l as [|x l IH]; intros Hext; [done|]. simpl.
  rewrite (Hext x) by apply list_elem_of_here.
  rewrite IH; [done|]. intros y Hy. apply Hext. by apply list_elem_of_further.
Qed.

Lemma first_error_fmap {A B : Type} (g : A → B) (status : B → option pyerr)
    (l : list A) :
  first_error status (g <$> l) = first_error (status ∘ g) l.
Proof.
  induction l as [|x l IH]; [done|].
  rewrite fmap_cons. cbn [first_error]. by rewrite IH.
Qed.

(** ** Rounding *)

Lemma Qltb_lt (x y : Q) : Qltb x y = true ↔ (x < y)%Q.
Proof.
  unfold Qltb. rewrite negb_true_iff, <- not_true_iff_false, Qle_bool_iff.
  split; [apply Qnot_le_lt | apply Qlt_not_le].
Qed.

Lemma py_round_near (x : Q) :
  (inject_Z (py_round x) - (1 # 2) <= x
   ∧ x <= inject_Z (py_round x) + (1 # 2))%Q.
Proof.
  unfold py_round.
  pose proof (Qfloor_le x) as Hlo. pose proof (Qlt_floor x) as Hhi.
  rewrite inject_Z_plus in Hhi. change (inject_Z 1) with 1%Q in Hhi.
  destruct (x - inject_Z (Qfloor x) ?= 1 # 2)%Q eqn:Hc.
  - apply Qeq_alt in Hc.
    destruct (Z.even (Qfloor x));
      rewrite ?inject_Z_plus; change (inject_Z 1) with 1%Q; lra.
  - apply Qlt_alt in Hc. lra.
  - apply Qgt_alt in Hc. rewrite inject_Z_plus.
    change (inject_Z 1) with 1%Q. lra.
Qed.

Lemma py_round_proper (x y : Q) : (x == y)%Q → py_round x = py_round y.
Proof.
  intros Hxy. unfold py_round.
  rewrite (Qfloor_comp _ _ Hxy).
  assert ((x - inject_Z (Qfloor y) ?= 1 # 2)%Q
          = (y - inject_Z (Qfloor y) ?= 1 # 2)%Q) as ->; [|done].
  apply Qcompare_comp; [|reflexivity]. rewrite Hxy. reflexivity.
Qed.

Lemma py_round_mono (x y : Q) : (x <= y)%Q → (py_round x <= py_round y)%Z.
Proof.
  intros Hxy.
  destruct (Z.le_gt_cases (py_round x) (py_round y)) as [|Hgt]; [done|].
  pose proof (py_round_near x) as [Hx _].
  pose proof (py_round_near y) as [_ Hy].
  assert (inject_Z (py_round y) + 1 <= inject_Z (py_round x))%Q as Hz.
  { change 1%Q with (inject_Z 1). rewrite <- inject_Z_plus, <- Zle_Qle. lia. }
  assert (x == y)%Q as Heq by lra.
  apply py_round_proper in Heq. lia.
Qed.

Lemma py_round_floor (x : Q) :
  (Qfloor x <= py_round x <= Qfloor x + 1)%Z.
Proof.
  unfold py_round.
  destruct (x - inject_Z (Qfloor x) ?= 1 # 2)%Q; [|lia..].
  destruct (Z.even (Qfloor x)); lia.
Qed.

Lemma py_round_below (x : Q) (n : Z) :
  (x < inject_Z n - (1 # 2))%Q → (py_round x < n)%Z.
Proof.
  intros Hx. unfold py_round.
  pose proof (Qfloor_le x) as Hf.
  destruct (x - inject_Z (Qfloor x) ?= 1 # 2)%Q eqn:Hc.
  - apply Qeq_alt in Hc.
    assert (inject_Z (Qfloor x + 1) < inject_Z n)%Q as Hlt
      by (rewrite inject_Z_plus; change (inject_Z 1) with 1%Q; lra).
    rewrite <- Zlt_Qlt in Hlt. destruct (Z.even (Qfloor x)); lia.
  - apply Qlt_alt in Hc. rewrite Zlt_Qlt. lra.
  - apply Qgt_alt in Hc. rewrite Zlt_Qlt, inject_Z_plus.
    change (inject_Z 1) with 1%Q. lra.
Qed.

(** ** binary64 *)

Lemma py_round_Z (n : Z) : py_round (inject_Z n) = n.
Proof.
  unfold py_round. rewrite Qfloor_Z.
  assert ((inject_Z n - inject_Z n ?= 1 # 2)%Q = Lt) as ->; [|done].
  apply Qlt_alt. ring_simplify (inject_Z n - inject_Z n)%Q. reflexivity.
Qed.

Lemma pow2_pos (e : Z) : (0 < 2 ^ e)%Q.
Proof. by apply Qpower_0_lt. Qed.

Lemma pow2_add (a b : Z) : (2 ^ (a + b) == 2 ^ a * 2 ^ b)%Q.
Proof. by apply Qpower_plus. Qed.

Lemma pow2_le (a b : Z) : (a <= b)%Z → (2 ^ a <= 2 ^ b)%Q.
Proof. intros Hab. by apply Qpower_le_compat_l. Qed.

Lemma pow2_lt_inv (a b : Z) : (2 ^ a < 2 ^ b)%Q → (a < b)%Z.
Proof. intros Hab. by apply (Qpower_lt_compat_l_inv 2). Qed.

Lemma pow2_Z (n : Z) : (0 <= n)%Z → (2 ^ n == inject_Z (2 ^ n))%Q.
Proof. intros Hn. by rewrite Zpower_Qpower. Qed.

Lemma pow2_cancel (x : Q) (e : Z) : (x * 2 ^ (- e) * 2 ^ e == x)%Q.
Proof.
  rewrite <- Qmult_assoc, <- pow2_add, Z.add_opp_diag_l.
  change (2 ^ 0)%Q with 1%Q. ring.
Qed.

Lemma Qdiv_le_cross (a b c d : Q) :
  (0 < b)%Q → (0 < d)%Q → (a * d <= c * b)%Q → (a / b <= c / d)%Q.
Proof.
  intros Hb Hd Hle. apply Qle_shift_div_l; [done|].
  assert (a / b * d == a * d / b)%Q as -> by (field; lra).
  apply Qle_shift_div_r; [done|exact Hle].
Qed.

Lemma Qdiv_lt_cross (a b c d : Q) :
  (0 < b)%Q → (0 < d)%Q → (a * d < c * b)%Q → (a / b < c / d)%Q.
Proof.
  intros Hb Hd Hlt. apply Qlt_shift_div_l; [done|].
  assert (a / b * d == a * d / b)%Q as -> by (field; lra).
  apply Qlt_shift_div_r; [done|exact Hlt].
Qed.

Lemma pow2_sub (a b : Z) : (2 ^ (a - b) == 2 ^ a / 2 ^ b)%Q.
Proof.
  unfold Z.sub, Qdiv. by rewrite pow2_add, Qpower_opp.
Qed.

Lemma Qlog2_spec (x : Q) :
  (0 < x)%Q → (2 ^ Qlog2 x <= x ∧ x < 2 ^ (Qlog2 x + 1))%Q.
Proof.
  intros Hx. destruct x as [n d]. unfold Qlog2. cbn [Qnum Qden].
  assert (0 < n)%Z as Hn by (unfold Qlt in Hx; simpl in Hx; lia).
  set (a := Z.log2 n). set (b := Z.log2 (Z.pos d)).
  pose proof (Z.log2_spec n Hn) as [Ha Ha'].
  pose proof (Z.log2_spec (Z.pos d) eq_refl) as [Hb Hb'].
  pose proof (Z.log2_nonneg n) as Ha0.
  pose proof (Z.log2_nonneg (Z.pos d)) as Hb0.
  fold a in Ha, Ha', Ha0. fold b in Hb, Hb', Hb0.
  rewrite <- Z.add_1_r in Ha', Hb'.
  rewrite Zle_Qle, <- pow2_Z in Ha, Hb by lia.
  rewrite Zlt_Qlt, <- pow2_Z in Ha', Hb' by lia.
  pose proof (pow2_pos a) as Hpa. pose proof (pow2_pos b) as Hpb.
  pose proof (pow2_pos (a + 1)) as Hpa'. pose proof (pow2_pos (b + 1)) as Hpb'.
  assert (0 < inject_Z (Z.pos d))%Q as Hd by lra.
  assert (n # d == inject_Z n / inject_Z (Z.pos d))%Q as Hnd
    by apply Qmake_Qdiv.
  assert (2 ^ (a - b - 1) <= n # d)%Q as Hlo.
  { replace (a - b - 1)%Z with (a - (b + 1))%Z by lia.
    rewrite pow2_sub, Hnd. apply Qdiv_le_cross; [done..|]. nra. }
  assert (n # d < 2 ^ (a - b + 1))%Q as Hhi.
  { replace (a - b + 1)%Z with (a + 1 - b)%Z by lia.
    rewrite pow2_sub, Hnd. apply Qdiv_lt_cross; [done..|]. nra. }
  destruct (Qle_bool (2 ^ (a - b)) (n # d)) eqn:Hc.
  - apply Qle_bool_iff in Hc. done.
  - split; [done|]. replace (a - b - 1 + 1)%Z with (a - b)%Z by lia.
    apply Qnot_le_lt. intros Hle. apply Qle_bool_iff in Hle. congruence.
Qed.

Lemma Qlog2_unique (x : Q) (k : Z) :
  (2 ^ k <= x)%Q → (x < 2 ^ (k + 1))%Q → Qlog2 x = k.
Proof.
  intros Hlo Hhi. pose proof (pow2_pos k) as Hk.
  destruct (Qlog2_spec x) as [Hlo' Hhi']; [lra|].
  assert (Qlog2 x < k + 1)%Z by (apply pow2_lt_inv; lra).
  assert (k < Qlog2 x + 1)%Z by (apply pow2_lt_inv; lra).
  lia.
Qed.

Lemma Qlog2_mono (x y : Q) :
  (0 < x)%Q → (x <= y)%Q → (Qlog2 x <= Qlog2 y)%Z.
Proof.
  intros Hx Hxy.
  destruct (Qlog2_spec x) as [Hlo _]; [done|].
  destruct (Qlog2_spec y) as [_ Hhi]; [lra|].
  assert (Qlog2 x < Qlog2 y + 1)%Z by (apply pow2_lt_inv; lra).
  lia.
Qed.

Lemma Qlog2_proper (x y : Q) : (0 < x)%Q → (x == y)%Q → Qlog2 x = Qlog2 y.
Proof.
  intros Hx Hxy. destruct (Qlog2_spec x) as [Hlo Hhi]; [done|].
  symmetry. apply Qlog2_unique; by rewrite <- Hxy.
Qed.

Lemma py_round_nonneg (x : Q) : (0 <= x)%Q → (0 <= py_round x)%Z.
Proof.
  intros Hx. rewrite <- (py_round_Z 0). by apply py_round_mono.
Qed.

Lemma b64_round_pos_eq (x : Q) :
  b64_round_pos x
  = (inject_Z (py_round (x * 2 ^ (- b64_exp x))) * 2 ^ b64_exp x)%Q.
Proof. reflexivity. Qed.

Lemma b64_round_pos_nonneg (x : Q) : (0 <= x)%Q → (0 <= b64_round_pos x)%Q.
Proof.
  intros Hx. rewrite b64_round_pos_eq.
  pose proof (pow2_pos (b64_exp x)) as He.
  pose proof (pow2_pos (- b64_exp x)) as He'.
  apply Qmult_le_0_compat; [|lra].
  change 0%Q with (inject_Z 0). rewrite <- Zle_Qle.
  apply py_round_nonneg. apply Qmult_le_0_compat; lra.
Qed.

Lemma b64_round_pos_zero (x : Q) : (x == 0)%Q → (b64_round_pos x == 0)%Q.
Proof.
  intros Hx. rewrite b64_round_pos_eq. generalize (b64_exp x). intros e.
  rewrite (py_round_proper _ (inject_Z 0)), py_round_Z.
  - change (inject_Z 0) with 0%Q. ring.
  - rewrite Hx. change (inject_Z 0) with 0%Q. ring.
Qed.

(** The mantissa of a positive number, before it is rounded, is below
    [2^53]; that of a normal number is at least [2^52]. *)
Lemma b64_scaled_upper (x : Q) :
  (0 < x)%Q → (x * 2 ^ (- b64_exp x) < inject_Z (2 ^ 53))%Q.
Proof.
  intros Hx. destruct (Qlog2_spec x Hx) as [_ Hhi].
  pose proof (pow2_pos (- b64_exp x)) as He'.
  assert (2 ^ (Qlog2 x + 1) <= 2 ^ (b64_exp x + 53))%Q as Hle
    by (apply pow2_le; unfold b64_exp; lia).
  rewrite <- pow2_Z by lia.
  assert (2 ^ 53 == 2 ^ (b64_exp x + 53) * 2 ^ (- b64_exp x))%Q as ->.
  { rewrite <- pow2_add. by replace (b64_exp x + 53 + - b64_exp x)%Z with 53%Z
      by lia. }
  apply Qmult_lt_compat_r; [done|]. lra.
Qed.

Lemma b64_scaled_lower (x : Q) :
  (0 < x)%Q → (-1022 <= Qlog2 x)%Z →
  (inject_Z (2 ^ 52) <= x * 2 ^ (- b64_exp x))%Q.
Proof.
  intros Hx Hnorm. destruct (Qlog2_spec x Hx) as [Hlo _].
  pose proof (pow2_pos (- b64_exp x)) as He'.
  rewrite <- pow2_Z by lia.
  assert (2 ^ 52 == 2 ^ Qlog2 x * 2 ^ (- b64_exp x))%Q as ->.
  { rewrite <- pow2_add. unfold b64_exp.
    by replace (Qlog2 x + - (Z.max (Qlog2 x) (-1022) - 52))%Z with 52%Z
      by lia. }
  apply Qmult_le_compat_r; lra.
Qed.

Lemma b64_round_pos_upper (x : Q) :
  (0 < x)%Q → (b64_round_pos x <= 2 ^ (b64_exp x + 53))%Q.
Proof.
  intros Hx. rewrite b64_round_pos_eq, pow2_add.
  pose proof (pow2_pos (b64_exp x)) as He.
  rewrite (Qmult_comm (2 ^ b64_exp x) (2 ^ 53)).
  apply Qmult_le_compat_r; [|lra].
  rewrite (pow2_Z 53), <- Zle_Qle by lia.
  rewrite <- (py_round_Z (2 ^ 53)). apply py_round_mono.
  apply Qlt_le_weak. by apply b64_scaled_upper.
Qed.

Lemma b64_round_pos_lower (x : Q) :
  (0 < x)%Q → (-1022 <= Qlog2 x)%Z →
  (2 ^ (b64_exp x + 52) <= b64_round_pos x)%Q.
Proof.
  intros Hx Hnorm. rewrite b64_round_pos_eq, pow2_add.
  pose proof (pow2_pos (b64_exp x)) as He.
  rewrite (Qmult_comm (2 ^ b64_exp x)).
  apply Qmult_le_compat_r; [|lra].
  rewrite (pow2_Z 52), <- Zle_Qle by lia.
  rewrite <- (py_round_Z (2 ^ 52)). apply py_round_mono.
  by apply b64_scaled_lower.
Qed.

Lemma b64_round_pos_mono (x y : Q) :
  (0 <= x)%Q → (x <= y)%Q → (b64_round_pos x <= b64_round_pos y)%Q.
Proof.
  intros Hx Hxy.
  destruct (Qlt_le_dec 0 x) as [Hpos|Hzero].
  2:{ rewrite (b64_round_pos_zero x) by lra.
      apply b64_round_pos_nonneg. lra. }
  assert (0 < y)%Q as Hy by lra.
  pose proof (Qlog2_mono x y Hpos Hxy) as Hlog.
  destruct (decide (b64_exp x = b64_exp y)) as [Heq|Hne].
  - rewrite !b64_round_pos_eq, Heq.
    pose proof (pow2_pos (b64_exp y)) as He.
    pose proof (pow2_pos (- b64_exp y)) as He'.
    apply Qmult_le_compat_r; [|lra].
    rewrite <- Zle_Qle. apply py_round_mono.
    apply Qmult_le_compat_r; lra.
  - assert (b64_exp x + 1 <= b64_exp y)%Z as Hlt
      by (unfold b64_exp in *; lia).
    assert (-1022 <= Qlog2 y)%Z as Hnorm by (unfold b64_exp in *; lia).
    pose proof (b64_round_pos_upper x Hpos) as Hup.
    pose proof (b64_round_pos_lower y Hy Hnorm) as Hlow.
    assert (2 ^ (b64_exp x + 53) <= 2 ^ (b64_exp y + 52))%Q
      by (apply pow2_le; lia).
    lra.
Qed.

Lemma b64_round_pos_proper (x y : Q) :
  (0 <= x)%Q → (x == y)%Q → (b64_round_pos x == b64_round_pos y)%Q.
Proof.
  intros Hx Hxy. apply Qle_antisym; apply b64_round_pos_mono; lra.
Qed.

Lemma b64_round_pos_exact (x : Q) (m k : Z) :
  (0 <= m < 2 ^ 53)%Z → (-1074 <= k)%Z → (x == inject_Z m * 2 ^ k)%Q →
  (b64_round_pos x == x)%Q.
Proof.
  intros Hm Hk Hx. pose proof (pow2_pos k) as Hpk.
  destruct (decide (m = 0%Z)) as [->|Hm0].
  { assert (x == 0)%Q as Hz by (rewrite Hx; change (inject_Z 0) with 0%Q; ring).
    rewrite b64_round_pos_zero by done. by rewrite Hz. }
  assert (inject_Z 1 <= inject_Z m)%Q as Hm1 by (rewrite <- Zle_Qle; lia).
  assert (inject_Z m < inject_Z (2 ^ 53))%Q as Hm2 by (rewrite <- Zlt_Qlt; lia).
  change (inject_Z 1) with 1%Q in Hm1. rewrite <- pow2_Z in Hm2 by lia.
  assert (0 < x)%Q as Hpos by (rewrite Hx; apply Qmult_lt_0_compat; lra).
  destruct (Qlog2_spec x Hpos) as [Hlo _].
  assert (x < 2 ^ (53 + k))%Q as Hhi.
  { rewrite Hx, pow2_add. by apply Qmult_lt_compat_r. }
  assert (Qlog2 x < 53 + k)%Z by (apply pow2_lt_inv; lra).
  assert (b64_exp x <= k)%Z as He by (unfold b64_exp; lia).
  rewrite b64_round_pos_eq. revert He. generalize (b64_exp x). intros e He.
  assert (x * 2 ^ (- e) == inject_Z (m * 2 ^ (k - e)))%Q as Hint.
  { rewrite inject_Z_mult, <- pow2_Z by lia.
    rewrite Hx, <- Qmult_assoc, <- pow2_add. reflexivity. }
  rewrite (py_round_proper _ _ Hint), py_round_Z.
  rewrite inject_Z_mult, <- pow2_Z by lia.
  rewrite <- Qmult_assoc, <- pow2_add.
  replace (k - e + e)%Z with k by lia. by rewrite Hx.
Qed.

Lemma b64_round_pos_binary64 (x : Q) :
  (0 <= x)%Q → binary64 (b64_round_pos x).
Proof.
  intros Hx. destruct (Qlt_le_dec 0 x) as [Hpos|Hzero].
  2:{ exists 0%Z, 0%Z. split; [done|]. split; [done|].
      rewrite b64_round_pos_zero by lra. change (inject_Z 0) with 0%Q. ring. }
  set (m := py_round (x * 2 ^ (- b64_exp x))).
  assert (0 <= m <= 2 ^ 53)%Z as Hm.
  { split.
    - apply py_round_nonneg. pose proof (pow2_pos (- b64_exp x)).
      apply Qmult_le_0_compat; lra.
    - subst m. rewrite <- (py_round_Z (2 ^ 53)). apply py_round_mono.
      apply Qlt_le_weak. by apply b64_scaled_upper. }
  assert (-1074 <= b64_exp x)%Z as He by (unfold b64_exp; lia).
  destruct (decide (m = 2 ^ 53)%Z) as [Htop|Hlt].
  - exists (2 ^ 52)%Z, (b64_exp x + 1)%Z.
    split; [done|]. split; [lia|].
    rewrite b64_round_pos_eq. fold m. rewrite Htop, pow2_add.
    rewrite <- !pow2_Z by lia.
    change (2 ^ 53)%Q with (2 ^ 52 * 2 ^ 1)%Q. ring.
  - exists m, (b64_exp x). split; [lia|]. split; [done|].
    by rewrite b64_round_pos_eq.
Qed.

Lemma b64_round_nonneg_eq (x : Q) :
  (0 <= x)%Q → (b64_round x == b64_round_pos x)%Q.
Proof.
  intros Hx. unfold b64_round. rewrite Qred_correct.
  destruct (Qltb x 0) eqn:Hc; [|reflexivity].
  apply Qltb_lt in Hc. lra.
Qed.

Lemma b64_round_neg_eq (x : Q) :
  (x < 0)%Q → (b64_round x == - b64_round_pos (- x))%Q.
Proof.
  intros Hx. unfold b64_round. rewrite Qred_correct.
  destruct (Qltb x 0) eqn:Hc; [reflexivity|].
  apply not_true_iff_false in Hc. destruct Hc. by apply Qltb_lt.
Qed.

Lemma Qltb_ge (x y : Q) : Qltb x y = false ↔ (y <= x)%Q.
Proof.
  rewrite <- not_true_iff_false, Qltb_lt.
  split; [apply Qnot_lt_le | apply Qle_not_lt].
Qed.

Lemma b64_round_proper (x y : Q) : (x == y)%Q → b64_round x = b64_round y.
Proof.
  intros Hxy. unfold b64_round. apply Qred_complete.
  destruct (Qltb x 0) eqn:Hx, (Qltb y 0) eqn:Hy.
  - apply Qltb_lt in Hx. apply Qopp_comp, b64_round_pos_proper; lra.
  - apply Qltb_lt in Hx. apply Qltb_ge in Hy. lra.
  - apply Qltb_ge in Hx. apply Qltb_lt in Hy. lra.
  - apply Qltb_ge in Hx. by apply b64_round_pos_proper.
Qed.

Lemma b64_round_mono (x y : Q) :
  (x <= y)%Q → (b64_round x <= b64_round y)%Q.
Proof.
  intros Hxy.
  destruct (Qlt_le_dec x 0) as [Hx|Hx], (Qlt_le_dec y 0) as [Hy|Hy].
  - rewrite !b64_round_neg_eq by done.
    pose proof (b64_round_pos_mono (- y) (- x)). lra.
  - rewrite b64_round_neg_eq, b64_round_nonneg_eq by done.
    pose proof (b64_round_pos_nonneg (- x)).
    pose proof (b64_round_pos_nonneg y). lra.
  - lra.
  - rewrite !b64_round_nonneg_eq by done. by apply b64_round_pos_mono.
Qed.

Lemma binary64_opp (x : Q) : binary64 x → binary64 (- x).
Proof.
  intros (m & k & Hm & Hk & Hx). exists (- m)%Z, k.
  split; [lia|]. split; [done|]. rewrite Hx, inject_Z_opp. ring.
Qed.

Lemma b64_round_exact (x : Q) : binary64 x → (b64_round x == x)%Q.
Proof.
  intros (m & k & Hm & Hk & Hx). pose proof (pow2_pos k) as Hpk.
  destruct (Z.lt_ge_cases m 0) as [Hneg|Hpos].
  - assert (inject_Z m < inject_Z 0)%Q as Hm0 by by rewrite <- Zlt_Qlt.
    change (inject_Z 0) with 0%Q in Hm0.
    assert (x < 0)%Q as Hx0.
    { rewrite Hx. pose proof (Qmult_lt_compat_r _ _ _ Hpk Hm0). lra. }
    rewrite b64_round_neg_eq by done.
    rewrite (b64_round_pos_exact (- x) (- m) k); [ring|lia|done|].
    rewrite Hx, inject_Z_opp. ring.
  - assert (inject_Z 0 <= inject_Z m)%Q as Hm0 by by rewrite <- Zle_Qle.
    change (inject_Z 0) with 0%Q in Hm0.
    assert (0 <= x)%Q as Hx0
      by (rewrite Hx; apply Qmult_le_0_compat; lra).
    rewrite b64_round_nonneg_eq by done.
    apply (b64_round_pos_exact x m k); [lia|done..].
Qed.

Lemma b64_round_binary64 (x : Q) : binary64 (b64_round x).
Proof.
  destruct (Qlt_le_dec x 0) as [Hneg|Hpos].
  - destruct (b64_round_pos_binary64 (- x)) as (m & k & Hm & Hk & Hx); [lra|].
    exists (- m)%Z, k. split; [lia|]. split; [done|].
    rewrite b64_round_neg_eq, Hx, inject_Z_opp by done. ring.
  - destruct (b64_round_pos_binary64 x Hpos) as (m & k & Hm & Hk & Hx).
    exists m, k. split; [done|]. split; [done|].
    by rewrite b64_round_nonneg_eq.
Qed.

Lemma binary64_Z (n : Z) : (Z.abs n <= 2 ^ 53)%Z → binary64 (inject_Z n).
Proof.
  intros Hn. destruct (decide (Z.abs n = 2 ^ 53)%Z) as [Htop|Hlt].
  - assert (n = 2 ^ 53 ∨ n = - 2 ^ 53)%Z as [-> | ->] by lia.
    + exists (2 ^ 52)%Z, 1%Z. split; [done|]. split; [done|]. reflexivity.
    + exists (- 2 ^ 52)%Z, 1%Z. split; [done|]. split; [done|]. reflexivity.
  - exists n, 0%Z. split; [lia|]. split; [done|].
    change (2 ^ 0)%Q with 1%Q. ring.
Qed.

Lemma b64_round_Z (n : Z) :
  (Z.abs n <= 2 ^ 53)%Z → (b64_round (inject_Z n) == inject_Z n)%Q.
Proof. intros Hn. by apply b64_round_exact, binary64_Z. Qed.

Lemma binary64_pow2 (k : Z) : (-1074 <= k)%Z → binary64 (2 ^ k).
Proof.
  intros Hk. exists 1%Z, k. split; [done|]. split; [done|].
  change (inject_Z 1) with 1%Q. ring.
Qed.

(** [int(round(x))] of a double between two integers that binary64 holds
    lies between them. *)
Lemma py_round_b64_floor (x : Q) :
  (- 2 ^ 53 <= Qfloor x < 2 ^ 53)%Z →
  (Qfloor x <= py_round (b64_round x) <= Qfloor x + 1)%Z.
Proof.
  intros Hf. pose proof (Qfloor_le x) as Hlo.
  pose proof (Qlt_floor x) as Hhi.
  split.
  - rewrite <- (py_round_Z (Qfloor x)). apply py_round_mono.
    rewrite <- (b64_round_Z (Qfloor x)) by lia. by apply b64_round_mono.
  - rewrite <- (py_round_Z (Qfloor x + 1)). apply py_round_mono.
    rewrite <- (b64_round_Z (Qfloor x + 1)) by lia.
    apply b64_round_mono. lra.
Qed.

(** Half a pixel is taken from a double between [L - 1/2] and [L] without
    rounding. *)
Lemma binary64_sub_half (q : Q) (L : Z) :
  binary64 q → (1 <= L)%Z →
  (inject_Z L - (1 # 2) < q)%Q → (q < inject_Z L)%Q →
  binary64 (q - (1 # 2)).
Proof.
  intros (m & k & Hm & Hk & Hq) HL Hlo Hhi. pose proof (pow2_pos k) as Hpk.
  assert (inject_Z 1 <= inject_Z L)%Q as HL' by by rewrite <- Zle_Qle.
  change (inject_Z 1) with 1%Q in HL'.
  destruct (Z.le_gt_cases 0 k) as [Hk0|Hk0].
  { assert (q == inject_Z (m * 2 ^ k))%Q as Hint
      by (rewrite inject_Z_mult, <- pow2_Z by done; exact Hq).
    rewrite Hint in Hlo, Hhi.
    assert (inject_Z L + inject_Z (-1) < inject_Z (m * 2 ^ k))%Q as Hlo'
      by (change (inject_Z (-1)) with (-1)%Q; lra).
    rewrite <- inject_Z_plus in Hlo'.
    rewrite <- Zlt_Qlt in Hlo', Hhi. lia. }
  assert (1 # 2 == inject_Z (2 ^ (- 1 - k)) * 2 ^ k)%Q as Hhalf.
  { rewrite <- pow2_Z, <- pow2_add by lia.
    by replace (-1 - k + k)%Z with (-1)%Z by lia. }
  exists (m - 2 ^ (- 1 - k))%Z, k.
  assert (0 < 2 ^ (- 1 - k))%Z as Hpos by (apply Z.pow_pos_nonneg; lia).
  assert (q - (1 # 2) == inject_Z (m - 2 ^ (- 1 - k)) * 2 ^ k)%Q as Heq.
  { unfold Z.sub at 1. rewrite inject_Z_plus, inject_Z_opp.
    rewrite Hq. rewrite Hhalf at 1. ring. }
  split; [|split; [done|exact Heq]].
  assert (0 < inject_Z (m - 2 ^ (- 1 - k)))%Q as Hm'.
  { apply (Qmult_lt_r _ _ (2 ^ k)); [done|]. rewrite <- Heq. lra. }
  change 0%Q with (inject_Z 0) in Hm'. rewrite <- Zlt_Qlt in Hm'. lia.
Qed.

Lemma to_b64_finite (x : Q) :
  (Qabs x <= 2 ^ 1023)%Q → to_b64 x = Num (b64_round x).
Proof.
  intros Hx. apply Qabs_Qle_condition in Hx as [Hlo Hhi].
  pose proof (b64_round_mono _ _ Hlo) as Hlo'.
  pose proof (b64_round_mono _ _ Hhi) as Hhi'.
  rewrite (b64_round_exact (- 2 ^ 1023)) in Hlo'
    by (apply binary64_opp, binary64_pow2; lia).
  rewrite (b64_round_exact (2 ^ 1023)) in Hhi' by (apply binary64_pow2; lia).
  unfold to_b64.
  destruct (Qle_bool _ _) eqn:Hc; [|done].
  apply Qle_bool_iff in Hc.
  assert (Qabs (b64_round x) <= 2 ^ 1023)%Q as Habs
    by by apply Qabs_Qle_condition.
  assert (2 ^ 1023 < 2 ^ 1024)%Q by by apply Qpower_lt_compat_l.
  lra.
Qed.


(** [int(round(x))] of a double does not pass an integer that binary64
    holds. *)
Lemma py_round_b64_le (x : Q) (n : Z) :
  (Z.abs n <= 2 ^ 53)%Z → (x <= inject_Z n)%Q →
  (py_round (b64_round x) <= n)%Z.
Proof.
  intros Hn Hx. rewrite <- (py_round_Z n). apply py_round_mono.
  rewrite <- (b64_round_Z n) by done. by apply b64_round_mono.
Qed.

Lemma py_round_b64_ge (x : Q) (n : Z) :
  (Z.abs n <= 2 ^ 53)%Z → (inject_Z n <= x)%Q →
  (n <= py_round (b64_round x))%Z.
Proof.
  intros Hn Hx. rewrite <- (py_round_Z n) at 1. apply py_round_mono.
  rewrite <- (b64_round_Z n) by done. by apply b64_round_mono.
Qed.

Lemma Qle_pow2_53 (n : Z) :
  (n <= 2 ^ 53)%Z → (inject_Z n <= 2 ^ 53)%Q.
Proof. intros Hn. by rewrite (pow2_Z 53), <- Zle_Qle. Qed.

Lemma inject_Z_pred (n : Z) : (inject_Z (n - 1) == inject_Z n - 1)%Q.
Proof. unfold Z.sub. rewrite inject_Z_plus, inject_Z_opp. reflexivity. Qed.


Lemma float_add_finite (a b : Q) :
  (Qabs (a + b) <= 2 ^ 1023)%Q →
  float_add (Num a) (Num b) = Num (b64_round (a + b)).
Proof. apply to_b64_finite. Qed.

Lemma float_sub_finite (a b : Q) :
  (Qabs (a - b) <= 2 ^ 1023)%Q →
  float_sub (Num a) (Num b) = Num (b64_round (a - b)).
Proof. apply to_b64_finite. Qed.

Lemma Qabs_bound (x b : Q) : (- b <= x)%Q → (x <= b)%Q → (Qabs x <= b)%Q.
Proof. intros Hlo Hhi. by apply Qabs_Qle_condition. Qed.

Lemma Qabs_both (x : Q) : (- Qabs x <= x ∧ x <= Qabs x)%Q.
Proof.
  pose proof (Qle_Qabs x) as Hx. pose proof (Qle_Qabs (- x)) as Hx'.
  rewrite Qabs_opp in Hx'. split; lra.
Qed.

(** ** The window *)

Lemma skipped_true (nrows : nat) (q : Q) :
  skipped nrows (Num q) = true
  ↔ (q < 0 ∨ inject_Z (Z.of_nat nrows) <= q)%Q.
Proof.
  unfold skipped. cbn [float_ltb float_leb].
  by rewrite orb_true_iff, Qltb_lt, Qle_bool_iff.
Qed.

Lemma skipped_false (nrows : nat) (q : Q) :
  skipped nrows (Num q) = false
  ↔ (0 <= q ∧ q < inject_Z (Z.of_nat nrows))%Q.
Proof.
  rewrite <- not_true_iff_false, skipped_true. split.
  - intros Hn. split; [apply Qnot_lt_le | apply Qnot_le_lt]; tauto.
  - intros [H0 H1] [H|H]; [by apply Qlt_not_le in H | by apply Qle_not_lt in H].
Qed.

Lemma skipped_NaN (nrows : nat) : skipped nrows NaN = false.
Proof. reflexivity. Qed.

Lemma skipped_Inf (nrows : nat) (s : bool) : skipped nrows (Inf s) = true.
Proof. by destruct s. Qed.

(** A position that is not skipped is a NaN or a finite row of the frame. *)
Lemma skipped_false_inv (nrows : nat) (p : npfloat) :
  skipped nrows p = false →
  p = NaN ∨ ∃ q, p = Num q ∧ (0 <= q ∧ q < inject_Z (Z.of_nat nrows))%Q.
Proof.
  destruct p as [q| |s]; intros Hs.
  - right. exists q. split; [done|]. by apply skipped_false.
  - by left.
  - by rewrite skipped_Inf in Hs.
Qed.

Lemma aperture_window_Ok (nrows : nat) (p ap_rad : npfloat) (r0 r1 : Z) :
  int_round (float_sub p ap_rad) = Ok r0 →
  int_round (float_add p ap_rad) = Ok r1 →
  aperture_window nrows p ap_rad
  = Ok (Z.max 0 r0, Z.min r1 (Z.of_nat nrows - 1)).
Proof.
  intros H0 H1. unfold aperture_window. rewrite H0, H1, !bind_Ok.
  do 2 f_equal.
  - destruct (Z.ltb_spec r0 0); lia.
  - destruct (Z.geb_spec r1 (Z.of_nat nrows)); lia.
Qed.

Lemma aperture_window_inv (nrows : nat) (p ap_rad : npfloat) (i0 i1 : Z) :
  aperture_window nrows p ap_rad = Ok (i0, i1) →
  ∃ r0 r1,
    int_round (float_sub p ap_rad) = Ok r0 ∧
    int_round (float_add p ap_rad) = Ok r1 ∧
    i0 = Z.max 0 r0 ∧ i1 = Z.min r1 (Z.of_nat nrows - 1).
Proof.
  intros Hw.
  destruct (int_round (float_sub p ap_rad)) as [r0|e] eqn:H0;
    [|by unfold aperture_window in Hw; rewrite H0 in Hw].
  destruct (int_round (float_add p ap_rad)) as [r1|e] eqn:H1;
    [|by unfold aperture_window in Hw; rewrite H0, H1 in Hw].
  rewrite (aperture_window_Ok _ _ _ _ _ H0 H1) in Hw. injection Hw as <- <-.
  by exists r0, r1.
Qed.

Lemma aperture_window_bounds (nrows : nat) (p ap_rad : npfloat) (i0 i1 : Z) :
  aperture_window nrows p ap_rad = Ok (i0, i1) →
  (0 <= i0)%Z ∧ (i1 <= Z.of_nat nrows - 1)%Z.
Proof.
  intros Hw. apply aperture_window_inv in Hw as (r0 & r1 & _ & _ & -> & ->).
  lia.
Qed.

Lemma int_round_Err (x : npfloat) (e : pyerr) :
  int_round x = Err e →
  (x = NaN ∧ e = ValueError) ∨ (∃ s, x = Inf s) ∧ e = OverflowError.
Proof.
  destruct x as [q| |s]; intros [= <-]; [by left|].
  right. split; [by exists s|done].
Qed.

Lemma aperture_window_Err (nrows : nat) (p ap_rad : npfloat) (e : pyerr) :
  aperture_window nrows p ap_rad = Err e →
  e = ValueError ∨ e = OverflowError.
Proof.
  unfold aperture_window.
  destruct (int_round (float_sub p ap_rad)) as [r0|e0] eqn:H0.
  - destruct (int_round (float_add p ap_rad)) as [r1|e1] eqn:H1; [done|].
    rewrite bind_Ok. intros [= <-].
    apply int_round_Err in H1 as [[_ ->]|[_ ->]]; tauto.
  - intros [= <-]. apply int_round_Err in H0 as [[_ ->]|[_ ->]]; tauto.
Qed.

(** A position that has a window is finite. *)
Lemma aperture_window_position (nrows : nat) (p ap_rad : npfloat)
    (w : Z * Z) :
  skipped nrows p = false →
  aperture_window nrows p ap_rad = Ok w →
  ∃ q, p = Num q ∧ (0 <= q ∧ q < inject_Z (Z.of_nat nrows))%Q.
Proof.
  intros Hs Hw. apply skipped_false_inv in Hs as [->|Hq]; [|done].
  unfold aperture_window in Hw. by destruct ap_rad.
Qed.

Lemma window_error_None (nrows : nat) (p ap_rad : npfloat) :
  window_error nrows p ap_rad = None
  ↔ skipped nrows p = true ∨ ∃ w, aperture_window nrows p ap_rad = Ok w.
Proof.
  unfold window_error. destruct (skipped nrows p).
  - split; [by left|done].
  - destruct (aperture_window nrows p ap_rad) as [w|e].
    + split; [intros _; right; by exists w | done].
    + split; [done|]. by intros [|[w ?]].
Qed.

Lemma window_error_valid (nrows : nat) (p ap_rad : npfloat) :
  skipped nrows p = false →
  window_error nrows p ap_rad = None →
  ∃ i0 i1, aperture_window nrows p ap_rad = Ok (i0, i1).
Proof.
  intros Hs Hw. apply window_error_None in Hw as [Hw|[[i0 i1] Hw]].
  - congruence.
  - by exists i0, i1.
Qed.

Lemma window_error_Some (nrows : nat) (p ap_rad : npfloat) (e : pyerr) :
  window_error nrows p ap_rad = Some e →
  skipped nrows p = false ∧ aperture_window nrows p ap_rad = Err e ∧
  (e = ValueError ∨ e = OverflowError).
Proof.
  unfold window_error. destruct (skipped nrows p); [done|].
  destruct (aperture_window nrows p ap_rad) as [w|e'] eqn:Hw; [done|].
  intros [= <-]. split; [done|]. split; [done|].
  by eapply aperture_window_Err.
Qed.

(** A NaN among the trace positions is not skipped, and cannot be rounded. *)
Lemma window_error_NaN (nrows : nat) (ap_rad : npfloat) :
  window_error nrows NaN ap_rad = Some ValueError.
Proof. by destruct ap_rad. Qed.

(** Nor can a NaN radius, or an infinite one, at a position that is not
    skipped. *)
Lemma window_error_radius (nrows : nat) (p ap_rad : npfloat) :
  skipped nrows p = false →
  window_error nrows p NaN = Some ValueError ∧
  (p ≠ NaN → ∀ s, window_error nrows p (Inf s) = Some OverflowError).
Proof.
  intros Hs. unfold window_error. rewrite Hs.
  apply skipped_false_inv in Hs as [->|(q & -> & _)].
  - split; [done|]. by intros [].
  - split; [done|]. by intros _ [].
Qed.

(** The window of a finite position inside the frame when the radius is
    finite and the sum cannot overflow. *)
Lemma aperture_window_finite (nrows : nat) (q r : Q) :
  (0 <= q)%Q → (q < inject_Z (Z.of_nat nrows))%Q →
  (Qabs r + inject_Z (Z.of_nat nrows) <= 2 ^ 1023)%Q →
  float_sub (Num q) (Num r) = Num (b64_round (q - r)) ∧
  float_add (Num q) (Num r) = Num (b64_round (q + r)) ∧
  aperture_window nrows (Num q) (Num r)
  = Ok (Z.max 0 (py_round (b64_round (q - r))),
        Z.min (py_round (b64_round (q + r))) (Z.of_nat nrows - 1)).
Proof.
  intros H0 H1 Hr. destruct (Qabs_both r) as [Hlo Hhi].
  assert (float_sub (Num q) (Num r) = Num (b64_round (q - r))) as Hsub
    by (apply float_sub_finite, Qabs_bound; lra).
  assert (float_add (Num q) (Num r) = Num (b64_round (q + r))) as Hadd
    by (apply float_add_finite, Qabs_bound; lra).
  split; [done|]. split; [done|].
  apply aperture_window_Ok; [by rewrite Hsub | by rewrite Hadd].
Qed.

Lemma window_error_finite (nrows : nat) (p : npfloat) (r : Q) :
  p ≠ NaN →
  (Qabs r + inject_Z (Z.of_nat nrows) <= 2 ^ 1023)%Q →
  window_error nrows p (Num r) = None.
Proof.
  intros Hp Hr. apply window_error_None.
  destruct (skipped nrows p) eqn:Hs; [by left|]. right.
  apply skipped_false_inv in Hs as [->|(q & -> & H0 & H1)]; [done|].
  eexists. by apply aperture_window_finite.
Qed.

(** ** [aperture_extract] in closed form *)

Section extract.
Variables (frame variance : array2) (ord_pos : list npfloat)
  (ap_rad : npfloat) (uniform : bool).
Hypothesis Hshape : same_shape2 frame variance.

Let nrows := shape2_0 frame.
Let ncols := shape2_1 frame.
Let cell (a : array2) := extract_cell nrows a ord_pos ap_rad uniform.
Let status := column_error nrows ord_pos ap_rad.

Lemma extract_column_eq (col : nat) (spec var : list npfloat) :
  col < ncols → length spec = col → length var = col →
  extract_column frame variance ord_pos ap_rad uniform
    (float_mul ap_rad (Num 2)) col
    (spec ++ replicate (ncols - col) (Num 0),
     var ++ replicate (ncols - col) (Num 0))
  = match status col with
    | Some e => Err e
    | None =>
      Ok ((spec ++ [cell frame col]) ++ replicate (ncols - S col) (Num 0),
          (var ++ [cell variance col]) ++ replicate (ncols - S col) (Num 0))
    end.
Proof.
  intros Hcol Hs Hv.
  unfold extract_column, index1, cell, extract_cell, status, column_error,
    window_error.
  destruct (ord_pos !! col) as [p|] eqn:Hp; [|done].
  rewrite bind_Ok. fold nrows.
  destruct (skipped nrows p).
  { by rewrite <- !keep_next. }
  destruct (aperture_window nrows p ap_rad) as [[i0 i1]|e]; [|done].
  rewrite bind_Ok.
  destruct Hshape as [_ Hc]. unfold slice2.
  rewrite !decide_True by (subst ncols; lia).
  destruct uniform; rewrite !bind_Ok; by rewrite !insert_next.
Qed.

Lemma aperture_extract_prefix (n : nat) :
  n ≤ ncols →
  for_range n
    (extract_column frame variance ord_pos ap_rad uniform
       (float_mul ap_rad (Num 2)))
    (replicate ncols (Num 0), replicate ncols (Num 0))
  = match first_error status (seq 0 n) with
    | Some e => Err e
    | None =>
      Ok ((cell frame <$> seq 0 n) ++ replicate (ncols - n) (Num 0),
          (cell variance <$> seq 0 n) ++ replicate (ncols - n) (Num 0))
    end.
Proof.
  induction n as [|n IH]; intros Hn.
  - by rewrite Nat.sub_0_r.
  - rewrite for_range_S, IH by lia.
    rewrite seq_S, first_error_app. cbn [first_error Nat.add].
    destruct (first_error status (seq 0 n)); [done|].
    rewrite bind_Ok.
    rewrite extract_column_eq by (rewrite ?length_fmap, ?length_seq; lia).
    destruct (status n); [done|]. by rewrite !fmap_app.
Qed.

(** [aperture_extract] raises the exception of the first column that has
    one, and returns the cells of all columns when none has. *)
Lemma aperture_extract_outcome :
  aperture_extract frame variance ord_pos ap_rad uniform
  = match first_error status (seq 0 ncols) with
    | Some e => Err e
    | None => Ok (cell frame <$> seq 0 ncols, cell variance <$> seq 0 ncols)
    end.
Proof.
  unfold aperture_extract. fold ncols.
  rewrite aperture_extract_prefix by lia.
  destruct (first_error status (seq 0 ncols)); [done|].
  by rewrite Nat.sub_diag, !app_nil_r.
Qed.

Lemma column_error_None :
  length ord_pos = ncols →
  (first_error status (seq 0 ncols) = None
   ↔ windows_round nrows ord_pos ap_rad).
Proof.
  intros Hord. rewrite first_error_None. unfold windows_round.
  rewrite !Forall_forall. subst status. unfold column_error. split.
  - intros Hall p Hp. apply list_elem_of_lookup in Hp as [col Hcol].
    specialize (Hall col). rewrite Hcol in Hall. apply Hall.
    apply elem_of_seq. apply lookup_lt_Some in Hcol. lia.
  - intros Hall col Hcol. apply elem_of_seq in Hcol as [_ Hcol].
    destruct (ord_pos !! col) as [p|] eqn:Hp.
    + apply Hall. by eapply list_elem_of_lookup_2.
    + apply lookup_ge_None in Hp. lia.
Qed.

Lemma aperture_extract_eq :
  length ord_pos = ncols →
  windows_round nrows ord_pos ap_rad →
  aperture_extract frame variance ord_pos ap_rad uniform
  = Ok (cell frame <$> seq 0 ncols, cell variance <$> seq 0 ncols).
Proof.
  intros Hord Hwin. rewrite aperture_extract_outcome.
  by rewrite (proj2 (column_error_None Hord) Hwin).
Qed.
End extract.

(** ** Claims on [aperture_extract] *)

Lemma windows_round_lookup (nrows : nat) (ord_pos : list npfloat)
    (ap_rad : npfloat) (col : nat) (p : npfloat) :
  windows_round nrows ord_pos ap_rad →
  ord_pos !! col = Some p →
  window_error nrows p ap_rad = None.
Proof.
  unfold windows_round. rewrite Forall_forall. intros Hall Hp.
  apply Hall. by eapply list_elem_of_lookup_2.
Qed.

(** C1. A column whose trace position [p] is inside the frame gets the sum
    (or, for a uniformly lit slit, the mean times the nominal width
    [ap_rad * 2]) of the rows [i0:i1] of the frame and of the variance, where
    [i0 = round(p - ap_rad)] raised to 0 and [i1 = round(p + ap_rad)] lowered
    to [nrows - 1] when it is [nrows] or more, the difference and the sum
    being those of binary64.  This is so whenever no column makes [round]
    raise, and then [aperture_extract] returns. *)
Theorem aperture_extract_in_range (frame variance : array2)
    (ord_pos : list npfloat) (ap_rad : npfloat) (uniform : bool) (col : nat)
    (p : Q) :
  same_shape2 frame variance →
  length ord_pos = shape2_1 frame →
  windows_round (shape2_0 frame) ord_pos ap_rad →
  ord_pos !! col = Some (Num p) →
  (0 <= p)%Q → (p < inject_Z (Z.of_nat (shape2_0 frame)))%Q →
  ∃ spec var r0 r1,
    aperture_extract frame variance ord_pos ap_rad uniform = Ok (spec, var) ∧
    int_round (float_sub (Num p) ap_rad) = Ok r0 ∧
    int_round (float_add (Num p) ap_rad) = Ok r1 ∧
    let nrows := Z.of_nat (shape2_0 frame) in
    let i0 := Z.max r0 0 in
    let i1 := if (r1 >=? nrows)%Z then (nrows - 1)%Z else r1 in
    let fs := py_slice (column2 frame col) i0 i1 in
    let vs := py_slice (column2 variance col) i0 i1 in
    spec !! col
    = Some (if uniform then np_mul (np_mean fs) (float_mul ap_rad (Num 2))
            else Num (np_sum fs)) ∧
    var !! col
    = Some (if uniform then np_mul (np_mean vs) (float_mul ap_rad (Num 2))
            else Num (np_sum vs)).
Proof.
  intros Hshape Hord Hwin Hp H0 H1.
  assert (col < shape2_1 frame) as Hcol
    by (rewrite <- Hord; by eapply lookup_lt_Some).
  assert (skipped (shape2_0 frame) (Num p) = false) as Hs
    by by apply skipped_false.
  pose proof (windows_round_lookup _ _ _ _ _ Hwin Hp) as Hwe.
  destruct (window_error_valid _ _ _ Hs Hwe) as (i0 & i1 & Hw).
  destruct (aperture_window_inv _ _ _ _ _ Hw)
    as (r0 & r1 & Hr0 & Hr1 & -> & ->).
  exists (extract_cell (shape2_0 frame) frame ord_pos ap_rad uniform
            <$> seq 0 (shape2_1 frame)),
    (extract_cell (shape2_0 frame) variance ord_pos ap_rad uniform
       <$> seq 0 (shape2_1 frame)), r0, r1.
  split; [by apply aperture_extract_eq|]. split; [done|]. split; [done|].
  cbv zeta. rewrite !list_lookup_fmap, !lookup_seq_lt by done.
  cbn [fmap option_fmap option_map Nat.add].
  unfold extract_cell. rewrite Hp, Hs, Hw.
  replace (Z.max r0 0) with (Z.max 0 r0) by lia.
  replace (if (r1 >=? Z.of_nat (shape2_0 frame))%Z
           then (Z.of_nat (shape2_0 frame) - 1)%Z else r1)
    with (Z.min r1 (Z.of_nat (shape2_0 frame) - 1))
    by (destruct (Z.geb_spec r1 (Z.of_nat (shape2_0 frame))); lia).
  by destruct uniform.
Qed.

Lemma aperture_extract_in_range_witness :
  ∃ spec var r0 r1,
    aperture_extract (const2 5 3 1) (const2 5 3 1) [Num 2; Num 2; Num 2]
      (Num 1) false
    = Ok (spec, var) ∧
    int_round (float_sub (Num 2) (Num 1)) = Ok r0 ∧
    int_round (float_add (Num 2) (Num 1)) = Ok r1 ∧
    let i0 := Z.max r0 0 in
    let i1 := if (r1 >=? 5)%Z then (5 - 1)%Z else r1 in
    spec !! 1
    = Some (Num (np_sum (py_slice (column2 (const2 5 3 1) 1) i0 i1))) ∧
    var !! 1
    = Some (Num (np_sum (py_slice (column2 (const2 5 3 1) 1) i0 i1))).
Proof.
  apply (aperture_extract_in_range (const2 5 3 1) (const2 5 3 1)
           [Num 2; Num 2; Num 2] (Num 1) false 1 2).
  - split; reflexivity.
  - reflexivity.
  - apply (bool_decide_unpack _). by vm_compute.
  - reflexivity.
  - by vm_compute.
  - by vm_compute.
Defined.

(** The scenario of one frame of five rows and three columns of ones, the
    trace on row 2 and the radius 1: rows 1 and 2 are summed. *)
Example aperture_extract_ones :
  aperture_extract (const2 5 3 1) (const2 5 3 1) [Num 2; Num 2; Num 2]
    (Num 1) false
  = Ok ([Num 2; Num 2; Num 2], [Num 2; Num 2; Num 2]).
Proof. by vm_compute. Qed.

(** The windows of binary64 and those of exact arithmetic differ: ten rows,
    the trace at 0.1 and the radius 0.4 give [0.1 + 0.4 = 0.5] and the empty
    window of rows [0:0], though the two doubles add up to more than a half;
    the trace at 9.7 and the radius 0.2 give [9.7 - 0.2 = 9.5] and
    [i0 = 10]; three rows, the trace at 2.6 and the radius 0.1 give
    [2.6 - 0.1 = 2.5] and [i0 = 2]; the trace at 1 and the radius
    [1/2 - 2^-54] give [0.5] and [1.5], and rows 0 and 1. *)
Example aperture_window_binary64 :
  aperture_window 10 (py_float (1 # 10)) (py_float (4 # 10))
  = Ok (0%Z, 0%Z) ∧
  aperture_window 10 (py_float (97 # 10)) (py_float (2 # 10))
  = Ok (10%Z, 9%Z) ∧
  aperture_window 3 (py_float (26 # 10)) (py_float (1 # 10))
  = Ok (2%Z, 2%Z) ∧
  aperture_window 10 (Num 1) (Num (9007199254740991 # 18014398509481984))
  = Ok (0%Z, 2%Z).
Proof. by vm_compute. Qed.

(** X3. A column whose trace position is outside the frame, an infinity
    included, keeps the zeros both outputs start with, whatever [uniform]
    is.  This is so whenever no other column makes [round] raise, and then
    [aperture_extract] returns. *)
Lemma aperture_extract_out_of_range (frame variance : array2)
    (ord_pos : list npfloat) (ap_rad : npfloat) (uniform : bool) (col : nat)
    (p : npfloat) :
  same_shape2 frame variance →
  length ord_pos = shape2_1 frame →
  windows_round (shape2_0 frame) ord_pos ap_rad →
  ord_pos !! col = Some p →
  float_ltb p (Num 0) = true
  ∨ float_leb (Num (inject_Z (Z.of_nat (shape2_0 frame)))) p = true →
  ∃ spec var,
    aperture_extract frame variance ord_pos ap_rad uniform = Ok (spec, var) ∧
    spec !! col = Some (Num 0) ∧ var !! col = Some (Num 0).
Proof.
  intros Hshape Hord Hwin Hp Hout.
  eexists _, _. split; [by apply aperture_extract_eq|].
  assert (col < shape2_1 frame) as Hcol
    by (rewrite <- Hord; by eapply lookup_lt_Some).
  assert (skipped (shape2_0 frame) p = true) as Hs
    by (unfold skipped; by apply orb_true_iff).
  rewrite !list_lookup_fmap, !lookup_seq_lt by done.
  cbn [fmap option_fmap option_map Nat.add].
  unfold extract_cell. by rewrite Hp, Hs.
Qed.

(** X4. A column whose window is empty after the clamps: the sum is 0, the
    mean is not a number. *)
Lemma aperture_extract_empty_window (frame variance : array2)
    (ord_pos : list npfloat) (ap_rad : npfloat) (uniform : bool) (col : nat)
    (p : npfloat) (i0 i1 : Z) :
  same_shape2 frame variance →
  length ord_pos = shape2_1 frame →
  windows_round (shape2_0 frame) ord_pos ap_rad →
  ord_pos !! col = Some p →
  skipped (shape2_0 frame) p = false →
  aperture_window (shape2_0 frame) p ap_rad = Ok (i0, i1) →
  (0 <= i1 <= i0)%Z →
  ∃ spec var,
    aperture_extract frame variance ord_pos ap_rad uniform = Ok (spec, var) ∧
    spec !! col = Some (if uniform then NaN else Num 0) ∧
    var !! col = Some (if uniform then NaN else Num 0).
Proof.
  intros Hshape Hord Hwin Hp Hs Hw Hi.
  eexists _, _. split; [by apply aperture_extract_eq|].
  assert (col < shape2_1 frame) as Hcol
    by (rewrite <- Hord; by eapply lookup_lt_Some).
  rewrite !list_lookup_fmap, !lookup_seq_lt by done.
  cbn [fmap option_fmap option_map Nat.add].
  unfold extract_cell. rewrite Hp, Hs, Hw.
  assert (∀ l : list Q, py_slice l i0 i1 = []) as Hempty.
  { intros l. unfold py_slice, slice_range, slice_bound.
    destruct (Z.ltb_spec i0 0), (Z.ltb_spec i1 0); try lia.
    replace (Z.to_nat _) with 0 by lia. done. }
  rewrite !Hempty. destruct uniform; [|done].
  cbn [np_mean np_mul]. by destruct (float_mul ap_rad (Num 2)).
Qed.

(** C10. A trace position inside the frame for which the uniform extraction
    gives NaN and the plain sum gives 0: 10 rows, [p = 9.9], [ap_rad = 0.3],
    where [i0 = 10] and [i1] is lowered to 9; and [p = 5], [ap_rad = 0.2],
    where [i0 = i1 = 5]. *)
Theorem aperture_extract_uniform_nan :
  let frame := const2 10 1 1 in
  let p := py_float (99 # 10) in
  let ap_rad := py_float (3 # 10) in
  let ap_rad' := py_float (2 # 10) in
  (skipped 10 p = false ∧
   aperture_window 10 p ap_rad = Ok (10%Z, 9%Z) ∧
   aperture_extract frame frame [p] ap_rad true = Ok ([NaN], [NaN]) ∧
   aperture_extract frame frame [p] ap_rad false = Ok ([Num 0], [Num 0])) ∧
  (skipped 10 (Num 5) = false ∧
   aperture_window 10 (Num 5) ap_rad' = Ok (5%Z, 5%Z) ∧
   aperture_extract frame frame [Num 5] ap_rad' true = Ok ([NaN], [NaN]) ∧
   aperture_extract frame frame [Num 5] ap_rad' false
   = Ok ([Num 0], [Num 0])).
Proof. vm_compute. done. Qed.

(** C5, as the claim has it, fails: 10 rows, radius 2 and [p = 7.8] lie
    strictly inside [[radius, L - radius)], yet [round(9.8) = 10] is lowered
    to 9 and the window is 3 rows wide, not [10 - 6 = 4]. *)
Lemma window_width_clamped_inside :
  ¬ (∀ (nrows : nat) (p radius : Q),
       binary64 p → binary64 radius →
       (radius < p)%Q → (p < inject_Z (Z.of_nat nrows) - radius)%Q →
       ∃ i0 i1 r0 r1,
         aperture_window nrows (Num p) (Num radius) = Ok (i0, i1) ∧
         int_round (float_sub (Num p) (Num radius)) = Ok r0 ∧
         int_round (float_add (Num p) (Num radius)) = Ok r1 ∧
         (i1 - i0 = r1 - r0)%Z).
Proof.
  intros H.
  destruct (H 10 (b64_round (78 # 10)) 2%Q)
    as (i0 & i1 & r0 & r1 & Hw & H0 & H1 & Hwidth).
  - apply b64_round_binary64.
  - by apply (binary64_Z 2).
  - by vm_compute.
  - by vm_compute.
  - vm_compute in Hw, H0, H1.
    injection Hw as <- <-. injection H0 as <-. injection H1 as <-. done.
Qed.

(** The same column in [aperture_extract]: rows 6, 7 and 8 are summed and
    row 9 is left out. *)
Example aperture_extract_near_edge :
  aperture_extract (const2 10 1 1) (const2 10 1 1) [py_float (78 # 10)]
    (Num 2) false
  = Ok ([Num 3], [Num 3]).
Proof. by vm_compute. Qed.

(** A margin of half a pixel below [L - radius] is not enough either: here
    [p + radius < L - 1/2], but the binary64 sum is [9.5], which [round]
    takes to 10, and the clamp lowers it to 9. *)
Example window_width_half_margin :
  let p := (5179139571476069 # 562949953421312)%Q in
  let radius := (337769972052789 # 1125899906842624)%Q in
  (radius <= p)%Q ∧ (p < 10 - radius - (1 # 2))%Q ∧
  int_round (float_sub (Num p) (Num radius)) = Ok 9%Z ∧
  int_round (float_add (Num p) (Num radius)) = Ok 10%Z ∧
  aperture_window 10 (Num p) (Num radius) = Ok (9%Z, 9%Z).
Proof. repeat split; by vm_compute. Qed.

(** C5, amended. For a radius that is not negative and a trace position with
    [radius <= p <= L - 1 - radius], in a frame of at most [2^53] rows, the
    window is [round(p + radius) - round(p - radius)] rows wide, the sum and
    the difference being those of binary64: neither clamp changes a bound. *)
Theorem window_width_unclamped (nrows : nat) (p radius : Q) :
  (Z.of_nat nrows <= 2 ^ 53)%Z →
  (0 <= radius)%Q →
  (radius <= p)%Q →
  (p <= inject_Z (Z.of_nat nrows) - 1 - radius)%Q →
  ∃ i0 i1 r0 r1,
    aperture_window nrows (Num p) (Num radius) = Ok (i0, i1) ∧
    int_round (float_sub (Num p) (Num radius)) = Ok r0 ∧
    int_round (float_add (Num p) (Num radius)) = Ok r1 ∧
    i0 = r0 ∧ i1 = r1 ∧ (i1 - i0 = r1 - r0)%Z.
Proof.
  intros Hn Hr Hlo Hhi.
  pose proof (Qle_pow2_53 _ Hn) as HN.
  assert (2 ^ 53 + 2 ^ 53 <= 2 ^ 1023)%Q as Hbig by by vm_compute.
  pose proof (Qabs_pos radius Hr) as Habs.
  destruct (aperture_window_finite nrows p radius)
    as (Hsub & Hadd & Hw); [lra..|].
  assert (0 <= py_round (b64_round (p - radius)))%Z as H0.
  { apply (py_round_b64_ge _ 0); [done|]. change (inject_Z 0) with 0%Q. lra. }
  assert (py_round (b64_round (p + radius)) <= Z.of_nat nrows - 1)%Z as H1.
  { apply py_round_b64_le; [lia|]. rewrite inject_Z_pred. lra. }
  eexists _, _, _, _. split; [exact Hw|]. rewrite Hsub, Hadd.
  split; [done|]. split; [done|]. lia.
Qed.

Lemma window_width_unclamped_witness :
  ∃ i0 i1 r0 r1,
    aperture_window 10 (Num (15 # 2)) (Num (3 # 2)) = Ok (i0, i1) ∧
    int_round (float_sub (Num (15 # 2)) (Num (3 # 2))) = Ok r0 ∧
    int_round (float_add (Num (15 # 2)) (Num (3 # 2))) = Ok r1 ∧
    i0 = r0 ∧ i1 = r1 ∧ (i1 - i0 = r1 - r0)%Z.
Proof.
  apply (window_width_unclamped 10 (15 # 2) (3 # 2)); by vm_compute.
Defined.

(** ** Slices *)

Lemma slice_range_inside (len : nat) (i0 i1 : Z) :
  (0 <= i0 <= i1)%Z → (i1 <= Z.of_nat len)%Z →
  slice_range len i0 i1 = (Z.to_nat i0, Z.to_nat (i1 - i0)).
Proof.
  intros H0 H1. unfold slice_range, slice_bound.
  destruct (Z.ltb_spec i0 0), (Z.ltb_spec i1 0); try lia.
  f_equal; lia.
Qed.

Lemma py_slice_middle {A : Type} (l1 l l2 : list A) :
  py_slice (l1 ++ l ++ l2) (Z.of_nat (length l1))
    (Z.of_nat (length l1) + Z.of_nat (length l))
  = l.
Proof.
  unfold py_slice.
  rewrite slice_range_inside by (rewrite ?length_app; lia).
  replace (Z.to_nat (_ - _)) with (length l) by lia.
  by rewrite Nat2Z.id, drop_app_length, take_app_length.
Qed.

Lemma take_drop_fmap_seq {A : Type} (g : nat → A) (len a n : nat) :
  a + n ≤ len →
  take n (drop a (g <$> seq 0 len)) = (λ k, g (a + k)) <$> seq 0 n.
Proof.
  intros Hle. rewrite <- fmap_drop, <- fmap_take, drop_seq, take_seq.
  replace (n `min` (len - a)) with n by lia.
  replace (0 + a) with (a + 0) by lia.
  by rewrite <- fmap_add_seq, <- list_fmap_compose.
Qed.

Lemma py_slice_column3 (a : array3) (k col : nat) (i0 i1 : Z) :
  (0 <= i0 <= i1)%Z → (i1 <= Z.of_nat (shape3_1 a))%Z →
  py_slice (column3 a k col) i0 i1
  = (λ r, at3 a k (Z.to_nat i0 + r) col) <$> seq 0 (Z.to_nat (i1 - i0)).
Proof.
  intros H0 H1. unfold py_slice, column3.
  rewrite length_fmap, length_seq, slice_range_inside by done.
  apply take_drop_fmap_seq. lia.
Qed.

Lemma assign_col_same (set : Q → sample → sample) (arr : list sample)
    (vals : list Q) :
  length vals = length arr →
  assign_col set arr vals = Ok (zip_with set vals arr).
Proof. intros Hlen. unfold assign_col. by rewrite decide_True. Qed.

Lemma col_array_fmap (f0 f1 f2 : nat → Q) (c : Q) (l : list nat) :
  zip_with set_col (replicate (length l) c)
    (zip_with set_var (f2 <$> l)
       (zip_with set_flux (f1 <$> l)
          (zip_with set_off (f0 <$> l) (replicate (length l) zero_sample))))
  = (λ k, Sample (f0 k) (f1 k) (f2 k) c) <$> l.
Proof. induction l as [|k l IH]; [done|]. simpl. f_equal. exact IH. Qed.

(** ** [materialise] *)

Lemma for_each_cons {A S : Type} (x : A) (l : list A)
    (body : A → S → result S) (s : S) :
  for_each (x :: l) body s = body x s ≫= for_each l body.
Proof. by rewrite (for_each_app [x] l). Qed.

Lemma assign_slice_rows_next (done rows : list sample) (rest : nat) :
  assign_slice_rows (done ++ replicate (length rows + rest) zero_sample)
    (Z.of_nat (length done)) (Z.of_nat (length done + length rows)) rows
  = Ok ((done ++ rows) ++ replicate rest zero_sample).
Proof.
  unfold assign_slice_rows.
  rewrite slice_range_inside
    by (rewrite ?length_app, ?length_replicate; lia).
  replace (Z.to_nat (_ - _)) with (length rows) by lia.
  rewrite Nat2Z.id, decide_True by done.
  rewrite take_app_length, drop_app_add', replicate_add by done.
  by rewrite drop_app_length', <- app_assoc by by rewrite length_replicate.
Qed.

Lemma materialise_loop (todo : list (list sample)) (done : list sample) :
  for_each todo
    (λ p '(pix_array, entry),
       let N := length p in
       pix_array ← assign_slice_rows pix_array (Z.of_nat entry)
                     (Z.of_nat (entry + N)) p;
       Ok (pix_array, entry + N))
    (done ++ replicate (sum_list (length <$> todo)) zero_sample, length done)
  = Ok (done ++ concat todo, length (done ++ concat todo)).
Proof.
  revert done. induction todo as [|p todo IH]; intros done.
  - rewrite for_each_nil. simpl. by rewrite !app_nil_r.
  - rewrite for_each_cons. simpl.
    rewrite assign_slice_rows_next, !bind_Ok.
    replace (length done + length p) with (length (done ++ p))
      by by rewrite length_app.
    by rewrite IH, <- app_assoc.
Qed.

Lemma materialise_eq (pix_list : list (list sample)) :
  pix_list ≠ [] → materialise pix_list = Ok (concat pix_list).
Proof.
  intros Hne. unfold materialise.
  destruct pix_list as [|p l]; [done|].
  match goal with
  | |- ?m ≫= _ = _ =>
    replace m with (Ok (concat (p :: l), length (concat (p :: l))));
      [done | symmetry; apply (materialise_loop (p :: l) [])]
  end.
Qed.

(** ** The order of a nested loop *)

Lemma pairs_S (n m : nat) :
  pairs (S n) m = pairs n m ++ ((λ c, (n, c)) <$> seq 0 m).
Proof.
  unfold pairs. rewrite seq_S, bind_app. simpl. by rewrite app_nil_r.
Qed.

Lemma length_pairs (n m : nat) : length (pairs n m) = n * m.
Proof.
  induction n as [|n IH]; [done|].
  rewrite pairs_S, length_app, IH, length_fmap, length_seq. lia.
Qed.

Lemma pairs_lookup (n m i c : nat) :
  i < n → c < m → pairs n m !! (i * m + c) = Some (i, c).
Proof.
  induction n as [|n IH]; intros Hi Hc; [lia|].
  rewrite pairs_S. destruct (decide (i = n)) as [->|Hne].
  - rewrite lookup_app_r by (rewrite length_pairs; lia).
    rewrite length_pairs, list_lookup_fmap.
    replace (n * m + c - n * m) with c by lia.
    by rewrite lookup_seq_lt.
  - rewrite lookup_app_l by (rewrite length_pairs; nia).
    apply IH; lia.
Qed.

Lemma pairs_lookup_inv (n m k i c : nat) :
  pairs n m !! k = Some (i, c) → k = i * m + c ∧ i < n ∧ c < m.
Proof.
  induction n as [|n IH]; [done|].
  rewrite pairs_S. destruct (decide (k < n * m)) as [Hlt|Hge].
  - rewrite lookup_app_l by by rewrite length_pairs.
    intros H. apply IH in H. lia.
  - rewrite lookup_app_r by (rewrite length_pairs; lia).
    rewrite length_pairs, list_lookup_fmap.
    destruct (seq 0 m !! (k - n * m)) as [c'|] eqn:Hseq; [|done].
    apply lookup_seq in Hseq as [-> Hlt]. intros [= <- <-]. lia.
Qed.

Lemma elem_of_pairs (n m i c : nat) : (i, c) ∈ pairs n m ↔ i < n ∧ c < m.
Proof.
  rewrite list_elem_of_lookup. split.
  - intros [k Hk]. apply pairs_lookup_inv in Hk. tauto.
  - intros [Hi Hc]. eexists. by apply pairs_lookup.
Qed.

Lemma cells_from_snoc (cur n : Z) (counts : list Z) :
  cells_from cur (counts ++ [n])
  = cells_from cur counts ++ [((cur + sumZ counts)%Z, n)].
Proof.
  revert cur. induction counts as [|x counts IH]; intros cur; simpl.
  - by rewrite Z.add_0_r.
  - by rewrite IH, Z.add_assoc.
Qed.

Lemma length_cells_from (cur : Z) (counts : list Z) :
  length (cells_from cur counts) = length counts.
Proof.
  revert cur. induction counts as [|x counts IH]; intros cur; simpl; [done|].
  by rewrite IH.
Qed.

Lemma sumZ_app (l k : list Z) : sumZ (l ++ k) = (sumZ l + sumZ k)%Z.
Proof. induction l as [|x l IH]; simpl; lia. Qed.

(** ** [flux_coo] in closed form *)

Section collect.
Variables (frame variance : array3) (ord_pos : array2_of npfloat)
  (ap_rad : npfloat).
Hypothesis Hshape : same_shape3 frame variance.
Hypothesis Hord : trace_shape frame ord_pos.

Let nints := shape3_0 frame.
Let nrows := shape3_1 frame.
Let ncols := shape3_2 frame.
Let count := count_at frame ord_pos ap_rad.
Let run := run_at frame variance ord_pos ap_rad.
Let valid := valid_at frame ord_pos.
Let status := collect_error frame ord_pos ap_rad.

Lemma collect_column_eq (i c : nat) (done rest : list (Z * Z))
    (pix_list : list (list sample)) (cur : Z) :
  i < nints → c < ncols → length done = i * ncols + c →
  collect_column frame variance ord_pos ap_rad i c
    (Table nints ncols (done ++ (0%Z, 0%Z) :: rest), pix_list, cur)
  = match status (i, c) with
    | Some e => Err e
    | None =>
      Ok (Table nints ncols (done ++ (cur, count (i, c)) :: rest),
          pix_list ++ (run_at frame variance ord_pos ap_rad
                         <$> filter valid [(i, c)]),
          (cur + count (i, c))%Z)
    end.
Proof.
  intros Hi Hc Hlen.
  destruct Hshape as (Hs0 & Hs1 & Hs2), Hord as (Ho0 & Ho1).
  unfold collect_column, table_set0, table_set1, status, collect_error,
    window_error, inverted_at, count, count_at.
  cbn [tshape_0 tshape_1 cells fst snd].
  replace (i * ncols + c) with (length done + 0) by lia.
  rewrite !alter_app_r. cbn [alter list_alter fst snd].
  unfold index2. rewrite decide_True by (subst nints ncols; lia).
  rewrite bind_Ok, filter_cons, filter_nil. fold nrows.
  destruct (decide (valid (i, c))) as [Hv|Hv];
    unfold valid, valid_at in Hv; cbn [fst snd] in Hv; fold nrows in Hv.
  2:{ apply not_false_iff_true in Hv. rewrite Hv. cbn [fmap list_fmap].
      by rewrite Z.add_0_r, app_nil_r. }
  rewrite Hv.
  destruct (aperture_window nrows (at2 ord_pos i c) ap_rad)
    as [[i0 i1]|e] eqn:Hw; [|done].
  rewrite bind_Ok.
  pose proof (aperture_window_bounds _ _ _ _ _ Hw) as [Hi0 Hi1].
  unfold np_zeros4. destruct (Z.ltb_spec (i1 - i0) 0) as [Hneg|Hpos];
    [done|].
  rewrite bind_Ok, assign_col_same
    by (unfold py_range; by rewrite length_fmap, length_seqZ,
          length_replicate).
  unfold slice3.
  rewrite !decide_True by (subst nints ncols; lia).
  rewrite !py_slice_column3 by (subst nrows; lia).
  rewrite !bind_Ok, assign_col_same
    by (unfold py_range;
        by rewrite length_zip_with, !length_fmap, length_seq,
          length_seqZ, length_replicate, Nat.min_id).
  rewrite !bind_Ok, assign_col_same
    by (unfold py_range;
        rewrite !length_zip_with, !length_fmap, !length_seq,
          length_seqZ, length_replicate; lia).
  rewrite !bind_Ok, assign_col_same
    by (unfold py_range;
        rewrite !length_zip_with, !length_fmap, !length_seq,
          length_seqZ, !length_replicate; lia).
  rewrite !bind_Ok, alter_app_r. cbn [alter list_alter fst snd].
  do 3 f_equal. change (run_at frame variance ord_pos ap_rad <$> [(i, c)])
    with [run_at frame variance ord_pos ap_rad (i, c)]. f_equal.
  unfold run_at, py_range, seqZ. cbn [fst snd]. fold nrows.
  rewrite Hv, Hw, <- list_fmap_compose.
  pose proof (col_array_fmap
    (λ k, row_offset (Z.of_nat k + i0) (at2 ord_pos i c))
    (λ k, at3 frame i (Z.to_nat i0 + k) c)
    (λ k, at3 variance i (Z.to_nat i0 + k) c)
    (1 * inject_Z (Z.of_nat c))%Q
    (seq 0 (Z.to_nat (i1 - i0)))) as Hcol.
  rewrite length_seq in Hcol. f_equal. exact Hcol.
Qed.
Lemma collect_prefix (ps todo : list (nat * nat)) :
  pairs nints ncols = ps ++ todo →
  for_each ps
    (λ ic, collect_column frame variance ord_pos ap_rad ic.1 ic.2)
    (table_zeros nints ncols, [], 0%Z)
  = match first_error status ps with
    | Some e => Err e
    | None =>
      Ok (Table nints ncols
            (cells_from 0 (count <$> ps)
               ++ replicate (length todo) (0%Z, 0%Z)),
          run <$> filter valid ps,
          sumZ (count <$> ps))
    end.
Proof.
  revert todo.
  induction ps as [|[i c] ps IH] using rev_ind; intros todo Hps.
  - rewrite for_each_nil. simpl. unfold table_zeros.
    by rewrite <- (length_pairs nints ncols), Hps.
  - rewrite <- app_assoc in Hps. simpl in Hps.
    rewrite for_each_snoc, (IH _ Hps), first_error_app.
    destruct (first_error status ps); [done|].
    rewrite bind_Ok. cbn [fst snd length replicate first_error].
    pose proof (list_lookup_middle ps todo (i, c) _ eq_refl) as Hic.
    rewrite <- Hps in Hic. apply pairs_lookup_inv in Hic as (Hk & Hi & Hc).
    rewrite collect_column_eq
      by (rewrite ?length_cells_from, ?length_fmap; done).
    destruct (status (i, c)); [done|].
    rewrite filter_app, !fmap_app.
    change (count <$> [(i, c)]) with [count (i, c)].
    rewrite cells_from_snoc, sumZ_app. cbn [sumZ foldr].
    by rewrite <- app_assoc, Z.add_0_r, Z.add_0_l.
Qed.

Lemma concat_runs_valid (ps : list (nat * nat)) :
  concat (run <$> filter valid ps) = concat (run <$> ps).
Proof.
  induction ps as [|ic ps IH]; [done|].
  rewrite filter_cons. destruct (decide (valid ic)) as [Hv|Hv].
  - by rewrite !fmap_cons, !concat_cons, IH.
  - rewrite fmap_cons, concat_cons, IH. apply not_false_iff_true in Hv.
    unfold run at 2. unfold run_at. by rewrite Hv.
Qed.

Lemma flux_coo_eq :
  flux_coo frame variance ord_pos ap_rad
  = flux_coo_closed frame variance ord_pos ap_rad.
Proof.
  unfold flux_coo, flux_coo_closed. fold nints ncols.
  rewrite for_range_nested.
  rewrite (collect_prefix (pairs nints ncols) []) by by rewrite app_nil_r.
  fold status. destruct (first_error status (pairs nints ncols)); [done|].
  rewrite bind_Ok, app_nil_r. fold valid.
  destruct (filter valid (pairs nints ncols)) as [|ic l] eqn:Hf; [done|].
  rewrite materialise_eq by done.
  by rewrite <- Hf, concat_runs_valid.
Qed.
End collect.

(** ** The index table and the flat list *)

Lemma one_mul_inject_Z (z : Z) : (1 * inject_Z z)%Q = inject_Z z.
Proof. unfold Qmult, inject_Z. simpl. f_equal. by destruct z. Qed.

Lemma snd_cells_from (cur : Z) (counts : list Z) :
  snd <$> cells_from cur counts = counts.
Proof.
  revert cur. induction counts as [|n counts IH]; intros cur; [done|].
  simpl. by rewrite IH.
Qed.

Lemma cells_from_lookup (cur n : Z) (counts : list Z) (k : nat) :
  counts !! k = Some n →
  cells_from cur counts !! k = Some ((cur + sumZ (take k counts))%Z, n).
Proof.
  revert cur k. induction counts as [|x counts IH]; intros cur k Hk; [done|].
  destruct k as [|k]; simpl in *.
  - injection Hk as ->. by rewrite Z.add_0_r.
  - rewrite (IH _ _ Hk). by rewrite Z.add_assoc.
Qed.

Lemma sumZ_nonneg (l : list Z) : Forall (λ n, (0 <= n)%Z) l → (0 <= sumZ l)%Z.
Proof. induction 1; simpl in *; lia. Qed.

Lemma sumZ_take_mono (l : list Z) (j k : nat) :
  Forall (λ n, (0 <= n)%Z) l → j ≤ k →
  (sumZ (take j l) <= sumZ (take k l))%Z.
Proof.
  intros Hl. revert j k.
  induction Hl as [|x l Hx Hl IH]; intros j k Hjk.
  - by rewrite !take_nil.
  - destruct j as [|j].
    + apply sumZ_nonneg, Forall_take. by constructor.
    + destruct k as [|k]; [lia|]. simpl.
      specialize (IH j k). lia.
Qed.

Section collect_props.
Variables (frame variance : array3) (ord_pos : array2_of npfloat)
  (ap_rad : npfloat).

Let nints := shape3_0 frame.
Let nrows := shape3_1 frame.
Let ncols := shape3_2 frame.
Let count := count_at frame ord_pos ap_rad.
Let run := run_at frame variance ord_pos ap_rad.
Let valid := valid_at frame ord_pos.

Lemma length_run (ic : nat * nat) :
  length (run ic) = Z.to_nat (count ic).
Proof.
  unfold run, run_at, count, count_at.
  destruct (skipped _ _); [done|].
  destruct (aperture_window _ _ _) as [[i0 i1]|e]; [|done].
  by rewrite length_fmap, length_seq.
Qed.

Lemma length_concat_runs (ps : list (nat * nat)) :
  Forall (λ ic, (0 <= count ic)%Z) ps →
  Z.of_nat (length (concat (run <$> ps))) = sumZ (count <$> ps).
Proof.
  induction 1 as [|ic ps Hic _ IH]; [done|].
  rewrite !fmap_cons, concat_cons, length_app, length_run. simpl. lia.
Qed.

Lemma flux_coo_returns :
  flux_coo_pre frame variance ord_pos ap_rad →
  flux_coo frame variance ord_pos ap_rad
  = Ok (concat (run <$> pairs nints ncols),
        Table nints ncols (cells_from 0 (count <$> pairs nints ncols))).
Proof.
  intros (Hshape & Hord & Hround & Hsome & Hall).
  rewrite flux_coo_eq by done. unfold flux_coo_closed. fold nints ncols.
  rewrite (proj2 (first_error_None _ _)).
  2:{ rewrite Forall_forall in Hround, Hall. apply Forall_forall.
      intros ic Hin. unfold collect_error.
      rewrite (Hround ic Hin). unfold inverted_at.
      specialize (Hall ic Hin).
      by destruct (Z.ltb_spec (count_at frame ord_pos ap_rad ic) 0);
        [lia|]. }
  destruct (filter _ _) as [|ic l] eqn:Hf; [|done].
  apply Exists_exists in Hsome as (ic & Hin & Hv).
  assert (ic ∈ filter (valid_at frame ord_pos) (pairs nints ncols)) as Hic
    by by apply list_elem_of_filter.
  rewrite Hf in Hic. by apply not_elem_of_nil in Hic.
Qed.
Lemma table_get_closed (i c : nat) :
  i < nints → c < ncols →
  table_get (Table nints ncols (cells_from 0 (count <$> pairs nints ncols)))
    i c
  = Ok (sumZ (take (i * ncols + c) (count <$> pairs nints ncols)),
        count (i, c)).
Proof.
  intros Hi Hc. unfold table_get, index1. cbn [tshape_0 tshape_1 cells].
  rewrite decide_True by done.
  erewrite cells_from_lookup; [done|].
  by rewrite list_lookup_fmap, pairs_lookup.
Qed.




Lemma run_slice (i c : nat) :
  Forall (λ ic, (0 <= count ic)%Z) (pairs nints ncols) →
  i < nints → c < ncols →
  let start := sumZ (take (i * ncols + c) (count <$> pairs nints ncols)) in
  py_slice (concat (run <$> pairs nints ncols)) start
    (start + count (i, c))
  = run (i, c).
Proof.
  intros Hall Hi Hc start.
  pose proof (pairs_lookup nints ncols i c Hi Hc) as Hic.
  assert (0 <= count (i, c))%Z as Hcount.
  { rewrite Forall_forall in Hall. apply Hall.
    by eapply list_elem_of_lookup_2. }
  rewrite <- (take_drop_middle _ _ _ Hic) at 1.
  rewrite fmap_app, concat_app, fmap_cons, concat_cons.
  subst start. rewrite <- fmap_take, <- length_concat_runs
    by by apply Forall_take.
  replace (count (i, c)) with (Z.of_nat (length (run (i, c))))
    by (rewrite length_run; lia).
  apply py_slice_middle.
Qed.

Lemma run_col (ic : nat * nat) :
  Forall (λ s, s_col s = inject_Z (Z.of_nat ic.2)) (run ic).
Proof.
  unfold run, run_at. destruct (skipped _ _); [done|].
  destruct (aperture_window _ _ _) as [[i0 i1]|e]; [|done].
  apply Forall_fmap, Forall_forall.
  intros k _. simpl. apply one_mul_inject_Z.
Qed.

(** No trace position inside the frame: the list of arrays stays empty
    and its total length is not an integer. *)
Lemma flux_coo_all_skipped :
  same_shape3 frame variance → trace_shape frame ord_pos →
  Forall (λ ic, ¬ valid ic) (pairs nints ncols) →
  flux_coo frame variance ord_pos ap_rad = Err TypeError.
Proof.
  intros Hshape Hord Hall.
  rewrite flux_coo_eq by done. unfold flux_coo_closed. fold nints ncols.
  rewrite (proj2 (first_error_None _ _)).
  2:{ rewrite Forall_forall in Hall. apply Forall_forall.
      intros ic Hin. specialize (Hall _ Hin).
      apply not_false_iff_true in Hall.
      unfold collect_error, window_error, inverted_at, count_at.
      by rewrite Hall. }
  destruct (filter _ _) as [|ic l] eqn:Hf; [done|].
  assert (ic ∈ filter (valid_at frame ord_pos) (pairs nints ncols)) as Hic
    by (rewrite Hf; apply list_elem_of_here).
  apply list_elem_of_filter in Hic as [Hv Hin].
  rewrite Forall_forall in Hall. by apply Hall in Hin.
Qed.
(** [flux_coo] returns on no other input of matching shapes. *)
Lemma flux_coo_Ok_inv (res : list sample * table) :
  same_shape3 frame variance → trace_shape frame ord_pos →
  flux_coo frame variance ord_pos ap_rad = Ok res →
  flux_coo_pre frame variance ord_pos ap_rad.
Proof.
  intros Hshape Hord.
  rewrite flux_coo_eq by done. unfold flux_coo_closed. fold nints ncols.
  destruct (first_error _ _) eqn:Herr; [done|].
  destruct (filter _ _) as [|ic l] eqn:Hf; [done|]. intros _.
  rewrite first_error_None, Forall_forall in Herr.
  split; [done|]. split; [done|]. fold nints ncols. split; [|split].
  - apply Forall_forall. intros ic' Hin. specialize (Herr ic' Hin).
    unfold collect_error in Herr. unfold rounds_at.
    by destruct (window_error _ _ _).
  - apply Exists_exists. exists ic.
    assert (ic ∈ filter (valid_at frame ord_pos) (pairs nints ncols)) as Hic
      by (rewrite Hf; apply list_elem_of_here).
    apply list_elem_of_filter in Hic. tauto.
  - apply Forall_forall. intros ic' Hin. specialize (Herr ic' Hin).
    unfold collect_error, inverted_at in Herr.
    destruct (window_error _ _ _); [done|].
    by destruct (Z.ltb_spec (count_at frame ord_pos ap_rad ic') 0).
Qed.
End collect_props.

(** ** Claims on [flux_coo] *)



(** C7. In the table [flux_coo] returns, the starts do not decrease from a
    column to a later column of the same integration, and the slice
    [[start, start + count)] of the flat list holds [count] samples, all of
    them with the column of the pair in their fourth field.  This is so on
    every input on which [flux_coo] returns. *)
Theorem flux_coo_index_table (frame variance : array3)
    (ord_pos : array2_of npfloat) (ap_rad : npfloat) :
  flux_coo_pre frame variance ord_pos ap_rad →
  ∃ pix_array col_array_pos,
    flux_coo frame variance ord_pos ap_rad = Ok (pix_array, col_array_pos) ∧
    ∀ integration col,
      integration < shape3_0 frame → col < shape3_2 frame →
      ∃ start count,
        table_get col_array_pos integration col = Ok (start, count) ∧
        (∀ col' start' count',
           col ≤ col' → col' < shape3_2 frame →
           table_get col_array_pos integration col' = Ok (start', count') →
           (start <= start')%Z) ∧
        length (py_slice pix_array start (start + count)) = Z.to_nat count ∧
        Forall (λ s, s_col s = inject_Z (Z.of_nat col))
          (py_slice pix_array start (start + count)).
Proof.
  intros Hpre. pose proof Hpre as (Hshape & Hord & Hround & Hsome & Hall).
  eexists _, _. split; [by apply flux_coo_returns|].
  intros i c Hi Hc. eexists _, _.
  split; [by apply table_get_closed|]. split; [|split].
  - intros c' start' count' Hcc' Hc'. rewrite table_get_closed by done.
    intros [= <- _]. apply sumZ_take_mono; [|nia].
    by apply Forall_fmap.
  - rewrite run_slice by done. apply length_run.
  - rewrite run_slice by done. apply (run_col _ _ _ _ (i, c)).
Qed.

Lemma flux_coo_index_table_witness :
  ∃ pix_array col_array_pos,
    flux_coo (const3 2 5 3 1) (const3 2 5 3 1) (const_trace 2 3 (Num 2))
      (Num 1)
    = Ok (pix_array, col_array_pos) ∧
    ∀ integration col,
      integration < 2 → col < 3 →
      ∃ start count,
        table_get col_array_pos integration col = Ok (start, count) ∧
        (∀ col' start' count',
           col ≤ col' → col' < 3 →
           table_get col_array_pos integration col' = Ok (start', count') →
           (start <= start')%Z) ∧
        length (py_slice pix_array start (start + count)) = Z.to_nat count ∧
        Forall (λ s, s_col s = inject_Z (Z.of_nat col))
          (py_slice pix_array start (start + count)).
Proof.
  apply (flux_coo_index_table (const3 2 5 3 1) (const3 2 5 3 1)
           (const_trace 2 3 (Num 2)) (Num 1)).
  split; [done|]. split; [done|]. split; [|split].
  - apply (bool_decide_unpack _). by vm_compute.
  - apply (bool_decide_unpack _). by vm_compute.
  - apply (bool_decide_unpack _). by vm_compute.
Defined.

(** C9. Ten rows, the trace at 9.9 (inside the frame) and the radius 0.3:
    [i0 = round(9.6) = 10], [i1 = round(10.2) = 10] is lowered to 9, the
    length [i1 - i0 = -1] is refused by [np.zeros], and [flux_coo] raises. *)
Theorem flux_coo_inverted_window_raises :
  let frame := const3 1 10 1 1 in
  let ord_pos := const_trace 1 1 (py_float (99 # 10)) in
  let ap_rad := py_float (3 # 10) in
  same_shape3 frame frame ∧ trace_shape frame ord_pos ∧
  Forall (valid_at frame ord_pos) (pairs 1 1) ∧
  aperture_window 10 (py_float (99 # 10)) ap_rad = Ok (10%Z, 9%Z) ∧
  np_zeros4 (9 - 10) = Err ValueError ∧
  flux_coo frame frame ord_pos ap_rad = Err ValueError.
Proof.
  repeat split; try by vm_compute.
  apply (bool_decide_unpack _). by vm_compute.
Qed.

(** C4 fails on [flux_coo] when no trace position at all is inside the
    frame: one integration, two rows, one column, the trace at -1.  The
    column is skipped; [aperture_extract] on the same frame returns zeros,
    and [flux_coo] raises at [np.zeros((0.0, 4))]. *)
Theorem flux_coo_out_of_range_raises :
  let frame := const3 1 2 1 1 in
  let ord_pos := const_trace 1 1 (Num (-1)) in
  same_shape3 frame frame ∧ trace_shape frame ord_pos ∧
  skipped 2 (Num (-1)) = true ∧
  aperture_extract (const2 2 1 1) (const2 2 1 1) [Num (-1)] (Num 1) false
  = Ok ([Num 0], [Num 0]) ∧
  aperture_extract (const2 2 1 1) (const2 2 1 1) [Num (-1)] (Num 1) true
  = Ok ([Num 0], [Num 0]) ∧
  flux_coo frame frame ord_pos (Num 1) = Err TypeError.
Proof. repeat split; by vm_compute. Qed.

(** C6 fails when every trace position is outside the frame: two
    integrations, three rows, two columns, every trace at row 3.  No empty
    flat list comes back: [flux_coo] raises at [np.zeros((0.0, 4))]. *)
Theorem flux_coo_all_invalid_raises :
  let frame := const3 2 3 2 1 in
  let ord_pos := const_trace 2 2 (Num 3) in
  same_shape3 frame frame ∧ trace_shape frame ord_pos ∧
  Forall (λ ic, ¬ valid_at frame ord_pos ic) (pairs 2 2) ∧
  flux_coo frame frame ord_pos (Num 1) = Err TypeError.
Proof.
  assert (Forall (λ ic, ¬ valid_at (const3 2 3 2 1)
                          (const_trace 2 2 (Num 3)) ic)
            (pairs 2 2)) as Hall
    by (apply (bool_decide_unpack _); by vm_compute).
  split; [done|]. split; [done|]. split; [exact Hall|].
  by apply flux_coo_all_skipped.
Qed.

(** X11. Whenever [flux_coo] returns, the flat list is as long as the counts
    of the table add up to, one run after the other. *)
Lemma flux_coo_length (frame variance : array3)
    (ord_pos : array2_of npfloat) (ap_rad : npfloat)
    (pix_array : list sample) (col_array_pos : table) :
  same_shape3 frame variance → trace_shape frame ord_pos →
  flux_coo frame variance ord_pos ap_rad = Ok (pix_array, col_array_pos) →
  Z.of_nat (length pix_array) = sumZ (snd <$> cells col_array_pos).
Proof.
  intros Hshape Hord Hflux.
  pose proof (flux_coo_Ok_inv _ _ _ _ _ Hshape Hord Hflux) as Hpre.
  pose proof Hpre as (_ & _ & _ & _ & Hall).
  rewrite flux_coo_returns in Hflux by done. injection Hflux as <- <-.
  cbn [cells]. rewrite snd_cells_from. by apply length_concat_runs.
Qed.

(** ** [norm_flux_coo] on one run after the other *)

Lemma assign_slice_col_middle (set : Q → sample → sample)
    (l1 l l2 : list sample) (vals : list Q) :
  length vals = length l →
  assign_slice_col set (l1 ++ l ++ l2) (Z.of_nat (length l1))
    (Z.of_nat (length l1) + Z.of_nat (length l)) vals
  = Ok (l1 ++ zip_with set vals l ++ l2).
Proof.
  intros Hlen. unfold assign_slice_col.
  rewrite slice_range_inside by (rewrite ?length_app; lia).
  replace (Z.to_nat (_ - _)) with (length l) by lia.
  rewrite Nat2Z.id, drop_app_length, !take_app_length.
  rewrite assign_col_same, bind_Ok by done.
  replace (l1 ++ l ++ l2) with ((l1 ++ l) ++ l2) by by rewrite app_assoc.
  by rewrite drop_app_length' by (rewrite length_app; lia).
Qed.

Lemma assign_slice_col_run (set : Q → sample → sample)
    (l1 l l2 : list sample) (vals : list Q) (i0 i1 : Z) :
  i0 = Z.of_nat (length l1) → i1 = (i0 + Z.of_nat (length l))%Z →
  length vals = length l →
  assign_slice_col set (l1 ++ l ++ l2) i0 i1 vals
  = Ok (l1 ++ zip_with set vals l ++ l2).
Proof. intros -> ->. apply assign_slice_col_middle. Qed.

Lemma scale_zip (norm_sum : Q) (l : list sample) :
  zip_with set_var ((λ x, x / norm_sum ^ 2)%Q <$> (s_var <$> l))
    (zip_with set_flux ((λ x, x / norm_sum)%Q <$> (s_flux <$> l)) l)
  = scale norm_sum <$> l.
Proof. induction l as [|s l IH]; [done|]. simpl. f_equal. exact IH. Qed.

Lemma table_get_cells_from (n m i c : nat) (counts : list Z) (count : Z) :
  i < n → c < m → counts !! (i * m + c) = Some count →
  table_get (Table n m (cells_from 0 counts)) i c
  = Ok (sumZ (take (i * m + c) counts), count).
Proof.
  intros Hi Hc Hk. unfold table_get, index1. cbn [tshape_0 tshape_1 cells].
  rewrite decide_True by done. by erewrite cells_from_lookup.
Qed.

Lemma sumZ_lengths {A B : Type} (f : B → list A) (l : list B) :
  sumZ ((λ x, Z.of_nat (length (f x))) <$> l)
  = Z.of_nat (length (concat (f <$> l))).
Proof.
  induction l as [|x l IH]; [done|].
  rewrite !fmap_cons, concat_cons, length_app. simpl. lia.
Qed.

Section norm.
Variables (n m : nat) (rs : nat * nat → list sample) (spec : option array2).
Variables (h0 : heap) (pix_array norm_array : nat).
Hypothesis Hspec : spec_shape n m spec.
Hypothesis Hne : norm_array ≠ pix_array.

Let pix := concat (rs <$> pairs n m).
Let counts := (λ ic, Z.of_nat (length (rs ic))) <$> pairs n m.
Let tab := Table n m (cells_from 0 counts).
Let nrun (ic : nat * nat) := scale (norm_of spec ic.1 ic.2 (rs ic)) <$> rs ic.

Hypothesis Hpix : h0 !! pix_array = Some pix.

Lemma length_nruns (ps : list (nat * nat)) :
  length (concat (nrun <$> ps)) = length (concat (rs <$> ps)).
Proof.
  induction ps as [|ic ps IH]; [done|].
  rewrite !fmap_cons, !concat_cons, !length_app, IH.
  unfold nrun. by rewrite length_fmap.
Qed.

Lemma normalise_column_eq (ps todo : list (nat * nat)) (i c : nat) :
  pairs n m = ps ++ (i, c) :: todo →
  normalise_column pix_array norm_array tab spec i c
    (<[norm_array :=
         concat (nrun <$> ps) ++ rs (i, c) ++ concat (rs <$> todo)]> h0)
  = Ok (<[norm_array :=
            concat (nrun <$> ps) ++ nrun (i, c) ++ concat (rs <$> todo)]> h0).
Proof.
  intros Hps.
  pose proof (list_lookup_middle ps todo (i, c) _ eq_refl) as Hic.
  rewrite <- Hps in Hic.
  pose proof (pairs_lookup_inv _ _ _ _ _ Hic) as (Hk & Hi & Hc).
  assert (take (i * m + c) (pairs n m) = ps) as Htake
    by (rewrite Hps, <- Hk; apply take_app_length).
  rewrite Hk in Hic.
  assert (sumZ (take (i * m + c) counts)
          = Z.of_nat (length (concat (rs <$> ps)))) as Hstart.
  { subst counts. by rewrite <- fmap_take, Htake, sumZ_lengths. }
  assert (pix = concat (rs <$> ps) ++ rs (i, c) ++ concat (rs <$> todo))
    as Hsplit.
  { subst pix. by rewrite Hps, fmap_app, concat_app, fmap_cons, concat_cons. }
  unfold normalise_column, tab.
  rewrite (table_get_cells_from _ _ _ _ _ (Z.of_nat (length (rs (i, c)))))
    by (done || (subst counts; by rewrite list_lookup_fmap, Hic)).
  rewrite bind_Ok, Hstart.
  rewrite !(lookup_total_insert_ne _ norm_array pix_array) by done.
  rewrite (lookup_total_correct _ _ _ Hpix).
  rewrite lookup_total_insert_eq.
  assert (py_slice pix (Z.of_nat (length (concat (rs <$> ps))))
            (Z.of_nat (length (concat (rs <$> ps)))
             + Z.of_nat (length (rs (i, c))))
          = rs (i, c)) as Hslice
    by (rewrite Hsplit; apply py_slice_middle).
  rewrite Hslice.
  assert ((match spec with
           | Some s => index2 s i c
           | None => Ok (np_sum (s_flux <$> rs (i, c)))
           end : result Q)
          = Ok match spec with
               | Some s => at2 s i c
               | None => np_sum (s_flux <$> rs (i, c))
               end) as ->.
  { destruct spec as [s|]; [|done]. destruct Hspec as [H0 H1].
    unfold index2. by rewrite decide_True by lia. }
  rewrite bind_Ok.
  rewrite assign_slice_col_run
    by (rewrite ?length_nruns, ?length_fmap; done).
  rewrite bind_Ok, lookup_total_insert_eq.
  rewrite !(lookup_total_insert_ne _ norm_array pix_array) by done.
  rewrite (lookup_total_correct _ _ _ Hpix), Hslice.
  rewrite assign_slice_col_run
    by (rewrite ?length_nruns, ?length_zip_with, ?length_fmap, ?Nat.min_id;
        done).
  rewrite bind_Ok, !insert_insert_eq.
  by rewrite scale_zip.
Qed.

Lemma normalise_prefix (ps todo : list (nat * nat)) :
  pairs n m = ps ++ todo →
  for_each ps
    (λ ic, normalise_column pix_array norm_array tab spec ic.1 ic.2)
    (<[norm_array := pix]> h0)
  = Ok (<[norm_array := concat (nrun <$> ps) ++ concat (rs <$> todo)]> h0).
Proof.
  revert todo.
  induction ps as [|[i c] ps IH] using rev_ind; intros todo Hps.
  - rewrite for_each_nil. simpl. subst pix. by rewrite Hps.
  - rewrite <- app_assoc in Hps. simpl in Hps.
    rewrite for_each_snoc, (IH _ Hps), bind_Ok. cbn [fst snd].
    rewrite fmap_cons, concat_cons, normalise_column_eq by done.
    rewrite fmap_app, concat_app.
    change (concat (nrun <$> [(i, c)])) with (nrun (i, c) ++ []).
    by rewrite app_nil_r, <- app_assoc.
Qed.
End norm.

Lemma concat_slice {A B : Type} (f : B → list A) (l : list B) (k : nat)
    (x : B) (i0 i1 : Z) :
  l !! k = Some x →
  i0 = Z.of_nat (length (concat (f <$> take k l))) →
  i1 = (i0 + Z.of_nat (length (f x)))%Z →
  py_slice (concat (f <$> l)) i0 i1 = f x.
Proof.
  intros Hk -> ->. rewrite <- (take_drop_middle _ _ _ Hk) at 1.
  rewrite fmap_app, concat_app, fmap_cons, concat_cons.
  apply py_slice_middle.
Qed.

Lemma concat_cover {A : Type} (l : list (list A)) (k : nat) :
  k < length (concat l) →
  ∃ j x,
    l !! j = Some x ∧
    length (concat (take j l)) ≤ k < length (concat (take j l)) + length x.
Proof.
  revert k. induction l as [|y l IH]; intros k Hk; simpl in Hk; [lia|].
  rewrite length_app in Hk. destruct (decide (k < length y)) as [Hlt|Hge].
  - exists 0, y. simpl. split; [done|lia].
  - destruct (IH (k - length y)) as (j & x & Hj & Hx); [lia|].
    exists (S j), x. simpl. rewrite length_app. split; [done|lia].
Qed.

(** [norm_flux_coo] on a flat list made of one run for each pair, with the
    table of these runs: the copy holds every run scaled by its divisor, and
    nothing else in the store has changed. *)
Lemma norm_flux_coo_arena (n m : nat) (rs : nat * nat → list sample)
    (spec : option array2) (h : heap) (pix_array : nat) :
  spec_shape n m spec →
  h !! pix_array = Some (concat (rs <$> pairs n m)) →
  norm_flux_coo h pix_array
    (Table n m
       (cells_from 0 ((λ ic, Z.of_nat (length (rs ic))) <$> pairs n m)))
    spec
  = Ok (fresh (dom h),
        <[fresh (dom h) :=
            concat ((λ ic, scale (norm_of spec ic.1 ic.2 (rs ic)) <$> rs ic)
                      <$> pairs n m)]> h).
Proof.
  intros Hspec Hpix. unfold norm_flux_coo, copy. cbn [tshape_0 tshape_1].
  assert (fresh (dom h) ≠ pix_array) as Hne.
  { intros Heq. apply (is_fresh (dom h)). rewrite Heq.
    by eapply elem_of_dom_2. }
  rewrite for_range_nested, (lookup_total_correct _ _ _ Hpix).
  rewrite (normalise_prefix n m rs spec h pix_array (fresh (dom h))
             Hspec Hne Hpix (pairs n m) []) by by rewrite app_nil_r.
  by rewrite bind_Ok, app_nil_r.
Qed.

Section normalised.
Variables (frame variance : array3) (ord_pos : array2_of npfloat)
  (ap_rad : npfloat).
Variables (spec : option array2).
Hypothesis Hshape : same_shape3 frame variance.
Hypothesis Hord : trace_shape frame ord_pos.

Let nints := shape3_0 frame.
Let ncols := shape3_2 frame.
Let count := count_at frame ord_pos ap_rad.
Let run := run_at frame variance ord_pos ap_rad.
Let nrun (ic : nat * nat) := scale (norm_of spec ic.1 ic.2 (run ic)) <$> run ic.

Lemma counts_lengths (ps : list (nat * nat)) :
  Forall (λ ic, (0 <= count ic)%Z) ps →
  count <$> ps = (λ ic, Z.of_nat (length (run ic))) <$> ps.
Proof.
  intros Hall. apply Forall_fmap_ext_1. eapply Forall_impl; [exact Hall|].
  intros ic Hic. simpl in *. unfold run. rewrite length_run.
  fold count. lia.
Qed.

Lemma norm_flux_coo_closed (h : heap) (pix_array : nat)
    (pix : list sample) (col_array_pos : table) :
  flux_coo frame variance ord_pos ap_rad = Ok (pix, col_array_pos) →
  spec_shape nints ncols spec →
  h !! pix_array = Some pix →
  pix = concat (run <$> pairs nints ncols) ∧
  norm_flux_coo h pix_array col_array_pos spec
  = Ok (fresh (dom h),
        <[fresh (dom h) := concat (nrun <$> pairs nints ncols)]> h).
Proof.
  intros Hflux Hspec Hpix.
  pose proof (flux_coo_Ok_inv _ _ _ _ _ Hshape Hord Hflux) as Hpre.
  pose proof Hpre as (_ & _ & _ & _ & Hall).
  rewrite flux_coo_returns in Hflux by done. injection Hflux as <- <-.
  split; [done|]. fold nints ncols count.
  rewrite counts_lengths by done.
  by apply norm_flux_coo_arena.
Qed.

Lemma normalised_slices (pix : list sample) (col_array_pos : table)
    (i c : nat) (start cnt : Z) :
  flux_coo frame variance ord_pos ap_rad = Ok (pix, col_array_pos) →
  i < nints → c < ncols →
  table_get col_array_pos i c = Ok (start, cnt) →
  py_slice pix start (start + cnt) = run (i, c) ∧
  py_slice (concat (nrun <$> pairs nints ncols)) start (start + cnt)
  = nrun (i, c).
Proof.
  intros Hflux Hi Hc.
  pose proof (flux_coo_Ok_inv _ _ _ _ _ Hshape Hord Hflux) as Hpre.
  pose proof Hpre as (_ & _ & _ & _ & Hall).
  rewrite flux_coo_returns in Hflux by done. injection Hflux as <- <-.
  rewrite table_get_closed by done. intros [= <- <-].
  fold nints ncols run.
  pose proof (pairs_lookup nints ncols i c Hi Hc) as Hic.
  assert (sumZ (take (i * ncols + c)
                  (count_at frame ord_pos ap_rad <$> pairs nints ncols))
          = Z.of_nat (length (concat
                        (run <$> take (i * ncols + c) (pairs nints ncols)))))
    as Hstart.
  { rewrite <- fmap_take. symmetry.
    apply length_concat_runs. by apply Forall_take. }
  assert (count_at frame ord_pos ap_rad (i, c)
          = Z.of_nat (length (run (i, c)))) as Hcnt.
  { rewrite Forall_forall in Hall.
    specialize (Hall (i, c) (list_elem_of_lookup_2 _ _ _ Hic)).
    unfold run. rewrite length_run. lia. }
  split.
  - eapply concat_slice; [exact Hic | exact Hstart | by rewrite Hcnt].
  - eapply concat_slice; [exact Hic | |].
    + rewrite Hstart. f_equal. symmetry. apply length_nruns.
    + rewrite Hcnt. unfold nrun. by rewrite length_fmap.
Qed.
Lemma pix_cover (pix : list sample) (col_array_pos : table) (k : nat) :
  flux_coo frame variance ord_pos ap_rad = Ok (pix, col_array_pos) →
  k < length pix →
  ∃ i c start cnt,
    i < nints ∧ c < ncols ∧
    table_get col_array_pos i c = Ok (start, cnt) ∧
    (start <= Z.of_nat k < start + cnt)%Z.
Proof.
  intros Hflux.
  pose proof (flux_coo_Ok_inv _ _ _ _ _ Hshape Hord Hflux) as Hpre.
  pose proof Hpre as (_ & _ & _ & _ & Hall).
  rewrite flux_coo_returns in Hflux by done. injection Hflux as <- <-.
  intros Hk. apply concat_cover in Hk as (j & x & Hj & Hx).
  apply list_lookup_fmap_Some_1 in Hj as ([i c] & -> & Hic).
  pose proof (pairs_lookup_inv _ _ _ _ _ Hic) as (-> & Hi & Hc).
  exists i, c. eexists _, _. split; [done|]. split; [done|].
  split; [by apply table_get_closed|].
  rewrite <- !fmap_take in *.
  rewrite <- (length_concat_runs frame variance ord_pos ap_rad)
    by by apply Forall_take.
  rewrite Forall_forall in Hall.
  specialize (Hall (i, c) (list_elem_of_lookup_2 _ _ _ Hic)).
  rewrite length_run in Hx. lia.
Qed.
End normalised.

(** ** Sums of scaled fluxes *)

Lemma np_sum_div (d : Q) (l : list Q) :
  (np_sum ((λ x, x / d) <$> l) == np_sum l / d)%Q.
Proof.
  induction l as [|x l IH]; simpl.
  - unfold Qdiv. ring.
  - rewrite IH. unfold Qdiv. ring.
Qed.

Lemma flux_scale (norm_sum : Q) (l : list sample) :
  s_flux <$> (scale norm_sum <$> l) = (λ x, x / norm_sum)%Q <$> (s_flux <$> l).
Proof. by rewrite <- !list_fmap_compose. Qed.

Lemma np_maximum_ge (x y : Q) : (y <= x)%Q → (np_maximum x y == x)%Q.
Proof.
  intros Hyx. unfold np_maximum.
  destruct (Qle_bool x y) eqn:Hxy; [|reflexivity].
  apply Qle_bool_iff in Hxy. by apply Qle_antisym.
Qed.

Lemma np_maximum_lt (x y : Q) : (x < y)%Q → np_maximum x y = y.
Proof.
  intros Hxy. unfold np_maximum.
  destruct (Qle_bool x y) eqn:Hle; [done|].
  apply not_true_iff_false in Hle. destruct Hle.
  by apply Qle_bool_iff, Qlt_le_weak.
Qed.

(** ** Claims on [norm_flux_coo] *)

(** C3. On what [flux_coo] has returned, [norm_flux_coo] returns a new array
    as long as [pix_array], and leaves [pix_array] and every other array of
    the store as they were.  For every pair, the divisor is the value of the
    reference spectrum, or without one the sum of the fluxes of the run of
    the pair, raised to [min_norm = 0.01] when it is below; the run of the
    pair in the new array is its run in [pix_array] with every flux divided
    by the divisor and every variance by its square.  Every sample is in the
    run of some pair, so a pair without samples changes nothing. *)
Theorem norm_flux_coo_runs (frame variance : array3)
    (ord_pos : array2_of npfloat) (ap_rad : npfloat) (spec : option array2)
    (h : heap) (pix_array : nat) (pix : list sample)
    (col_array_pos : table) :
  same_shape3 frame variance →
  trace_shape frame ord_pos →
  flux_coo frame variance ord_pos ap_rad = Ok (pix, col_array_pos) →
  spec_shape (shape3_0 frame) (shape3_2 frame) spec →
  h !! pix_array = Some pix →
  ∃ norm_array h' norm,
    norm_flux_coo h pix_array col_array_pos spec = Ok (norm_array, h') ∧
    norm_array ≠ pix_array ∧
    h' !! norm_array = Some norm ∧
    h' !! pix_array = Some pix ∧
    (∀ l, l ≠ norm_array → h' !! l = h !! l) ∧
    length norm = length pix ∧
    min_norm = 1 # 100 ∧
    (∀ integration col start count,
       integration < shape3_0 frame → col < shape3_2 frame →
       table_get col_array_pos integration col = Ok (start, count) →
       let run := py_slice pix start (start + count) in
       let norm_sum :=
         np_maximum
           match spec with
           | Some s => at2 s integration col
           | None => np_sum (s_flux <$> run)
           end
           min_norm in
       py_slice norm start (start + count)
       = (λ s, Sample (s_off s) (s_flux s / norm_sum)
                 (s_var s / norm_sum ^ 2) (s_col s)) <$> run) ∧
    (∀ k : nat,
       k < length pix →
       ∃ integration col start count,
         integration < shape3_0 frame ∧ col < shape3_2 frame ∧
         table_get col_array_pos integration col = Ok (start, count) ∧
         (start <= Z.of_nat k < start + count)%Z).
Proof.
  intros Hshape Hord Hflux Hspec Hpix.
  destruct (norm_flux_coo_closed frame variance ord_pos ap_rad spec
              Hshape Hord h pix_array pix col_array_pos Hflux Hspec Hpix)
    as [Hpixeq Hnorm].
  assert (fresh (dom h) ≠ pix_array) as Hne.
  { intros Heq. apply (is_fresh (dom h)). rewrite Heq.
    by eapply elem_of_dom_2. }
  eexists _, _, _. split; [exact Hnorm|].
  split; [exact Hne|]. split; [apply lookup_insert_eq|].
  split; [by rewrite lookup_insert_ne|].
  split; [by intros l Hl; rewrite lookup_insert_ne|].
  split; [by rewrite Hpixeq, length_nruns|]. split; [done|]. split.
  - intros i c start count Hi Hc Hget.
    destruct (normalised_slices frame variance ord_pos ap_rad spec Hshape Hord
                pix col_array_pos i c start count Hflux Hi Hc Hget)
      as [Hrun Hnrun].
    cbv zeta. by rewrite Hrun, Hnrun.
  - intros k Hk. by eapply pix_cover.
Qed.

Lemma norm_flux_coo_runs_witness :
  ∃ norm_array h' norm,
    norm_flux_coo {[0 := example_pix]} 0 example_table None
    = Ok (norm_array, h') ∧
    norm_array ≠ 0 ∧
    h' !! norm_array = Some norm ∧
    h' !! 0 = Some example_pix ∧
    (∀ l, l ≠ norm_array → h' !! l = ({[0 := example_pix]} : heap) !! l) ∧
    length norm = length example_pix ∧
    min_norm = 1 # 100 ∧
    (∀ integration col start count,
       integration < 1 → col < 3 →
       table_get example_table integration col = Ok (start, count) →
       let run := py_slice example_pix start (start + count) in
       let norm_sum := np_maximum (np_sum (s_flux <$> run)) min_norm in
       py_slice norm start (start + count)
       = (λ s, Sample (s_off s) (s_flux s / norm_sum)
                 (s_var s / norm_sum ^ 2) (s_col s)) <$> run) ∧
    (∀ k : nat,
       k < length example_pix →
       ∃ integration col start count,
         integration < 1 ∧ col < 3 ∧
         table_get example_table integration col = Ok (start, count) ∧
         (start <= Z.of_nat k < start + count)%Z).
Proof.
  apply (norm_flux_coo_runs example_cube example_cube example_trace
           (Num 1) None
           {[0 := example_pix]} 0 example_pix example_table).
  - repeat split.
  - repeat split.
  - by vm_compute.
  - exact I.
  - apply lookup_singleton_eq.
Defined.

(** C8. The reference spectrum holds, for a pair with samples, the sum of
    the fluxes of its run.  After [norm_flux_coo] the fluxes of the run add
    up to 1 when that sum is [min_norm = 0.01] or more; when it is less they
    add up to the sum divided by [min_norm], which is below 1. *)
Theorem norm_flux_coo_round_trip (frame variance : array3)
    (ord_pos : array2_of npfloat) (ap_rad : npfloat) (spec : array2)
    (h : heap) (pix_array : nat) (pix : list sample)
    (col_array_pos : table) :
  same_shape3 frame variance →
  trace_shape frame ord_pos →
  flux_coo frame variance ord_pos ap_rad = Ok (pix, col_array_pos) →
  spec_shape (shape3_0 frame) (shape3_2 frame) (Some spec) →
  h !! pix_array = Some pix →
  ∃ norm_array h' norm,
    norm_flux_coo h pix_array col_array_pos (Some spec)
    = Ok (norm_array, h') ∧
    h' !! norm_array = Some norm ∧
    ∀ integration col start count,
      integration < shape3_0 frame → col < shape3_2 frame →
      table_get col_array_pos integration col = Ok (start, count) →
      (0 < count)%Z →
      let true_sum := np_sum (s_flux <$> py_slice pix start (start + count)) in
      (at2 spec integration col == true_sum)%Q →
      let total := np_sum (s_flux <$> py_slice norm start (start + count)) in
      ((min_norm <= true_sum → total == 1) ∧
       (true_sum < min_norm → total == true_sum / min_norm ∧ total < 1))%Q.
Proof.
  intros Hshape Hord Hflux Hspec Hpix.
  destruct (norm_flux_coo_closed frame variance ord_pos ap_rad (Some spec)
              Hshape Hord h pix_array pix col_array_pos Hflux Hspec Hpix)
    as [Hpixeq Hnorm].
  eexists _, _, _. split; [exact Hnorm|].
  split; [apply lookup_insert_eq|].
  intros i c start count Hi Hc Hget Hcount.
  destruct (normalised_slices frame variance ord_pos ap_rad (Some spec)
              Hshape Hord pix col_array_pos i c start count Hflux Hi Hc Hget)
    as [Hrun Hnrun].
  cbv zeta. rewrite Hrun, Hnrun. cbn [fst snd]. intros Href.
  rewrite flux_scale, np_sum_div. unfold norm_of.
  set (true_sum := np_sum (s_flux <$> _)) in *.
  assert (0 < min_norm)%Q as Hmin by done.
  split.
  - intros Hge. rewrite np_maximum_ge, Href by (rewrite Href; done).
    field. intros Hzero. rewrite Hzero in Hge. lra.
  - intros Hlt. rewrite np_maximum_lt by (rewrite Href; done).
    split; [reflexivity|].
    apply Qlt_shift_div_r; [done|]. lra.
Qed.

Lemma norm_flux_coo_round_trip_witness :
  ∃ norm_array h' norm,
    norm_flux_coo {[0 := example_pix]} 0 example_table
      (Some (const2 1 3 2))
    = Ok (norm_array, h') ∧
    h' !! norm_array = Some norm ∧
    ∀ integration col start count,
      integration < 1 → col < 3 →
      table_get example_table integration col = Ok (start, count) →
      (0 < count)%Z →
      let true_sum :=
        np_sum (s_flux <$> py_slice example_pix start (start + count)) in
      (2 == true_sum)%Q →
      let total := np_sum (s_flux <$> py_slice norm start (start + count)) in
      ((min_norm <= true_sum → total == 1) ∧
       (true_sum < min_norm → total == true_sum / min_norm ∧ total < 1))%Q.
Proof.
  apply (norm_flux_coo_round_trip example_cube example_cube example_trace
           (Num 1)
           (const2 1 3 2) {[0 := example_pix]} 0 example_pix example_table).
  - repeat split.
  - repeat split.
  - by vm_compute.
  - split; reflexivity.
  - apply lookup_singleton_eq.
Defined.

(** * Further properties *)

(** ** [aperture_extract]: results and errors *)

Lemma windows_round_finite (nrows : nat) (ord_pos : list npfloat) (r : Q) :
  Forall (λ p, p ≠ NaN) ord_pos →
  (Qabs r + inject_Z (Z.of_nat nrows) <= 2 ^ 1023)%Q →
  windows_round nrows ord_pos (Num r).
Proof.
  intros Hpos Hr. unfold windows_round.
  eapply Forall_impl; [exact Hpos|]. intros p Hp. by apply window_error_finite.
Qed.

(** X1. With a variance of the shape of the frame, one trace position for
    each column, none of them a NaN, and a finite radius that is too small
    for [p + ap_rad] to overflow, [aperture_extract] returns, and both outputs
    have one cell for each column: no such trace position, radius or pixel
    value makes it raise. *)
Theorem aperture_extract_returns (frame variance : array2)
    (ord_pos : list npfloat) (ap_rad : Q) (uniform : bool) :
  same_shape2 frame variance →
  length ord_pos = shape2_1 frame →
  Forall (λ p, p ≠ NaN) ord_pos →
  (Qabs ap_rad + inject_Z (Z.of_nat (shape2_0 frame)) <= 2 ^ 1023)%Q →
  ∃ spec var,
    aperture_extract frame variance ord_pos (Num ap_rad) uniform
    = Ok (spec, var) ∧
    length spec = shape2_1 frame ∧ length var = shape2_1 frame.
Proof.
  intros Hshape Hord Hpos Hrad. eexists _, _.
  split; [by apply aperture_extract_eq, windows_round_finite|].
  by rewrite !length_fmap, !length_seq.
Qed.

Lemma aperture_extract_returns_witness :
  ∃ spec var,
    aperture_extract (const2 10 3 1) (const2 10 3 1)
      [Num (-3); Inf false; Num (19 # 2)] (Num (-1)) true
    = Ok (spec, var) ∧
    length spec = 3 ∧ length var = 3.
Proof.
  apply (aperture_extract_returns (const2 10 3 1) (const2 10 3 1)
           [Num (-3); Inf false; Num (19 # 2)] (-1) true).
  - split; reflexivity.
  - reflexivity.
  - repeat constructor; done.
  - by vm_compute.
Defined.

Lemma seq_split (n k : nat) :
  k < n → seq 0 n = seq 0 k ++ k :: seq (S k) (n - S k).
Proof.
  intros Hk. replace n with (k + S (n - S k)) at 1 by lia.
  by rewrite seq_app.
Qed.

Lemma column_error_prefix (nrows : nat) (ord_pos : list npfloat)
    (ap_rad : npfloat) (col : nat) :
  col ≤ length ord_pos →
  windows_round nrows (take col ord_pos) ap_rad →
  first_error (column_error nrows ord_pos ap_rad) (seq 0 col) = None.
Proof.
  intros Hcol Hwin. apply first_error_None, Forall_forall.
  intros c Hc. apply elem_of_seq in Hc as [_ Hc]. unfold column_error.
  destruct (ord_pos !! c) as [p|] eqn:Hp.
  - apply (windows_round_lookup _ _ _ c _ Hwin).
    rewrite lookup_take_lt by lia. exact Hp.
  - apply lookup_ge_None in Hp. lia.
Qed.

(** X2. The exceptions of [aperture_extract], for a variance of the shape of
    the frame.  It raises an [IndexError] only for an [ord_pos] with fewer
    positions than the frame has columns, and a [ValueError] or an
    [OverflowError] only when the window of some position cannot be rounded;
    it raises nothing else.  It raises the [IndexError] when [ord_pos] is too
    short and every window can be rounded, and a [ValueError] at a NaN trace
    position, which is not skipped, when the windows of the columns before it
    can be rounded. *)
Theorem aperture_extract_errors (frame variance : array2)
    (ord_pos : list npfloat) (ap_rad : npfloat) (uniform : bool) :
  same_shape2 frame variance →
  (∀ e, aperture_extract frame variance ord_pos ap_rad uniform = Err e →
        (e = IndexError ∧ length ord_pos < shape2_1 frame) ∨
        ((e = ValueError ∨ e = OverflowError) ∧
         ¬ windows_round (shape2_0 frame) ord_pos ap_rad)) ∧
  (windows_round (shape2_0 frame) ord_pos ap_rad →
   length ord_pos < shape2_1 frame →
   aperture_extract frame variance ord_pos ap_rad uniform = Err IndexError) ∧
  (∀ col,
     col < shape2_1 frame →
     ord_pos !! col = Some NaN →
     windows_round (shape2_0 frame) (take col ord_pos) ap_rad →
     aperture_extract frame variance ord_pos ap_rad uniform
     = Err ValueError).
Proof.
  intros Hshape. rewrite aperture_extract_outcome by done.
  split; [|split].
  - intros e. destruct (first_error _ _) as [e'|] eqn:Herr; [|done].
    intros [= ->]. apply first_error_Some in Herr as (col & Hcol & Herr).
    apply elem_of_seq in Hcol as [_ Hcol]. unfold column_error in Herr.
    destruct (ord_pos !! col) as [p|] eqn:Hp.
    + right. pose proof (window_error_Some _ _ _ _ Herr) as (_ & _ & He).
      split; [done|]. intros Hwin.
      rewrite (windows_round_lookup _ _ _ _ _ Hwin Hp) in Herr. done.
    + left. injection Herr as <-. split; [done|].
      apply lookup_ge_None in Hp. lia.
  - intros Hwin Hlen.
    rewrite (seq_split _ _ Hlen), first_error_app.
    rewrite column_error_prefix by (rewrite ?firstn_all; done).
    cbn [first_error]. unfold column_error at 1.
    by rewrite lookup_ge_None_2.
  - intros col Hcol Hp Hwin.
    rewrite (seq_split _ _ Hcol), first_error_app.
    rewrite column_error_prefix
      by (done || apply lookup_lt_Some in Hp; lia).
    cbn [first_error]. unfold column_error at 1.
    by rewrite Hp, window_error_NaN.
Qed.

Lemma aperture_extract_errors_witness :
  (∀ e, aperture_extract (const2 5 3 1) (const2 5 3 1) [Num 2; NaN] (Num 1)
          false
        = Err e →
        (e = IndexError ∧ length [Num 2; NaN] < 3) ∨
        ((e = ValueError ∨ e = OverflowError) ∧
         ¬ windows_round 5 [Num 2; NaN] (Num 1))) ∧
  (windows_round 5 [Num 2; NaN] (Num 1) →
   length [Num 2; NaN] < 3 →
   aperture_extract (const2 5 3 1) (const2 5 3 1) [Num 2; NaN] (Num 1) false
   = Err IndexError) ∧
  (∀ col,
     col < 3 →
     [Num 2; NaN] !! col = Some NaN →
     windows_round 5 (take col [Num 2; NaN]) (Num 1) →
     aperture_extract (const2 5 3 1) (const2 5 3 1) [Num 2; NaN] (Num 1) false
     = Err ValueError).
Proof.
  apply (aperture_extract_errors (const2 5 3 1) (const2 5 3 1)
           [Num 2; NaN] (Num 1) false).
  split; reflexivity.
Defined.

(** A NaN in the second column: the first column is extracted, the second
    stops the loop; and a trace that is one position short. *)
Example aperture_extract_nan_position :
  aperture_extract (const2 5 3 1) (const2 5 3 1) [Num 2; NaN; Num 2] (Num 1)
    false
  = Err ValueError ∧
  aperture_extract (const2 5 3 1) (const2 5 3 1) [Num 2; Num 2] (Num 1) false
  = Err IndexError ∧
  aperture_extract (const2 5 3 1) (const2 5 3 1) [Num 2; Num 2; Num 2]
    (Inf false) false
  = Err OverflowError.
Proof. by vm_compute. Qed.

Lemma aperture_extract_out_of_range_witness :
  ∃ spec var,
    aperture_extract (const2 5 2 1) (const2 5 2 1) [Num 5; Num (-1 # 2)]
      (Num 1) true
    = Ok (spec, var) ∧
    spec !! 0 = Some (Num 0) ∧ var !! 0 = Some (Num 0).
Proof.
  apply (aperture_extract_out_of_range (const2 5 2 1) (const2 5 2 1)
           [Num 5; Num (-1 # 2)] (Num 1) true 0 (Num 5)).
  - split; reflexivity.
  - reflexivity.
  - apply (bool_decide_unpack _). by vm_compute.
  - reflexivity.
  - right. by vm_compute.
Defined.

Lemma aperture_extract_empty_window_witness :
  ∃ spec var,
    aperture_extract (const2 10 1 1) (const2 10 1 1) [py_float (1 # 10)]
      (py_float (4 # 10)) true
    = Ok (spec, var) ∧
    spec !! 0 = Some NaN ∧ var !! 0 = Some NaN.
Proof.
  apply (aperture_extract_empty_window (const2 10 1 1) (const2 10 1 1)
           [py_float (1 # 10)] (py_float (4 # 10)) true 0
           (py_float (1 # 10)) 0 0).
  - split; reflexivity.
  - reflexivity.
  - apply (bool_decide_unpack _). by vm_compute.
  - reflexivity.
  - by vm_compute.
  - by vm_compute.
  - lia.
Defined.

Lemma length_py_slice_inside {A : Type} (l : list A) (i0 i1 : Z) :
  (0 <= i0 <= i1)%Z → (i1 <= Z.of_nat (length l))%Z →
  length (py_slice l i0 i1) = Z.to_nat (i1 - i0).
Proof.
  intros H0 H1. unfold py_slice. rewrite slice_range_inside by done.
  rewrite length_take, length_drop. lia.
Qed.

Lemma np_mean_nonempty (l : list Q) :
  l ≠ [] → np_mean l = Num (np_sum l / inject_Z (Z.of_nat (length l))).
Proof. by destruct l. Qed.

(** X5. For a column whose window holds at least one row, the output for a
    uniformly lit slit is the plain sum divided by the number [i1 - i0] of
    rows of the window as clamped, times the nominal width [ap_rad * 2]; the
    same holds for the variance. *)
Theorem aperture_extract_uniform_of_sum (frame variance : array2)
    (ord_pos : list npfloat) (ap_rad : npfloat) (col : nat) (p : npfloat)
    (i0 i1 : Z) :
  same_shape2 frame variance →
  length ord_pos = shape2_1 frame →
  windows_round (shape2_0 frame) ord_pos ap_rad →
  ord_pos !! col = Some p →
  skipped (shape2_0 frame) p = false →
  aperture_window (shape2_0 frame) p ap_rad = Ok (i0, i1) →
  (i0 < i1)%Z →
  ∃ spec var uspec uvar fsum vsum,
    aperture_extract frame variance ord_pos ap_rad false = Ok (spec, var) ∧
    aperture_extract frame variance ord_pos ap_rad true = Ok (uspec, uvar) ∧
    spec !! col = Some (Num fsum) ∧
    var !! col = Some (Num vsum) ∧
    uspec !! col
    = Some (np_mul (Num (fsum / inject_Z (i1 - i0)))
              (float_mul ap_rad (Num 2))) ∧
    uvar !! col
    = Some (np_mul (Num (vsum / inject_Z (i1 - i0)))
              (float_mul ap_rad (Num 2))).
Proof.
  intros Hshape Hord Hwin Hp Hs Hw Hlt.
  assert (col < shape2_1 frame) as Hcol
    by (rewrite <- Hord; by eapply lookup_lt_Some).
  pose proof (aperture_window_bounds _ _ _ _ _ Hw) as [Hi0 Hi1].
  destruct Hshape as [Hrows Hcols].
  assert (∀ a : array2, shape2_0 a = shape2_0 frame →
            length (py_slice (column2 a col) i0 i1) = Z.to_nat (i1 - i0))
    as Hlen.
  { intros a Ha. apply length_py_slice_inside; [lia|].
    unfold column2. rewrite length_fmap, length_seq. lia. }
  eexists _, _, _, _, _, _.
  split; [by apply aperture_extract_eq|].
  split; [by apply aperture_extract_eq|].
  rewrite !list_lookup_fmap, !lookup_seq_lt by done.
  cbn [fmap option_fmap option_map Nat.add].
  unfold extract_cell. rewrite Hp, Hs, Hw.
  rewrite !np_mean_nonempty
    by (intros Hnil; apply (f_equal length) in Hnil;
        rewrite Hlen in Hnil by done; simpl in Hnil; lia).
  rewrite !Hlen, Z2Nat.id by (done || lia).
  done.
Qed.

Lemma aperture_extract_uniform_of_sum_witness :
  ∃ spec var uspec uvar fsum vsum,
    aperture_extract (const2 10 1 3) (const2 10 1 2) [py_float (78 # 10)]
      (Num 2) false
    = Ok (spec, var) ∧
    aperture_extract (const2 10 1 3) (const2 10 1 2) [py_float (78 # 10)]
      (Num 2) true
    = Ok (uspec, uvar) ∧
    spec !! 0 = Some (Num fsum) ∧
    var !! 0 = Some (Num vsum) ∧
    uspec !! 0
    = Some (np_mul (Num (fsum / inject_Z (9 - 6)))
              (float_mul (Num 2) (Num 2))) ∧
    uvar !! 0
    = Some (np_mul (Num (vsum / inject_Z (9 - 6)))
              (float_mul (Num 2) (Num 2))).
Proof.
  apply (aperture_extract_uniform_of_sum (const2 10 1 3) (const2 10 1 2)
           [py_float (78 # 10)] (Num 2) 0 (py_float (78 # 10)) 6 9).
  - split; reflexivity.
  - reflexivity.
  - apply (bool_decide_unpack _). by vm_compute.
  - reflexivity.
  - by vm_compute.
  - by vm_compute.
  - lia.
Defined.

(** ** The last row *)

Lemma py_slice_agree {A : Type} (l l' : list A) (i0 i1 : Z) :
  length l = length l' →
  (i1 <= Z.of_nat (length l) - 1)%Z →
  (∀ k, k + 1 < length l → l !! k = l' !! k) →
  py_slice l i0 i1 = py_slice l' i0 i1.
Proof.
  intros Hlen Hi1 Hagree. unfold py_slice, slice_range. rewrite <- Hlen.
  apply list_eq. intros k. rewrite !lookup_take, !lookup_drop.
  case_decide as Hk; [|done]. apply Hagree.
  unfold slice_bound in *.
  destruct (Z.ltb_spec i0 0), (Z.ltb_spec i1 0); lia.
Qed.

Lemma column2_agree (a a' : array2) (col : nat) :
  same_shape2 a a' →
  (∀ r c, r + 1 < shape2_0 a → at2 a r c = at2 a' r c) →
  ∀ k, k + 1 < length (column2 a col) →
       column2 a col !! k = column2 a' col !! k.
Proof.
  intros [Hrows _] Hagree k. unfold column2.
  rewrite length_fmap, length_seq. intros Hk.
  rewrite !list_lookup_fmap, <- Hrows, !lookup_seq_lt by lia. simpl.
  by rewrite Hagree.
Qed.

Lemma extract_cell_agree (a a' : array2) (ord_pos : list npfloat)
    (ap_rad : npfloat) (uniform : bool) (col : nat) :
  same_shape2 a a' →
  (∀ r c, r + 1 < shape2_0 a → at2 a r c = at2 a' r c) →
  extract_cell (shape2_0 a) a ord_pos ap_rad uniform col
  = extract_cell (shape2_0 a) a' ord_pos ap_rad uniform col.
Proof.
  intros Hshape Hagree. unfold extract_cell.
  destruct (ord_pos !! col) as [p|]; [|done].
  destruct (skipped _ _); [done|].
  destruct (aperture_window _ _ _) as [[i0 i1]|e] eqn:Hw; [|done].
  pose proof (aperture_window_bounds _ _ _ _ _ Hw) as [_ Hi1].
  rewrite (py_slice_agree (column2 a col) (column2 a' col)); [done|..].
  - unfold column2. rewrite !length_fmap, !length_seq. apply Hshape.
  - unfold column2. by rewrite length_fmap, length_seq.
  - by apply column2_agree.
Qed.

(** X6. [aperture_extract] never reads the last row of the frame or of the
    variance: [i1] is at most [nrows - 1] and the slice stops before it.
    Two frames and two variances that differ on the last row only give the
    same spectrum and the same variance, or the same exception. *)
Theorem aperture_extract_ignores_last_row (frame frame' variance variance' :
    array2) (ord_pos : list npfloat) (ap_rad : npfloat) (uniform : bool) :
  same_shape2 frame variance →
  same_shape2 frame frame' →
  same_shape2 variance variance' →
  length ord_pos = shape2_1 frame →
  (∀ r c, r + 1 < shape2_0 frame → at2 frame r c = at2 frame' r c) →
  (∀ r c, r + 1 < shape2_0 frame → at2 variance r c = at2 variance' r c) →
  aperture_extract frame' variance' ord_pos ap_rad uniform
  = aperture_extract frame variance ord_pos ap_rad uniform.
Proof.
  intros Hfv Hff Hvv Hord Hf Hv.
  pose proof Hfv as [Hfv0 Hfv1]. pose proof Hff as [Hff0 Hff1].
  pose proof Hvv as [Hvv0 Hvv1].
  rewrite (aperture_extract_outcome frame variance) by done.
  rewrite (aperture_extract_outcome frame' variance')
    by (split; congruence).
  rewrite <- Hff0, <- Hff1.
  destruct (first_error _ _); [done|]. do 2 f_equal.
  - apply list_fmap_ext. intros _ col _. symmetry.
    by apply extract_cell_agree.
  - apply list_fmap_ext. intros _ col _. symmetry.
    rewrite Hfv0. apply extract_cell_agree; [done|].
    intros r c Hr. apply Hv. lia.
Qed.

Lemma aperture_extract_ignores_last_row_witness :
  aperture_extract
    (Array2 3 1 (λ r _, if decide (r = 2) then 7%Q else 1%Q))
    (Array2 3 1 (λ r _, if decide (r = 2) then 9%Q else 1%Q))
    [Num 1] (Num 5) false
  = aperture_extract (const2 3 1 1) (const2 3 1 1) [Num 1] (Num 5) false.
Proof.
  apply (aperture_extract_ignores_last_row (const2 3 1 1)
           (Array2 3 1 (λ r _, if decide (r = 2) then 7%Q else 1%Q))
           (const2 3 1 1)
           (Array2 3 1 (λ r _, if decide (r = 2) then 9%Q else 1%Q))
           [Num 1] (Num 5) false).
  - split; reflexivity.
  - split; reflexivity.
  - split; reflexivity.
  - reflexivity.
  - intros r c Hr. simpl in *. by rewrite decide_False by lia.
  - intros r c Hr. simpl in *. by rewrite decide_False by lia.
Defined.

(** ** The outcomes of [flux_coo] *)

Lemma inverted_at_true (frame : array3) (ord_pos : array2_of npfloat)
    (ap_rad : npfloat) (i c : nat) :
  inverted_at frame ord_pos ap_rad (i, c) = true
  ↔ inverted_window frame ord_pos ap_rad i c.
Proof.
  unfold inverted_at, count_at, inverted_window. cbn [fst snd].
  rewrite Z.ltb_lt.
  destruct (skipped _ _); [split; [lia | by intros [? _]]|].
  destruct (aperture_window _ _ _) as [[i0 i1]|e].
  - split.
    + intros Hlt. split; [done|]. exists i0, i1. split; [done|lia].
    + intros [_ (j0 & j1 & [= <- <-] & Hlt)]. lia.
  - split; [lia|]. by intros [_ (j0 & j1 & ? & _)].
Qed.

Lemma all_round_Forall (frame : array3) (ord_pos : array2_of npfloat)
    (ap_rad : npfloat) :
  all_round frame ord_pos ap_rad
  ↔ Forall (rounds_at frame ord_pos ap_rad)
      (pairs (shape3_0 frame) (shape3_2 frame)).
Proof.
  rewrite Forall_forall. unfold all_round, rounds_at. split.
  - intros Hall [i c] Hin. apply elem_of_pairs in Hin as [Hi Hc].
    by apply Hall.
  - intros Hall i c Hi Hc. apply (Hall (i, c)). by apply elem_of_pairs.
Qed.

Lemma some_valid_Exists (frame : array3) (ord_pos : array2_of npfloat) :
  some_valid frame ord_pos
  ↔ Exists (valid_at frame ord_pos)
      (pairs (shape3_0 frame) (shape3_2 frame)).
Proof.
  rewrite Exists_exists. unfold some_valid, valid_at. split.
  - intros (i & c & Hi & Hc & Hv). exists (i, c).
    split; [by apply elem_of_pairs|done].
  - intros ([i c] & Hin & Hv). apply elem_of_pairs in Hin as [Hi Hc].
    by exists i, c.
Qed.

Lemma no_inverted_Forall (frame : array3) (ord_pos : array2_of npfloat)
    (ap_rad : npfloat) :
  ¬ some_inverted frame ord_pos ap_rad
  ↔ Forall (λ ic, (0 <= count_at frame ord_pos ap_rad ic)%Z)
      (pairs (shape3_0 frame) (shape3_2 frame)).
Proof.
  rewrite Forall_forall. unfold some_inverted. split.
  - intros Hnone [i c] Hin. apply elem_of_pairs in Hin as [Hi Hc].
    destruct (Z.ltb_spec (count_at frame ord_pos ap_rad (i, c)) 0)
      as [Hlt|]; [|done].
    destruct Hnone. exists i, c. split; [done|]. split; [done|].
    apply inverted_at_true. unfold inverted_at. by apply Z.ltb_lt.
  - intros Hall (i & c & Hi & Hc & Hinv).
    apply inverted_at_true in Hinv. unfold inverted_at in Hinv.
    apply Z.ltb_lt in Hinv.
    specialize (Hall (i, c) (proj2 (elem_of_pairs _ _ _ _) (conj Hi Hc))).
    lia.
Qed.

Lemma filter_valid_nil (frame : array3) (ord_pos : array2_of npfloat) :
  filter (valid_at frame ord_pos) (pairs (shape3_0 frame) (shape3_2 frame))
  = []
  ↔ ¬ some_valid frame ord_pos.
Proof.
  unfold some_valid. split.
  - intros Hnil (i & c & Hi & Hc & Hv).
    eapply (filter_nil_not_elem_of _ _ (i, c)); [exact Hnil|exact Hv|].
    by apply elem_of_pairs.
  - intros Hnone. destruct (filter _ _) as [|[i c] l] eqn:Hf; [done|].
    assert ((i, c) ∈ filter (valid_at frame ord_pos)
                       (pairs (shape3_0 frame) (shape3_2 frame))) as Hin
      by (rewrite Hf; apply list_elem_of_here).
    apply list_elem_of_filter in Hin as [Hv Hin].
    apply elem_of_pairs in Hin. destruct Hnone. exists i, c. tauto.
Qed.

(** The pair that stops [flux_coo] is not skipped, and stops it with a
    [ValueError] or an [OverflowError]; when its window can be rounded, the
    window is inverted. *)
Lemma collect_error_Some (frame : array3) (ord_pos : array2_of npfloat)
    (ap_rad : npfloat) (i c : nat) (e : pyerr) :
  collect_error frame ord_pos ap_rad (i, c) = Some e →
  skipped (shape3_1 frame) (at2 ord_pos i c) = false ∧
  (e = ValueError ∨ e = OverflowError) ∧
  (window_error (shape3_1 frame) (at2 ord_pos i c) ap_rad = None →
   e = ValueError ∧ inverted_window frame ord_pos ap_rad i c).
Proof.
  unfold collect_error. cbn [fst snd].
  destruct (window_error _ _ _) as [e'|] eqn:Hwe.
  - intros [= ->]. apply window_error_Some in Hwe as (Hs & _ & He). done.
  - destruct (inverted_at _ _ _ _) eqn:Hinv; [|done]. intros [= <-].
    apply inverted_at_true in Hinv. pose proof Hinv as [Hs _].
    split; [done|]. split; [by left|done].
Qed.

(** X7. On arrays of matching shapes [flux_coo] returns exactly when no
    window fails to be rounded, some pair is not skipped, and no such pair
    has an inverted window. *)
Theorem flux_coo_returns_iff (frame variance : array3)
    (ord_pos : array2_of npfloat) (ap_rad : npfloat) :
  same_shape3 frame variance →
  trace_shape frame ord_pos →
  (∃ res, flux_coo frame variance ord_pos ap_rad = Ok res)
  ↔ all_round frame ord_pos ap_rad ∧ some_valid frame ord_pos
    ∧ ¬ some_inverted frame ord_pos ap_rad.
Proof.
  intros Hshape Hord.
  rewrite all_round_Forall, some_valid_Exists, no_inverted_Forall. split.
  - intros [res Hres].
    by destruct (flux_coo_Ok_inv _ _ _ _ _ Hshape Hord Hres)
      as (_ & _ & ? & ? & ?).
  - intros (Hround & Hsome & Hall). eexists.
    by apply flux_coo_returns.
Qed.

Lemma flux_coo_returns_iff_witness :
  (∃ res,
     flux_coo example_cube example_cube example_trace (Num 1) = Ok res)
  ↔ all_round example_cube example_trace (Num 1)
    ∧ some_valid example_cube example_trace
    ∧ ¬ some_inverted example_cube example_trace (Num 1).
Proof.
  apply (flux_coo_returns_iff example_cube example_cube example_trace
           (Num 1)).
  - repeat split.
  - repeat split.
Defined.

(** X8. On arrays of matching shapes, when no window fails to be rounded,
    [flux_coo] raises a [ValueError] exactly when some pair that is not
    skipped has an inverted window: the negative length [i1 - i0] is refused
    by [np.zeros]. *)
Theorem flux_coo_ValueError_iff (frame variance : array3)
    (ord_pos : array2_of npfloat) (ap_rad : npfloat) :
  same_shape3 frame variance →
  trace_shape frame ord_pos →
  all_round frame ord_pos ap_rad →
  flux_coo frame variance ord_pos ap_rad = Err ValueError
  ↔ some_inverted frame ord_pos ap_rad.
Proof.
  intros Hshape Hord Hround. rewrite flux_coo_eq by done.
  unfold flux_coo_closed.
  destruct (first_error _ _) as [e|] eqn:Herr.
  - apply first_error_Some in Herr as ([i c] & Hin & Herr).
    apply elem_of_pairs in Hin as [Hi Hc].
    apply collect_error_Some in Herr as (_ & _ & Hinv).
    destruct (Hinv (Hround i c Hi Hc)) as [-> Hinv'].
    split; [|done]. intros _. by exists i, c.
  - rewrite first_error_None, Forall_forall in Herr.
    assert (¬ some_inverted frame ord_pos ap_rad) as Hnone.
    { intros (i & c & Hi & Hc & Hinv).
      specialize (Herr (i, c) (proj2 (elem_of_pairs _ _ _ _) (conj Hi Hc))).
      unfold collect_error in Herr. cbn [fst snd] in Herr.
      rewrite (Hround i c Hi Hc) in Herr.
      apply inverted_at_true in Hinv. by rewrite Hinv in Herr. }
    destruct (filter _ _); split; done.
Qed.

Lemma flux_coo_ValueError_iff_witness :
  flux_coo (const3 1 10 1 1) (const3 1 10 1 1)
    (const_trace 1 1 (py_float (97 # 10))) (py_float (2 # 10))
  = Err ValueError
  ↔ some_inverted (const3 1 10 1 1) (const_trace 1 1 (py_float (97 # 10)))
      (py_float (2 # 10)).
Proof.
  apply (flux_coo_ValueError_iff (const3 1 10 1 1) (const3 1 10 1 1)
           (const_trace 1 1 (py_float (97 # 10))) (py_float (2 # 10))).
  - repeat split.
  - repeat split.
  - apply all_round_Forall, (bool_decide_unpack _). by vm_compute.
Defined.

(** X9. On arrays of matching shapes [flux_coo] raises a [TypeError] exactly
    when every pair is skipped by the test of line 108, a cube without
    integrations or without columns included: the list of arrays is empty
    and its total length [np.sum([])] is a float.  A NaN trace position is
    not skipped, and makes [flux_coo] raise another exception. *)
Theorem flux_coo_TypeError_iff (frame variance : array3)
    (ord_pos : array2_of npfloat) (ap_rad : npfloat) :
  same_shape3 frame variance →
  trace_shape frame ord_pos →
  flux_coo frame variance ord_pos ap_rad = Err TypeError
  ↔ ¬ some_valid frame ord_pos.
Proof.
  intros Hshape Hord. rewrite flux_coo_eq by done. unfold flux_coo_closed.
  pose proof (filter_valid_nil frame ord_pos) as Hnil.
  destruct (first_error _ _) as [e|] eqn:Herr.
  - apply first_error_Some in Herr as ([i c] & Hin & Herr).
    apply elem_of_pairs in Hin as [Hi Hc].
    apply collect_error_Some in Herr as (Hs & He & _).
    split; [intros [= ->]; by destruct He|].
    intros Hnone. destruct Hnone. by exists i, c.
  - destruct (filter _ _) as [|ic l] eqn:Hf.
    + split; [intros _; by apply Hnil | done].
    + split; [done|]. intros Hnone. apply Hnil in Hnone. done.
Qed.

Lemma flux_coo_TypeError_iff_witness :
  flux_coo (const3 0 4 3 1) (const3 0 4 3 1) (const_trace 0 3 (Num 1))
    (Num 1)
  = Err TypeError
  ↔ ¬ some_valid (const3 0 4 3 1) (const_trace 0 3 (Num 1)).
Proof.
  apply (flux_coo_TypeError_iff (const3 0 4 3 1) (const3 0 4 3 1)
           (const_trace 0 3 (Num 1)) (Num 1)).
  - repeat split.
  - repeat split.
Defined.

(** A NaN among the trace positions, and an infinite radius. *)
Example flux_coo_nan_position :
  flux_coo (const3 1 5 2 1) (const3 1 5 2 1)
    (Array2 1 2 (λ _ c, if decide (c = 0) then Num 2 else NaN)) (Num 1)
  = Err ValueError ∧
  flux_coo (const3 1 5 2 1) (const3 1 5 2 1) (const_trace 1 2 NaN) (Num 1)
  = Err ValueError ∧
  flux_coo example_cube example_cube example_trace (Inf false)
  = Err OverflowError.
Proof. by vm_compute. Qed.

(** X10. With a finite radius of half a pixel or more no window is
    inverted: [flux_coo] returns on all arrays of matching shapes, of at
    most [2^53] rows, whose trace positions are doubles and not NaN and some
    of which are not skipped. *)
Theorem flux_coo_returns_wide_radius (frame variance : array3)
    (ord_pos : array2_of npfloat) (ap_rad : Q) :
  same_shape3 frame variance →
  trace_shape frame ord_pos →
  (Z.of_nat (shape3_1 frame) <= 2 ^ 53)%Z →
  (∀ i c, i < shape3_0 frame → c < shape3_2 frame →
          is_position (at2 ord_pos i c)) →
  (1 # 2 <= ap_rad)%Q →
  (ap_rad + inject_Z (Z.of_nat (shape3_1 frame)) <= 2 ^ 1023)%Q →
  some_valid frame ord_pos →
  ∃ res, flux_coo frame variance ord_pos (Num ap_rad) = Ok res.
Proof.
  intros Hshape Hord Hrows Hpos Hrad Hbig Hsome.
  assert (Qabs ap_rad == ap_rad)%Q as Habs by (apply Qabs_pos; lra).
  apply flux_coo_returns_iff; [done..|]. split; [|split; [done|]].
  - intros i c Hi Hc. apply window_error_finite; [|by rewrite Habs].
    specialize (Hpos i c Hi Hc). by destruct (at2 ord_pos i c).
  - intros (i & c & Hi & Hc & Hs & i0 & i1 & Hw & Hlt).
    specialize (Hpos i c Hi Hc).
    apply skipped_false_inv in Hs as [Hnan|(q & Hq & H0 & H1)];
      [by rewrite Hnan in Hpos|].
    rewrite Hq in Hpos, Hw. cbn [is_position] in Hpos.
    set (N := Z.of_nat (shape3_1 frame)) in *.
    destruct (aperture_window_finite (shape3_1 frame) q ap_rad)
      as (_ & _ & Hw'); [done|done|by rewrite Habs|].
    rewrite Hw' in Hw. injection Hw as <- <-. fold N in Hlt.
    assert (0 < N)%Z as HN
      by (rewrite Zlt_Qlt; change (inject_Z 0) with 0%Q; lra).
    assert (0 <= py_round (b64_round (q + ap_rad)))%Z
      by (apply (py_round_b64_ge _ 0); [done|];
          change (inject_Z 0) with 0%Q; lra).
    assert (py_round (b64_round (q - ap_rad))
            <= py_round (b64_round (q + ap_rad)))%Z
      by (apply py_round_mono, b64_round_mono; lra).
    assert (py_round (b64_round (q - ap_rad)) <= N - 1)%Z; [|lia].
    destruct (Qlt_le_dec (inject_Z N - (1 # 2)) q) as [Hnear|Hfar].
    + pose proof (binary64_sub_half q N Hpos ltac:(lia) Hnear H1) as Hhalf.
      apply b64_round_exact in Hhalf.
      pose proof (b64_round_mono (q - ap_rad) (q - (1 # 2)) ltac:(lra))
        as Hmono.
      assert (py_round (b64_round (q - ap_rad)) < N)%Z; [|lia].
      apply py_round_below. lra.
    + apply py_round_b64_le; [lia|]. rewrite inject_Z_pred. lra.
Qed.

Lemma flux_coo_returns_wide_radius_witness :
  ∃ res,
    flux_coo (const3 1 10 1 1) (const3 1 10 1 1)
      (const_trace 1 1 (Num (b64_round (99 # 10)))) (Num (1 # 2))
    = Ok res.
Proof.
  apply (flux_coo_returns_wide_radius (const3 1 10 1 1) (const3 1 10 1 1)
           (const_trace 1 1 (Num (b64_round (99 # 10)))) (1 # 2)).
  - repeat split.
  - repeat split.
  - by vm_compute.
  - intros i c _ _. apply b64_round_binary64.
  - by vm_compute.
  - by vm_compute.
  - exists 0, 0. split; [simpl; lia|]. split; [simpl; lia|]. by vm_compute.
Defined.

Lemma flux_coo_length_witness :
  Z.of_nat (length example_pix) = sumZ (snd <$> cells example_table).
Proof.
  apply (flux_coo_length example_cube example_cube example_trace (Num 1)
           example_pix example_table).
  - repeat split.
  - repeat split.
  - by vm_compute.
Defined.

(** ** The table that [flux_coo] returns *)

Lemma sumZ_take_S (l : list Z) (k : nat) (n : Z) :
  l !! k = Some n → sumZ (take (S k) l) = (sumZ (take k l) + n)%Z.
Proof.
  intros Hk. rewrite (take_S_r _ _ _ Hk), sumZ_app. simpl. lia.
Qed.

Lemma sumZ_take_le (l : list Z) (k : nat) :
  Forall (λ n, (0 <= n)%Z) l → (sumZ (take k l) <= sumZ l)%Z.
Proof.
  intros Hl. destruct (decide (k ≤ length l)) as [Hk|Hk].
  - rewrite <- (firstn_all l) at 2. by apply sumZ_take_mono.
  - rewrite take_ge by lia. lia.
Qed.

(** X12. The table that [flux_coo] returns has the shape
    [(nints, ncols, 2)], and every pair of it names a slice of the flat
    list: the start and the count are not negative and the slice ends
    inside the list. *)
Theorem flux_coo_table_in_range (frame variance : array3)
    (ord_pos : array2_of npfloat) (ap_rad : npfloat)
    (pix_array : list sample) (col_array_pos : table) :
  same_shape3 frame variance →
  trace_shape frame ord_pos →
  flux_coo frame variance ord_pos ap_rad = Ok (pix_array, col_array_pos) →
  tshape_0 col_array_pos = shape3_0 frame ∧
  tshape_1 col_array_pos = shape3_2 frame ∧
  length (cells col_array_pos) = shape3_0 frame * shape3_2 frame ∧
  ∀ integration col,
    integration < shape3_0 frame → col < shape3_2 frame →
    ∃ start count,
      table_get col_array_pos integration col = Ok (start, count) ∧
      (0 <= start)%Z ∧ (0 <= count)%Z ∧
      (start + count <= Z.of_nat (length pix_array))%Z.
Proof.
  intros Hshape Hord Hflux.
  pose proof (flux_coo_Ok_inv _ _ _ _ _ Hshape Hord Hflux) as Hpre.
  pose proof Hpre as (_ & _ & _ & _ & Hall).
  rewrite flux_coo_returns in Hflux by done. injection Hflux as <- <-.
  cbn [tshape_0 tshape_1 cells].
  split; [done|]. split; [done|].
  split; [by rewrite length_cells_from, length_fmap, length_pairs|].
  intros i c Hi Hc. eexists _, _.
  split; [by apply table_get_closed|].
  set (counts := count_at frame ord_pos ap_rad <$> _).
  assert (Forall (λ n, (0 <= n)%Z) counts) as Hcounts
    by by apply Forall_fmap.
  assert (counts !! (i * shape3_2 frame + c)
          = Some (count_at frame ord_pos ap_rad (i, c))) as Hk
    by (subst counts; by rewrite list_lookup_fmap, pairs_lookup).
  split; [by apply sumZ_nonneg, Forall_take|].
  split.
  - rewrite Forall_forall in Hall. apply Hall, elem_of_pairs. done.
  - rewrite <- (sumZ_take_S _ _ _ Hk).
    rewrite (length_concat_runs frame variance ord_pos ap_rad) by done.
    by apply sumZ_take_le.
Qed.

Lemma flux_coo_table_in_range_witness :
  tshape_0 example_table = 1 ∧
  tshape_1 example_table = 3 ∧
  length (cells example_table) = 1 * 3 ∧
  ∀ integration col,
    integration < 1 → col < 3 →
    ∃ start count,
      table_get example_table integration col = Ok (start, count) ∧
      (0 <= start)%Z ∧ (0 <= count)%Z ∧
      (start + count <= Z.of_nat (length example_pix))%Z.
Proof.
  apply (flux_coo_table_in_range example_cube example_cube example_trace
           (Num 1) example_pix example_table).
  - repeat split.
  - repeat split.
  - by vm_compute.
Defined.

(** ** The samples that [flux_coo] returns *)

Lemma Qfloor_bounds (x : Q) (a b : Z) :
  (inject_Z a <= x)%Q → (x < inject_Z b)%Q → (a <= Qfloor x < b)%Z.
Proof.
  intros Ha Hb. split.
  - rewrite <- (Qfloor_Z a). by apply Qfloor_resp_le.
  - pose proof (Qfloor_le x). rewrite Zlt_Qlt. lra.
Qed.

Lemma Qabs_le_pow2_52 (r : Q) :
  (Qabs r <= 2 ^ 52)%Q →
  (- inject_Z (2 ^ 52) <= r ∧ r <= inject_Z (2 ^ 52))%Q.
Proof.
  intros Hr. apply Qabs_Qle_condition in Hr as [Hlo Hhi].
  rewrite <- (pow2_Z 52) by done. done.
Qed.

(** The rows of a window lie within the radius of the trace, give or take
    one row for the two roundings of each bound. *)
Lemma window_rows (nrows : nat) (q r : Q) (i0 i1 : Z) :
  (Z.of_nat nrows <= 2 ^ 52)%Z → (Qabs r <= 2 ^ 52)%Q →
  (0 <= q)%Q → (q < inject_Z (Z.of_nat nrows))%Q →
  aperture_window nrows (Num q) (Num r) = Ok (i0, i1) →
  (q - r - 1 < inject_Z i0)%Q ∧ (inject_Z i1 <= q + r + 1)%Q.
Proof.
  intros Hrows Hr H0 H1 Hw.
  pose proof (Qabs_le_pow2_52 r Hr) as [Hrlo Hrhi].
  assert (inject_Z (Z.of_nat nrows) <= inject_Z (2 ^ 52))%Q as HN
    by by rewrite <- Zle_Qle.
  assert (inject_Z (2 ^ 52) + inject_Z (2 ^ 52) <= 2 ^ 1023)%Q as Hbig
    by by vm_compute.
  assert (Qabs r <= inject_Z (2 ^ 52))%Q as Hr'
    by by rewrite <- (pow2_Z 52).
  destruct (aperture_window_finite nrows q r) as (_ & _ & Hw');
    [done|done|lra|].
  rewrite Hw' in Hw. injection Hw as <- <-.
  assert (inject_Z (2 ^ 53) == inject_Z (2 ^ 52) + inject_Z (2 ^ 52))%Q
    as H53 by reflexivity.
  assert (inject_Z (- 2 ^ 53) <= q - r)%Q as Hlo
    by (rewrite inject_Z_opp, H53; lra).
  assert (q + r < inject_Z (2 ^ 53))%Q as Hhi by (rewrite H53; lra).
  assert (inject_Z (- 2 ^ 53) <= q + r)%Q as Hlo'
    by (rewrite inject_Z_opp, H53; lra).
  assert (q - r < inject_Z (2 ^ 53))%Q as Hhi' by (rewrite H53; lra).
  pose proof (Qfloor_bounds (q - r) (- 2 ^ 53) (2 ^ 53) Hlo Hhi') as Hf0.
  pose proof (Qfloor_bounds (q + r) (- 2 ^ 53) (2 ^ 53) Hlo' Hhi) as Hf1.
  pose proof (py_round_b64_floor (q - r) Hf0) as [Hr0 _].
  pose proof (py_round_b64_floor (q + r) Hf1) as [_ Hr1].
  pose proof (Qlt_floor (q - r)) as Hq0. pose proof (Qfloor_le (q + r)) as Hq1.
  rewrite inject_Z_plus in Hq0. change (inject_Z 1) with 1%Q in Hq0.
  split.
  - assert (inject_Z (Qfloor (q - r))
            <= inject_Z (Z.max 0 (py_round (b64_round (q - r)))))%Q
      by (rewrite <- Zle_Qle; lia).
    lra.
  - assert (inject_Z (Z.min (py_round (b64_round (q + r)))
                        (Z.of_nat nrows - 1))
            <= inject_Z (Qfloor (q + r) + 1))%Q as Hle
      by (rewrite <- Zle_Qle; lia).
    rewrite inject_Z_plus in Hle. change (inject_Z 1) with 1%Q in Hle. lra.
Qed.




Lemma count_at_le (frame : array3) (ord_pos : array2_of npfloat) (r : Q)
    (ic : nat * nat) :
  (Z.of_nat (shape3_1 frame) <= 2 ^ 52)%Z → (Qabs r <= 2 ^ 52)%Q →
  valid_at frame ord_pos ic →
  rounds_at frame ord_pos (Num r) ic →
  (inject_Z (count_at frame ord_pos (Num r) ic) <= 2 * r + 2)%Q.
Proof.
  intros Hrows Hr Hs Hwe. unfold valid_at in Hs. unfold rounds_at in Hwe.
  destruct (window_error_valid _ _ _ Hs Hwe) as (i0 & i1 & Hw).
  destruct (aperture_window_position _ _ _ _ Hs Hw) as (q & Hq & H0 & H1).
  unfold count_at. rewrite Hs, Hw. rewrite Hq in Hw.
  destruct (window_rows _ _ _ _ _ Hrows Hr H0 H1 Hw) as [Hlo Hhi].
  unfold Z.sub. rewrite inject_Z_plus, inject_Z_opp. lra.
Qed.

Lemma sumZ_bound (B : Q) (l : list Z) :
  Forall (λ n, (inject_Z n <= B)%Q) l →
  (inject_Z (sumZ l) <= B * inject_Z (Z.of_nat (length l)))%Q.
Proof.
  induction 1 as [|n l Hn _ IH].
  - cbn [sumZ foldr length]. change (inject_Z (Z.of_nat 0)) with 0%Q.
    change (inject_Z 0) with 0%Q. rewrite Qmult_0_r. apply Qle_refl.
  - cbn [sumZ foldr length]. fold (sumZ l).
    rewrite Nat2Z.inj_succ, <- Z.add_1_r, !inject_Z_plus.
    change (inject_Z 1) with 1%Q. lra.
Qed.

(** X14. The flat list that [flux_coo] returns holds fewer than
    [2 * ap_rad + 2] samples for each pair of an integration and a column,
    and so at most [(2 * ap_rad + 2) * nints * ncols] in all: the size that
    the docstring gives as approximate, with one row more for the roundings
    of each bound of a window.  This is so for a frame of at most [2^52]
    rows and a radius of at most [2^52]. *)
Theorem flux_coo_size_bound (frame variance : array3)
    (ord_pos : array2_of npfloat) (ap_rad : Q) (pix_array : list sample)
    (col_array_pos : table) :
  same_shape3 frame variance →
  trace_shape frame ord_pos →
  (Z.of_nat (shape3_1 frame) <= 2 ^ 52)%Z →
  (Qabs ap_rad <= 2 ^ 52)%Q →
  flux_coo frame variance ord_pos (Num ap_rad)
  = Ok (pix_array, col_array_pos) →
  (inject_Z (Z.of_nat (length pix_array))
   <= (2 * ap_rad + 2)
      * inject_Z (Z.of_nat (shape3_0 frame * shape3_2 frame)))%Q.
Proof.
  intros Hshape Hord Hrows Hrad Hflux.
  pose proof (flux_coo_Ok_inv _ _ _ _ _ Hshape Hord Hflux) as Hpre.
  pose proof Hpre as (_ & _ & Hround & Hsome & Hall).
  rewrite flux_coo_returns in Hflux by done. injection Hflux as <- _.
  rewrite (length_concat_runs frame variance ord_pos (Num ap_rad)) by done.
  rewrite Forall_forall in Hround.
  assert (0 <= 2 * ap_rad + 2)%Q as Hwidth.
  { apply Exists_exists in Hsome as (ic & Hin & Hv).
    rewrite Forall_forall in Hall. specialize (Hall _ Hin).
    pose proof (count_at_le frame ord_pos ap_rad ic Hrows Hrad Hv
                  (Hround _ Hin)) as Hle.
    rewrite Zle_Qle in Hall. change (inject_Z 0) with 0%Q in Hall. lra. }
  rewrite <- (length_pairs (shape3_0 frame) (shape3_2 frame)).
  rewrite <- (length_fmap (count_at frame ord_pos (Num ap_rad))).
  apply sumZ_bound, Forall_fmap, Forall_forall. intros ic Hin. simpl.
  destruct (decide (valid_at frame ord_pos ic)) as [Hv|Hv].
  - apply count_at_le; [done..|]. by apply Hround.
  - apply not_false_iff_true in Hv. unfold count_at. rewrite Hv.
    by change (inject_Z 0) with 0%Q.
Qed.

Lemma flux_coo_size_bound_witness :
  (inject_Z (Z.of_nat (length example_pix))
   <= (2 * 1 + 2) * inject_Z (Z.of_nat (1 * 3)))%Q.
Proof.
  apply (flux_coo_size_bound example_cube example_cube example_trace 1
           example_pix example_table).
  - repeat split.
  - repeat split.
  - by vm_compute.
  - by vm_compute.
  - by vm_compute.
Defined.

(** The radius [1/2 - 2^-54] at the trace position 1: the window is rows 0
    and 1, one row more than [2 * ap_rad + 1] allows, and the first sample
    lies a whole row from the trace. *)
Example flux_coo_two_rows :
  flux_coo (const3 1 10 1 1) (const3 1 10 1 1) (const_trace 1 1 (Num 1))
    (Num (9007199254740991 # 18014398509481984))
  = Ok ([Sample (-1) 1 1 0; Sample 0 1 1 0], Table 1 1 [(0%Z, 2%Z)]).
Proof. by vm_compute. Qed.

Lemma run_at_agree (n0 n1 n2 : nat) (f f' v v' : nat → nat → nat → Q)
    (ord_pos : array2_of npfloat) (ap_rad : npfloat) (ic : nat * nat) :
  (∀ k r c, r + 1 < n1 → f k r c = f' k r c) →
  (∀ k r c, r + 1 < n1 → v k r c = v' k r c) →
  run_at (Array3 n0 n1 n2 f') (Array3 n0 n1 n2 v') ord_pos ap_rad ic
  = run_at (Array3 n0 n1 n2 f) (Array3 n0 n1 n2 v) ord_pos ap_rad ic.
Proof.
  intros Hf Hv. unfold run_at. cbn [shape3_1 at3].
  destruct (skipped _ _); [done|].
  destruct (aperture_window _ _ _) as [[i0 i1]|e] eqn:Hw; [|done].
  pose proof (aperture_window_bounds _ _ _ _ _ Hw) as [Hi0 Hi1].
  apply list_fmap_ext. intros j k Hk.
  apply list_elem_of_lookup_2, elem_of_seq in Hk as [_ Hk].
  by rewrite Hf, Hv by lia.
Qed.

(** X15. [flux_coo] never reads the last row of the cube or of its variance:
    two cubes and two variances that differ on the last row only give the
    same flat list and the same table, or the same exception. *)
Theorem flux_coo_ignores_last_row (frame frame' variance variance' : array3)
    (ord_pos : array2_of npfloat) (ap_rad : npfloat) :
  same_shape3 frame variance →
  same_shape3 frame frame' →
  same_shape3 variance variance' →
  trace_shape frame ord_pos →
  (∀ k r c, r + 1 < shape3_1 frame → at3 frame k r c = at3 frame' k r c) →
  (∀ k r c, r + 1 < shape3_1 frame →
            at3 variance k r c = at3 variance' k r c) →
  flux_coo frame' variance' ord_pos ap_rad
  = flux_coo frame variance ord_pos ap_rad.
Proof.
  intros Hfv Hff Hvv Hord Hf Hv.
  destruct frame as [n0 n1 n2 f], frame' as [n0' n1' n2' f'],
    variance as [m0 m1 m2 v], variance' as [m0' m1' m2' v'].
  destruct Hfv as (? & ? & ?), Hff as (? & ? & ?), Hvv as (? & ? & ?).
  cbn [shape3_0 shape3_1 shape3_2 at3] in *. subst.
  rewrite !flux_coo_eq by done.
  unfold flux_coo_closed. cbn [shape3_0 shape3_2].
  change (collect_error (Array3 m0' m1' m2' f') ord_pos ap_rad)
    with (collect_error (Array3 m0' m1' m2' f) ord_pos ap_rad).
  destruct (first_error _ _); [done|].
  change (filter (valid_at (Array3 m0' m1' m2' f') ord_pos) (pairs m0' m2'))
    with (filter (valid_at (Array3 m0' m1' m2' f) ord_pos) (pairs m0' m2')).
  destruct (filter _ _); [done|].
  change (count_at (Array3 m0' m1' m2' f') ord_pos ap_rad)
    with (count_at (Array3 m0' m1' m2' f) ord_pos ap_rad).
  do 3 f_equal. apply list_fmap_ext. intros _ ic _.
  by apply run_at_agree.
Qed.

Lemma flux_coo_ignores_last_row_witness :
  flux_coo
    (Array3 1 3 1 (λ _ r _, if decide (r = 2) then 7%Q else 1%Q))
    (Array3 1 3 1 (λ _ r _, if decide (r = 2) then 9%Q else 1%Q))
    (const_trace 1 1 (Num 1)) (Num 5)
  = flux_coo (const3 1 3 1 1) (const3 1 3 1 1) (const_trace 1 1 (Num 1))
      (Num 5).
Proof.
  apply (flux_coo_ignores_last_row (const3 1 3 1 1)
           (Array3 1 3 1 (λ _ r _, if decide (r = 2) then 7%Q else 1%Q))
           (const3 1 3 1 1)
           (Array3 1 3 1 (λ _ r _, if decide (r = 2) then 9%Q else 1%Q))
           (const_trace 1 1 (Num 1)) (Num 5)).
  - repeat split.
  - repeat split.
  - repeat split.
  - repeat split.
  - intros k r c Hr. simpl in *. by rewrite decide_False by lia.
  - intros k r c Hr. simpl in *. by rewrite decide_False by lia.
Defined.

(** X16. The last loop of [flux_coo] lays the arrays of the list end to end:
    for a list that is not empty the array it fills, slice after slice, is
    the concatenation of the list, with no row of the zeros it starts from
    left. *)
Theorem materialise_concat (pix_list : list (list sample)) :
  pix_list ≠ [] →
  materialise pix_list = Ok (concat pix_list).
Proof. apply materialise_eq. Qed.

Lemma materialise_concat_witness :
  materialise [[Sample 1 2 3 4]; []; [Sample 5 6 7 8; zero_sample]]
  = Ok [Sample 1 2 3 4; Sample 5 6 7 8; zero_sample].
Proof.
  apply (materialise_concat
           [[Sample 1 2 3 4]; []; [Sample 5 6 7 8; zero_sample]]).
  done.
Defined.

(** ** [norm_flux_coo], sample by sample *)

Lemma np_maximum_floor (x y : Q) : (y <= np_maximum x y)%Q.
Proof.
  unfold np_maximum. destruct (Qle_bool x y) eqn:Hxy; [apply Qle_refl|].
  apply Qlt_le_weak, Qnot_le_lt. intros Hle.
  apply Qle_bool_iff in Hle. congruence.
Qed.

Lemma scaled_runs (rs : nat * nat → list sample) (spec : option array2)
    (ps : list (nat * nat)) :
  Forall2 (λ s s', ∃ d, (min_norm <= d)%Q ∧ s' = scale d s)
    (concat (rs <$> ps))
    (concat ((λ ic, scale (norm_of spec ic.1 ic.2 (rs ic)) <$> rs ic)
               <$> ps)).
Proof.
  induction ps as [|ic ps IH]; [constructor|].
  rewrite !fmap_cons, !concat_cons. apply Forall2_app; [|exact IH].
  apply Forall2_fmap_r, Forall_Forall2_diag, Forall_forall.
  intros s _. eexists. split; [|done]. apply np_maximum_floor.
Qed.

(** X17. [norm_flux_coo] changes a sample of what [flux_coo] has returned in
    two fields only: for every sample there is a divisor [d], not below
    [min_norm = 0.01], by which its flux is divided, and by whose square its
    variance is divided; the distance from the trace and the column are
    kept.  No sample is divided by zero. *)
Theorem norm_flux_coo_pointwise (frame variance : array3)
    (ord_pos : array2_of npfloat) (ap_rad : npfloat) (spec : option array2)
    (h : heap) (pix_array : nat) (pix : list sample)
    (col_array_pos : table) :
  same_shape3 frame variance →
  trace_shape frame ord_pos →
  flux_coo frame variance ord_pos ap_rad = Ok (pix, col_array_pos) →
  spec_shape (shape3_0 frame) (shape3_2 frame) spec →
  h !! pix_array = Some pix →
  ∃ norm_array h' norm,
    norm_flux_coo h pix_array col_array_pos spec = Ok (norm_array, h') ∧
    h' !! norm_array = Some norm ∧
    Forall2
      (λ s s', ∃ d, (1 # 100 <= d)%Q ∧
                    s' = Sample (s_off s) (s_flux s / d) (s_var s / d ^ 2)
                           (s_col s))
      pix norm.
Proof.
  intros Hshape Hord Hflux Hspec Hpix.
  destruct (norm_flux_coo_closed frame variance ord_pos ap_rad spec
              Hshape Hord h pix_array pix col_array_pos Hflux Hspec Hpix)
    as [-> Hnorm].
  eexists _, _, _. split; [exact Hnorm|].
  split; [apply lookup_insert_eq|].
  apply (scaled_runs (run_at frame variance ord_pos ap_rad) spec).
Qed.

Lemma norm_flux_coo_pointwise_witness :
  ∃ norm_array h' norm,
    norm_flux_coo {[0 := example_pix]} 0 example_table None
    = Ok (norm_array, h') ∧
    h' !! norm_array = Some norm ∧
    Forall2
      (λ s s', ∃ d, (1 # 100 <= d)%Q ∧
                    s' = Sample (s_off s) (s_flux s / d) (s_var s / d ^ 2)
                           (s_col s))
      example_pix norm.
Proof.
  apply (norm_flux_coo_pointwise example_cube example_cube example_trace
           (Num 1)
           None {[0 := example_pix]} 0 example_pix example_table).
  - repeat split.
  - repeat split.
  - by vm_compute.
  - exact I.
  - apply lookup_singleton_eq.
Defined.

Lemma scale_var_nonneg (d : Q) (s : sample) :
  (min_norm <= d)%Q → (0 <= s_var s)%Q → (0 <= s_var (scale d s))%Q.
Proof.
  intros Hd Hs. assert (0 < min_norm)%Q as Hmin by done.
  unfold scale. cbn [s_var]. change (d ^ 2)%Q with (d * d)%Q.
  apply Qle_shift_div_l; [|lra].
  apply Qmult_lt_0_compat; lra.
Qed.

Lemma scaled_var_nonneg (l l' : list sample) :
  Forall2 (λ s s', ∃ d, (min_norm <= d)%Q ∧ s' = scale d s) l l' →
  Forall (λ s, (0 <= s_var s)%Q) l →
  Forall (λ s, (0 <= s_var s)%Q) l'.
Proof.
  induction 1 as [|s s' l l' (d & Hd & ->) _ IH]; intros Hvar;
    [constructor|].
  apply Forall_cons in Hvar as [Hs Hl].
  constructor; [apply scale_var_nonneg; [exact Hd | exact Hs] | exact (IH Hl)].
Qed.

(** X18. [norm_flux_coo] keeps variances from going negative: when no
    sample of what [flux_coo] has returned has a negative variance, no
    sample of the normalised array has one, whatever the fluxes and the
    reference spectrum are. *)
Theorem norm_flux_coo_variance_nonneg (frame variance : array3)
    (ord_pos : array2_of npfloat) (ap_rad : npfloat) (spec : option array2)
    (h : heap) (pix_array : nat) (pix : list sample)
    (col_array_pos : table) :
  same_shape3 frame variance →
  trace_shape frame ord_pos →
  flux_coo frame variance ord_pos ap_rad = Ok (pix, col_array_pos) →
  spec_shape (shape3_0 frame) (shape3_2 frame) spec →
  h !! pix_array = Some pix →
  Forall (λ s, (0 <= s_var s)%Q) pix →
  ∃ norm_array h' norm,
    norm_flux_coo h pix_array col_array_pos spec = Ok (norm_array, h') ∧
    h' !! norm_array = Some norm ∧
    Forall (λ s, (0 <= s_var s)%Q) norm.
Proof.
  intros Hshape Hord Hflux Hspec Hpix Hvar.
  destruct (norm_flux_coo_closed frame variance ord_pos ap_rad spec
              Hshape Hord h pix_array pix col_array_pos Hflux Hspec Hpix)
    as [-> Hnorm].
  eexists _, _, _. split; [exact Hnorm|].
  split; [apply lookup_insert_eq|].
  eapply scaled_var_nonneg; [|exact Hvar].
  apply (scaled_runs (run_at frame variance ord_pos ap_rad) spec).
Qed.

Lemma norm_flux_coo_variance_nonneg_witness :
  ∃ norm_array h' norm,
    norm_flux_coo {[0 := example_pix]} 0 example_table
      (Some (const2 1 3 (-5)))
    = Ok (norm_array, h') ∧
    h' !! norm_array = Some norm ∧
    Forall (λ s, (0 <= s_var s)%Q) norm.
Proof.
  apply (norm_flux_coo_variance_nonneg example_cube example_cube
           example_trace (Num 1) (Some (const2 1 3 (-5))) {[0 := example_pix]} 0
           example_pix example_table).
  - repeat split.
  - repeat split.
  - by vm_compute.
  - split; reflexivity.
  - apply lookup_singleton_eq.
  - unfold example_pix. repeat constructor; by vm_compute.
Defined.

(** X19. Without a reference spectrum the run of a pair is divided by the
    sum of its own fluxes: after [norm_flux_coo] the fluxes of the run add
    up to 1 when that sum is [min_norm = 0.01] or more, and to the sum
    divided by [min_norm] when it is less, an empty run included. *)
Theorem norm_flux_coo_self_normalised (frame variance : array3)
    (ord_pos : array2_of npfloat) (ap_rad : npfloat) (h : heap)
    (pix_array : nat) (pix : list sample) (col_array_pos : table) :
  same_shape3 frame variance →
  trace_shape frame ord_pos →
  flux_coo frame variance ord_pos ap_rad = Ok (pix, col_array_pos) →
  h !! pix_array = Some pix →
  ∃ norm_array h' norm,
    norm_flux_coo h pix_array col_array_pos None = Ok (norm_array, h') ∧
    h' !! norm_array = Some norm ∧
    ∀ integration col start count,
      integration < shape3_0 frame → col < shape3_2 frame →
      table_get col_array_pos integration col = Ok (start, count) →
      let own_sum := np_sum (s_flux <$> py_slice pix start (start + count)) in
      let total := np_sum (s_flux <$> py_slice norm start (start + count)) in
      ((min_norm <= own_sum → total == 1) ∧
       (own_sum < min_norm → total == own_sum / min_norm))%Q.
Proof.
  intros Hshape Hord Hflux Hpix.
  destruct (norm_flux_coo_closed frame variance ord_pos ap_rad None
              Hshape Hord h pix_array pix col_array_pos Hflux I Hpix)
    as [Hpixeq Hnorm].
  eexists _, _, _. split; [exact Hnorm|].
  split; [apply lookup_insert_eq|].
  intros i c start count Hi Hc Hget.
  destruct (normalised_slices frame variance ord_pos ap_rad None
              Hshape Hord pix col_array_pos i c start count Hflux Hi Hc Hget)
    as [Hrun Hnrun].
  cbv zeta. rewrite Hrun, Hnrun. cbn [fst snd].
  rewrite flux_scale, np_sum_div. unfold norm_of.
  set (own_sum := np_sum (s_flux <$> _)) in *.
  assert (0 < min_norm)%Q as Hmin by done.
  split.
  - intros Hge. rewrite np_maximum_ge by done.
    field. intros Hzero. rewrite Hzero in Hge. lra.
  - intros Hlt. by rewrite np_maximum_lt.
Qed.

Lemma norm_flux_coo_self_normalised_witness :
  ∃ norm_array h' norm,
    norm_flux_coo {[0 := example_pix]} 0 example_table None
    = Ok (norm_array, h') ∧
    h' !! norm_array = Some norm ∧
    ∀ integration col start count,
      integration < 1 → col < 3 →
      table_get example_table integration col = Ok (start, count) →
      let own_sum :=
        np_sum (s_flux <$> py_slice example_pix start (start + count)) in
      let total := np_sum (s_flux <$> py_slice norm start (start + count)) in
      ((min_norm <= own_sum → total == 1) ∧
       (own_sum < min_norm → total == own_sum / min_norm))%Q.
Proof.
  apply (norm_flux_coo_self_normalised example_cube example_cube
           example_trace (Num 1) {[0 := example_pix]} 0 example_pix
           example_table).
  - repeat split.
  - repeat split.
  - by vm_compute.
  - apply lookup_singleton_eq.
Defined.

(** ** The three functions together *)

Section box_sums.
Variables (frame variance : array3) (ord_pos : array2_of npfloat)
  (ap_rad : npfloat).
Hypothesis Hshape : same_shape3 frame variance.
Hypothesis Hord : trace_shape frame ord_pos.

Lemma trace_row_lookup (i c : nat) :
  c < shape3_2 frame → trace_row ord_pos i !! c = Some (at2 ord_pos i c).
Proof.
  intros Hc. destruct Hord as [_ Hcols]. unfold trace_row.
  by rewrite list_lookup_fmap, lookup_seq_lt by lia.
Qed.

Lemma extract_cell_run (i c : nat) :
  c < shape3_2 frame →
  (0 <= count_at frame ord_pos ap_rad (i, c))%Z →
  extract_cell (shape3_1 frame) (integration_frame frame i)
    (trace_row ord_pos i) ap_rad false c
  = Num (np_sum (s_flux <$> run_at frame variance ord_pos ap_rad (i, c))) ∧
  extract_cell (shape3_1 frame) (integration_frame variance i)
    (trace_row ord_pos i) ap_rad false c
  = Num (np_sum (s_var <$> run_at frame variance ord_pos ap_rad (i, c))).
Proof.
  intros Hc. unfold extract_cell, count_at, run_at. cbn [fst snd].
  rewrite trace_row_lookup by done.
  destruct (skipped _ _); [done|].
  destruct (aperture_window _ _ _) as [[i0 i1]|e] eqn:Hw; [|done].
  intros Hcount.
  pose proof (aperture_window_bounds _ _ _ _ _ Hw) as [Hi0 Hi1].
  destruct Hshape as (_ & Hrows & _).
  change (column2 (integration_frame frame i) c) with (column3 frame i c).
  change (column2 (integration_frame variance i) c)
    with (column3 variance i c).
  rewrite !py_slice_column3 by lia.
  by rewrite <- !list_fmap_compose.
Qed.

(** The windows of one integration can be rounded when those of the cube
    can. *)
Lemma windows_round_integration (i : nat) :
  i < shape3_0 frame →
  Forall (rounds_at frame ord_pos ap_rad)
    (pairs (shape3_0 frame) (shape3_2 frame)) →
  windows_round (shape3_1 frame) (trace_row ord_pos i) ap_rad.
Proof.
  intros Hi Hround. destruct Hord as [_ Hcols].
  unfold windows_round, trace_row. rewrite Hcols.
  apply Forall_fmap, Forall_forall. intros c Hc.
  apply elem_of_seq in Hc as [_ Hc]. rewrite Forall_forall in Hround.
  apply (Hround (i, c)). by apply elem_of_pairs.
Qed.

Lemma aperture_extract_integration (i : nat) :
  windows_round (shape3_1 frame) (trace_row ord_pos i) ap_rad →
  aperture_extract (integration_frame frame i)
    (integration_frame variance i) (trace_row ord_pos i) ap_rad false
  = Ok (extract_cell (shape3_1 frame) (integration_frame frame i)
          (trace_row ord_pos i) ap_rad false <$> seq 0 (shape3_2 frame),
        extract_cell (shape3_1 frame) (integration_frame variance i)
          (trace_row ord_pos i) ap_rad false <$> seq 0 (shape3_2 frame)).
Proof.
  intros Hwin. destruct Hshape as (_ & Hrows & Hcols), Hord as [_ Hocols].
  apply (aperture_extract_eq (integration_frame frame i)
           (integration_frame variance i)).
  - split; done.
  - unfold trace_row. by rewrite length_fmap, length_seq.
  - exact Hwin.
Qed.
End box_sums.

(** X20. The plain sum of [aperture_extract] on one integration of a cube is
    the sum over the run that [flux_coo] returns for the same integration
    and column: the spectrum is the sum of the fluxes of the run, the
    variance the sum of its variances, and both are 0 for a column that
    [flux_coo] has skipped. *)
Theorem aperture_extract_sums_runs (frame variance : array3)
    (ord_pos : array2_of npfloat) (ap_rad : npfloat) (pix : list sample)
    (col_array_pos : table) (integration : nat) :
  same_shape3 frame variance →
  trace_shape frame ord_pos →
  flux_coo frame variance ord_pos ap_rad = Ok (pix, col_array_pos) →
  integration < shape3_0 frame →
  ∃ spec var,
    aperture_extract (integration_frame frame integration)
      (integration_frame variance integration)
      (trace_row ord_pos integration) ap_rad false
    = Ok (spec, var) ∧
    ∀ col start count,
      col < shape3_2 frame →
      table_get col_array_pos integration col = Ok (start, count) →
      spec !! col
      = Some (Num (np_sum (s_flux <$> py_slice pix start (start + count)))) ∧
      var !! col
      = Some (Num (np_sum (s_var <$> py_slice pix start (start + count)))).
Proof.
  intros Hshape Hord Hflux Hi.
  pose proof (flux_coo_Ok_inv _ _ _ _ _ Hshape Hord Hflux) as Hpre.
  pose proof Hpre as (_ & _ & Hround & _ & Hall).
  eexists _, _.
  split; [by apply aperture_extract_integration,
                windows_round_integration|].
  intros c start count Hc Hget.
  destruct (normalised_slices frame variance ord_pos ap_rad None
              Hshape Hord pix col_array_pos integration c start count
              Hflux Hi Hc Hget) as [-> _].
  rewrite !list_lookup_fmap, !lookup_seq_lt by done. simpl.
  destruct (extract_cell_run frame variance ord_pos ap_rad Hshape Hord
              integration c Hc) as [-> ->]; [|done].
  rewrite Forall_forall in Hall. by apply Hall, elem_of_pairs.
Qed.

Lemma aperture_extract_sums_runs_witness :
  ∃ spec var,
    aperture_extract (integration_frame example_cube 0)
      (integration_frame example_cube 0) (trace_row example_trace 0)
      (Num 1) false
    = Ok (spec, var) ∧
    ∀ col start count,
      col < 3 →
      table_get example_table 0 col = Ok (start, count) →
      spec !! col
      = Some (Num (np_sum
                     (s_flux <$> py_slice example_pix start (start + count))))
      ∧ var !! col
        = Some (Num (np_sum
                       (s_var <$> py_slice example_pix start
                                    (start + count)))).
Proof.
  apply (aperture_extract_sums_runs example_cube example_cube example_trace
           (Num 1) example_pix example_table 0).
  - repeat split.
  - repeat split.
  - by vm_compute.
  - simpl. lia.
Defined.

(** X21. A reference spectrum that holds, for every integration, the plain
    sum of [aperture_extract] makes no difference: [norm_flux_coo] returns
    with it what it returns without a reference spectrum. *)
Theorem norm_flux_coo_box_reference (frame variance : array3)
    (ord_pos : array2_of npfloat) (ap_rad : npfloat) (spec : array2)
    (h : heap) (pix_array : nat) (pix : list sample)
    (col_array_pos : table) :
  same_shape3 frame variance →
  trace_shape frame ord_pos →
  flux_coo frame variance ord_pos ap_rad = Ok (pix, col_array_pos) →
  spec_shape (shape3_0 frame) (shape3_2 frame) (Some spec) →
  h !! pix_array = Some pix →
  (∀ integration col,
     integration < shape3_0 frame → col < shape3_2 frame →
     ∃ sp vr,
       aperture_extract (integration_frame frame integration)
         (integration_frame variance integration)
         (trace_row ord_pos integration) ap_rad false
       = Ok (sp, vr) ∧
       sp !! col = Some (Num (at2 spec integration col))) →
  norm_flux_coo h pix_array col_array_pos (Some spec)
  = norm_flux_coo h pix_array col_array_pos None.
Proof.
  intros Hshape Hord Hflux Hspec Hpix Hbox.
  pose proof (flux_coo_Ok_inv _ _ _ _ _ Hshape Hord Hflux) as Hpre.
  pose proof Hpre as (_ & _ & Hround & _ & Hall).
  destruct (norm_flux_coo_closed frame variance ord_pos ap_rad (Some spec)
              Hshape Hord h pix_array pix col_array_pos Hflux Hspec Hpix)
    as [_ ->].
  destruct (norm_flux_coo_closed frame variance ord_pos ap_rad None
              Hshape Hord h pix_array pix col_array_pos Hflux I Hpix)
    as [_ ->].
  do 4 f_equal. apply list_fmap_ext. intros j [i c] Hic.
  apply list_elem_of_lookup_2, elem_of_pairs in Hic as [Hi Hc].
  cbn [fst snd]. f_equal. unfold norm_of. f_equal.
  destruct (Hbox i c Hi Hc) as (sp & vr & Hsp & Hcell).
  rewrite aperture_extract_integration in Hsp
    by (done || by apply windows_round_integration).
  injection Hsp as <- _.
  rewrite list_lookup_fmap, lookup_seq_lt in Hcell by done. simpl in Hcell.
  destruct (extract_cell_run frame variance ord_pos ap_rad Hshape Hord
              i c Hc) as [Hrun _].
  { rewrite Forall_forall in Hall. by apply Hall, elem_of_pairs. }
  rewrite Hrun in Hcell. by injection Hcell as <-.
Qed.

Lemma norm_flux_coo_box_reference_witness :
  norm_flux_coo {[0 := example_pix]} 0 example_table
    (Some (const2 1 3 (np_sum [1; 1]%Q)))
  = norm_flux_coo {[0 := example_pix]} 0 example_table None.
Proof.
  apply (norm_flux_coo_box_reference example_cube example_cube example_trace
           (Num 1) (const2 1 3 (np_sum [1; 1]%Q)) {[0 := example_pix]} 0
           example_pix example_table).
  - repeat split.
  - repeat split.
  - by vm_compute.
  - split; reflexivity.
  - apply lookup_singleton_eq.
  - intros i c Hi Hc. eexists _, _. split; [by vm_compute|].
    simpl in Hi, Hc.
    destruct c as [|[|[|c]]]; [reflexivity..|lia].
Defined.

(** ** [norm_flux_coo] on any table *)

Lemma for_each_outcome {A S : Type} (I : S → Prop) (good : A → bool)
    (e0 : pyerr) (l : list A) (body : A → S → result S) (s : S) :
  (∀ x s', x ∈ l → I s' →
     if good x then ∃ s'', body x s' = Ok s'' ∧ I s''
     else body x s' = Err e0) →
  I s →
  if forallb good l then ∃ s', for_each l body s = Ok s' ∧ I s'
  else for_each l body s = Err e0.
Proof.
  revert s. induction l as [|x l IH]; intros s Hbody Hs.
  - simpl. by exists s.
  - rewrite for_each_cons. cbn [forallb].
    pose proof (Hbody x s (list_elem_of_here _ _) Hs) as Hx.
    destruct (good x); cbn [andb].
    + destruct Hx as (s' & -> & Hs'). rewrite bind_Ok.
      apply IH; [|done]. intros y t Hy. apply Hbody.
      by apply list_elem_of_further.
    + by rewrite Hx.
Qed.

Lemma zip_with_same_place (set : Q → sample → sample) (vals : list Q)
    (arr : list sample) :
  (∀ x s, same_place s (set x s)) →
  length vals = length arr →
  Forall2 same_place arr (zip_with set vals arr).
Proof.
  intros Hset. revert vals.
  induction arr as [|s arr IH]; intros [|x vals] Hlen; try done.
  cbn [zip_with]. constructor; [apply Hset|]. apply IH. by injection Hlen.
Qed.

Lemma same_place_refl (l : list sample) : Forall2 same_place l l.
Proof. apply Forall_Forall2_diag, Forall_forall. by intros s _. Qed.

Lemma same_place_trans (l1 l2 l3 : list sample) :
  Forall2 same_place l1 l2 → Forall2 same_place l2 l3 →
  Forall2 same_place l1 l3.
Proof.
  intros H12. revert l3.
  induction H12 as [|x y l1 l2 [Hoff Hcol] _ IH]; intros l3 H23.
  - by inversion H23.
  - inversion H23 as [|y' z l2' l3' [Hoff' Hcol'] Hrest]; subst.
    constructor; [split; congruence | by apply IH].
Qed.

Lemma assign_slice_col_same_place (set : Q → sample → sample)
    (g : sample → Q) (l l0 : list sample) (i0 i1 : Z) :
  (∀ x s, same_place s (set x s)) →
  length l = length l0 →
  ∃ l', assign_slice_col set l i0 i1 (g <$> py_slice l0 i0 i1) = Ok l' ∧
        Forall2 same_place l l'.
Proof.
  intros Hset Hlen. unfold assign_slice_col, py_slice. rewrite <- Hlen.
  destruct (slice_range (length l) i0 i1) as [a n].
  rewrite assign_col_same
    by (rewrite length_fmap, !length_take, !length_drop; lia).
  eexists. split; [done|].
  rewrite <- (take_drop a l) at 1.
  rewrite <- (take_drop n (drop a l)) at 1.
  rewrite drop_drop.
  apply Forall2_app; [apply same_place_refl|].
  apply Forall2_app; [|apply same_place_refl].
  apply zip_with_same_place; [done|].
  rewrite length_fmap, !length_take, !length_drop. lia.
Qed.

Section any_table.
Variables (tab : table) (spec : option array2).
Variables (h0 : heap) (pix_array norm_array : nat) (pix : list sample).
Hypothesis Hwf : table_wf tab.
Hypothesis Hne : norm_array ≠ pix_array.
Hypothesis Hpix : h0 !! pix_array = Some pix.

(** The store while the loops run: the copy has changed in fluxes and
    variances only, and nothing but the copy has changed. *)
Let inv (h : heap) : Prop :=
  (∃ norm, h !! norm_array = Some norm ∧ Forall2 same_place pix norm) ∧
  ∀ l, l ≠ norm_array → h !! l = h0 !! l.

Lemma normalise_column_outcome (ic : nat * nat) (h : heap) :
  ic ∈ pairs (tshape_0 tab) (tshape_1 tab) →
  inv h →
  if covered spec ic
  then ∃ h',
         normalise_column pix_array norm_array tab spec ic.1 ic.2 h = Ok h'
         ∧ inv h'
  else normalise_column pix_array norm_array tab spec ic.1 ic.2 h
       = Err IndexError.
Proof.
  destruct ic as [i c]. intros Hin [(norm & Hnorm & Hsame) Hrest].
  apply elem_of_pairs in Hin as [Hi Hc]. cbn [fst snd].
  assert (h !! pix_array = Some pix) as Hp by by rewrite Hrest.
  unfold normalise_column, table_get, index1.
  rewrite decide_True by done.
  destruct (lookup_lt_is_Some_2 (cells tab) (i * tshape_1 tab + c))
    as [[ind0 count] ->]; [rewrite Hwf; nia|].
  rewrite bind_Ok.
  rewrite (lookup_total_correct _ _ _ Hp), (lookup_total_correct _ _ _ Hnorm).
  assert (length norm = length pix) as Hlen
    by (symmetry; by eapply Forall2_length).
  assert (∀ x s, same_place s (set_flux x s)) as Hflux by done.
  assert (∀ x s, same_place s (set_var x s)) as Hvar by done.
  assert (∀ norm_sum : Q,
    ∃ h',
      (new ← assign_slice_col set_flux norm ind0 (ind0 + count)
               ((λ x, x / np_maximum norm_sum min_norm)%Q <$>
                  (s_flux <$> py_slice pix ind0 (ind0 + count)));
       let h1 := <[norm_array := new]> h in
       new ← assign_slice_col set_var (h1 !!! norm_array) ind0
               (ind0 + count)
               ((λ x, x / np_maximum norm_sum min_norm ^ 2)%Q <$>
                  (s_var <$> py_slice (h1 !!! pix_array) ind0
                               (ind0 + count)));
       Ok (<[norm_array := new]> h1)) = Ok h' ∧ inv h') as Hbody.
  { intros norm_sum. rewrite <- !list_fmap_compose.
    destruct (assign_slice_col_same_place set_flux
                ((λ x, x / np_maximum norm_sum min_norm)%Q ∘ s_flux)
                norm pix ind0 (ind0 + count) Hflux Hlen)
      as (norm1 & -> & Hsame1).
    rewrite bind_Ok. cbv zeta.
    rewrite lookup_total_insert_eq, lookup_total_insert_ne by done.
    rewrite (lookup_total_correct _ _ _ Hp), <- !list_fmap_compose.
    assert (length norm1 = length pix) as Hlen1
      by (rewrite <- Hlen; symmetry; by eapply Forall2_length).
    destruct (assign_slice_col_same_place set_var
                ((λ x, x / np_maximum norm_sum min_norm ^ 2)%Q ∘ s_var)
                norm1 pix ind0 (ind0 + count) Hvar Hlen1)
      as (norm2 & -> & Hsame2).
    rewrite bind_Ok. eexists. split; [done|]. split.
    - exists norm2. split; [apply lookup_insert_eq|].
      eapply same_place_trans; [exact Hsame|].
      eapply same_place_trans; [exact Hsame1 | exact Hsame2].
    - intros l Hl. by rewrite !lookup_insert_ne, Hrest. }
  destruct spec as [s|]; cbn [covered fst snd].
  - unfold index2. case_bool_decide as Hcov.
    + rewrite decide_True, bind_Ok by done. apply Hbody.
    + by rewrite decide_False.
  - rewrite bind_Ok. apply Hbody.
Qed.

Lemma norm_loop_outcome :
  if forallb (covered spec) (pairs (tshape_0 tab) (tshape_1 tab))
  then ∃ h',
         for_each (pairs (tshape_0 tab) (tshape_1 tab))
           (λ ic, normalise_column pix_array norm_array tab spec ic.1 ic.2)
           (<[norm_array := pix]> h0)
         = Ok h' ∧ inv h'
  else for_each (pairs (tshape_0 tab) (tshape_1 tab))
         (λ ic, normalise_column pix_array norm_array tab spec ic.1 ic.2)
         (<[norm_array := pix]> h0)
       = Err IndexError.
Proof.
  apply (for_each_outcome inv (covered spec) IndexError).
  - intros ic h. apply normalise_column_outcome.
  - split.
    + exists pix. split; [apply lookup_insert_eq | apply same_place_refl].
    + intros l Hl. by rewrite lookup_insert_ne.
Qed.
End any_table.

(** X22. [norm_flux_coo] returns on every array of samples and every table,
    runs that overlap, leave the array or have a negative count included, as
    long as the reference spectrum, when there is one, is as large as the
    table.  The array it returns is a new one of the length of the input; its
    samples keep their distance from the trace and their column; no other
    array of the store is written. *)
Theorem norm_flux_coo_any_table (h : heap) (pix_array : nat)
    (pix : list sample) (col_array_pos : table) (spec : option array2) :
  h !! pix_array = Some pix →
  table_wf col_array_pos →
  spec_covers col_array_pos spec →
  ∃ norm_array h' norm,
    norm_flux_coo h pix_array col_array_pos spec = Ok (norm_array, h') ∧
    norm_array ≠ pix_array ∧
    h' !! norm_array = Some norm ∧
    (∀ l, l ≠ norm_array → h' !! l = h !! l) ∧
    length norm = length pix ∧
    Forall2 same_place pix norm.
Proof.
  intros Hpix Hwf Hcov. unfold norm_flux_coo, copy.
  assert (fresh (dom h) ≠ pix_array) as Hne.
  { intros Heq. apply (is_fresh (dom h)). rewrite Heq.
    by eapply elem_of_dom_2. }
  rewrite for_range_nested, (lookup_total_correct _ _ _ Hpix).
  pose proof (norm_loop_outcome col_array_pos spec h pix_array
                (fresh (dom h)) pix Hwf Hne Hpix) as Hloop.
  assert (forallb (covered spec)
            (pairs (tshape_0 col_array_pos) (tshape_1 col_array_pos))
          = true) as Hall.
  { apply forallb_forall. intros [i c] Hin.
    apply list_elem_of_In, elem_of_pairs in Hin as [Hi Hc].
    destruct spec as [s|]; [|done]. destruct Hcov as [H0 H1].
    cbn [covered]. apply bool_decide_eq_true. cbn [fst snd]. lia. }
  rewrite Hall in Hloop.
  destruct Hloop as (h' & -> & (norm & Hnorm & Hsame) & Hrest).
  rewrite bind_Ok. exists (fresh (dom h)), h', norm.
  split; [done|]. split; [done|]. split; [done|]. split; [done|].
  split; [symmetry; by eapply Forall2_length | done].
Qed.

Lemma norm_flux_coo_any_table_witness :
  ∃ norm_array h' norm,
    norm_flux_coo {[7 := [Sample 1 2 3 4; Sample 5 6 7 8]]} 7
      (Table 1 2 [(0, 2); (-1, 5)]%Z) None
    = Ok (norm_array, h') ∧
    norm_array ≠ 7 ∧
    h' !! norm_array = Some norm ∧
    (∀ l, l ≠ norm_array →
          h' !! l
          = ({[7 := [Sample 1 2 3 4; Sample 5 6 7 8]]} : heap) !! l) ∧
    length norm = 2 ∧
    Forall2 same_place [Sample 1 2 3 4; Sample 5 6 7 8] norm.
Proof.
  apply (norm_flux_coo_any_table
           {[7 := [Sample 1 2 3 4; Sample 5 6 7 8]]} 7
           [Sample 1 2 3 4; Sample 5 6 7 8]
           (Table 1 2 [(0, 2); (-1, 5)]%Z) None).
  - apply lookup_singleton_eq.
  - reflexivity.
  - exact I.
Defined.

(** X23. A reference spectrum without a value for some pair of the table
    makes [norm_flux_coo] raise an [IndexError], whatever the samples and the
    cells of the table are. *)
Theorem norm_flux_coo_short_spec (h : heap) (pix_array : nat)
    (pix : list sample) (col_array_pos : table) (spec : array2)
    (integration col : nat) :
  h !! pix_array = Some pix →
  table_wf col_array_pos →
  integration < tshape_0 col_array_pos → col < tshape_1 col_array_pos →
  ¬ (integration < shape2_0 spec ∧ col < shape2_1 spec) →
  norm_flux_coo h pix_array col_array_pos (Some spec) = Err IndexError.
Proof.
  intros Hpix Hwf Hi Hc Hout. unfold norm_flux_coo, copy.
  assert (fresh (dom h) ≠ pix_array) as Hne.
  { intros Heq. apply (is_fresh (dom h)). rewrite Heq.
    by eapply elem_of_dom_2. }
  rewrite for_range_nested, (lookup_total_correct _ _ _ Hpix).
  pose proof (norm_loop_outcome col_array_pos (Some spec) h pix_array
                (fresh (dom h)) pix Hwf Hne Hpix) as Hloop.
  destruct (forallb _ _) eqn:Hall.
  - rewrite forallb_forall in Hall.
    specialize (Hall (integration, col)).
    rewrite <- list_elem_of_In, elem_of_pairs in Hall.
    cbn [covered] in Hall. rewrite bool_decide_eq_true in Hall.
    destruct Hout. by apply Hall.
  - by rewrite Hloop.
Qed.

Lemma norm_flux_coo_short_spec_witness :
  norm_flux_coo {[0 := example_pix]} 0 example_table (Some (const2 1 2 1))
  = Err IndexError.
Proof.
  apply (norm_flux_coo_short_spec {[0 := example_pix]} 0 example_pix
           example_table (const2 1 2 1) 0 2).
  - apply lookup_singleton_eq.
  - reflexivity.
  - simpl. lia.
  - simpl. lia.
  - simpl. lia.
Defined.

(** ** Columns of [aperture_extract] *)

(** X24. [aperture_extract] treats every column on its own: the spectrum of
    a column is a function of that column of the frame and of its trace
    position, and the variance of a column a function of that column of the
    variance and of its trace position.  Neither output reads the other
    array.  This is so for traces that make [round] raise in no column, on
    which [aperture_extract] returns. *)
Theorem aperture_extract_column_alone (frame frame' variance variance' :
    array2) (ord_pos ord_pos' : list npfloat) (ap_rad : npfloat)
    (uniform : bool) (col : nat) :
  same_shape2 frame variance →
  same_shape2 frame' variance' →
  same_shape2 frame frame' →
  length ord_pos = shape2_1 frame →
  length ord_pos' = shape2_1 frame →
  windows_round (shape2_0 frame) ord_pos ap_rad →
  windows_round (shape2_0 frame) ord_pos' ap_rad →
  col < shape2_1 frame →
  ord_pos !! col = ord_pos' !! col →
  ∃ spec var spec' var',
    aperture_extract frame variance ord_pos ap_rad uniform = Ok (spec, var) ∧
    aperture_extract frame' variance' ord_pos' ap_rad uniform
    = Ok (spec', var') ∧
    ((∀ r, at2 frame r col = at2 frame' r col) → spec !! col = spec' !! col) ∧
    ((∀ r, at2 variance r col = at2 variance' r col) →
     var !! col = var' !! col).
Proof.
  intros Hfv Hfv' Hff Hord Hord' Hwin Hwin' Hcol Hp.
  destruct Hff as [Hrows Hcols].
  eexists _, _, _, _.
  split; [by apply aperture_extract_eq|].
  split; [apply aperture_extract_eq; [done|congruence|by rewrite <- Hrows]|].
  rewrite <- Hrows, <- Hcols.
  rewrite !list_lookup_fmap, !lookup_seq_lt by done. simpl.
  unfold extract_cell. rewrite <- Hp.
  assert (∀ a a' : array2,
            shape2_0 a = shape2_0 a' →
            (∀ r, at2 a r col = at2 a' r col) →
            column2 a col = column2 a' col) as Hcolumn.
  { intros a a' Ha Hagree. unfold column2. rewrite <- Ha.
    apply list_fmap_ext. intros _ r _. apply Hagree. }
  split; intros Hagree.
  - by rewrite (Hcolumn frame frame').
  - rewrite (Hcolumn variance variance'); [done| |done].
    destruct Hfv as [<- _], Hfv' as [<- _]. done.
Qed.

Lemma aperture_extract_column_alone_witness :
  ∃ spec var spec' var',
    aperture_extract (const2 5 2 1) (const2 5 2 3) [Num 2; Num 1] (Num 1)
      true
    = Ok (spec, var) ∧
    aperture_extract (Array2 5 2 (λ _ c, if decide (c = 0) then 1%Q else 8%Q))
      (const2 5 2 4) [Num 2; Num 4] (Num 1) true
    = Ok (spec', var') ∧
    ((∀ r, at2 (const2 5 2 1) r 0
           = at2 (Array2 5 2 (λ _ c, if decide (c = 0) then 1%Q else 8%Q)) r 0)
     → spec !! 0 = spec' !! 0) ∧
    ((∀ r, at2 (const2 5 2 3) r 0 = at2 (const2 5 2 4) r 0) →
     var !! 0 = var' !! 0).
Proof.
  apply (aperture_extract_column_alone (const2 5 2 1)
           (Array2 5 2 (λ _ c, if decide (c = 0) then 1%Q else 8%Q))
           (const2 5 2 3) (const2 5 2 4) [Num 2; Num 1] [Num 2; Num 4]
           (Num 1) true 0).
  - split; reflexivity.
  - split; reflexivity.
  - split; reflexivity.
  - reflexivity.
  - reflexivity.
  - apply (bool_decide_unpack _). by vm_compute.
  - apply (bool_decide_unpack _). by vm_compute.
  - simpl. lia.
  - reflexivity.
Defined.

Lemma np_sum_const (v : Q) (l : list Q) :
  Forall (λ x, x = v) l →
  (np_sum l == inject_Z (Z.of_nat (length l)) * v)%Q.
Proof.
  induction 1 as [|x l -> _ IH].
  - simpl. change (inject_Z 0) with 0%Q. ring.
  - cbn [np_sum foldr length]. fold (np_sum l).
    rewrite IH, Nat2Z.inj_succ, <- Z.add_1_r, inject_Z_plus.
    change (inject_Z 1) with 1%Q. ring.
Qed.

Lemma py_slice_const2 (n0 n1 : nat) (v : Q) (col : nat) (i0 i1 : Z) :
  Forall (λ x, x = v) (py_slice (column2 (const2 n0 n1 v) col) i0 i1).
Proof.
  unfold py_slice. destruct (slice_range _ _ _) as [a n].
  apply Forall_take, Forall_drop, Forall_fmap, Forall_forall. by intros r _.
Qed.

(** X25. A frame that is [v] everywhere, extracted for a uniformly lit
    slit, gives [v] times the nominal width [ap_rad * 2], as long as that
    is a finite float, in every column whose window holds at least one row,
    however much the window has been clamped. *)
Theorem aperture_extract_flat_field (n0 n1 : nat) (v : Q)
    (variance : array2) (ord_pos : list npfloat) (ap_rad : npfloat)
    (col : nat) (p : npfloat) (i0 i1 : Z) (w : Q) :
  same_shape2 (const2 n0 n1 v) variance →
  length ord_pos = n1 →
  windows_round n0 ord_pos ap_rad →
  ord_pos !! col = Some p →
  skipped n0 p = false →
  aperture_window n0 p ap_rad = Ok (i0, i1) →
  (i0 < i1)%Z →
  float_mul ap_rad (Num 2) = Num w →
  ∃ spec var q,
    aperture_extract (const2 n0 n1 v) variance ord_pos ap_rad true
    = Ok (spec, var) ∧
    spec !! col = Some (Num q) ∧
    (q == v * w)%Q.
Proof.
  intros Hshape Hord Hwin Hp Hs Hw Hlt Hwidth.
  assert (col < n1) as Hcol by (rewrite <- Hord; by eapply lookup_lt_Some).
  pose proof (aperture_window_bounds _ _ _ _ _ Hw) as [Hi0 Hi1].
  eexists _, _, _. split; [by apply aperture_extract_eq|].
  cbn [shape2_0 shape2_1 const2].
  rewrite !list_lookup_fmap, !lookup_seq_lt by done. simpl.
  unfold extract_cell. rewrite Hp, Hs, Hw, Hwidth.
  set (xs := py_slice _ i0 i1).
  assert (length xs = Z.to_nat (i1 - i0)) as Hlen.
  { apply length_py_slice_inside; [lia|].
    unfold column2. rewrite length_fmap, length_seq. simpl. lia. }
  rewrite np_mean_nonempty
    by (intros Hnil; rewrite Hnil in Hlen; simpl in Hlen; lia).
  split; [done|].
  pose proof (np_sum_const v xs (py_slice_const2 n0 n1 v col i0 i1)) as Hsum.
  subst xs. rewrite Hsum, Hlen, Z2Nat.id by lia.
  field. intros Hzero.
  assert (inject_Z 0 < inject_Z (i1 - i0))%Q as Hpos
    by (rewrite <- Zlt_Qlt; lia).
  change (inject_Z 0) with 0%Q in Hpos. lra.
Qed.

Lemma aperture_extract_flat_field_witness :
  ∃ spec var q,
    aperture_extract (const2 10 1 5) (const2 10 1 1) [py_float (78 # 10)]
      (Num 2) true
    = Ok (spec, var) ∧
    spec !! 0 = Some (Num q) ∧
    (q == 5 * 4)%Q.
Proof.
  apply (aperture_extract_flat_field 10 1 5 (const2 10 1 1)
           [py_float (78 # 10)] (Num 2) 0 (py_float (78 # 10)) 6 9 4).
  - split; reflexivity.
  - reflexivity.
  - apply (bool_decide_unpack _). by vm_compute.
  - reflexivity.
  - by vm_compute.
  - by vm_compute.
  - lia.
  - by vm_compute.
Defined.

(** X26. [norm_flux_coo] does not need a table made by [flux_coo]: for any
    array of samples laid out as one run for each pair, in the order of the
    loops, with the table of the starts and lengths of these runs, it
    returns every run scaled by its own divisor. *)
Theorem norm_flux_coo_any_layout (n m : nat) (rs : nat * nat → list sample)
    (spec : option array2) (h : heap) (pix_array : nat) :
  spec_shape n m spec →
  h !! pix_array = Some (concat (rs <$> pairs n m)) →
  ∃ norm_array h',
    norm_flux_coo h pix_array
      (Table n m
         (cells_from 0 ((λ ic, Z.of_nat (length (rs ic))) <$> pairs n m)))
      spec
    = Ok (norm_array, h') ∧
    h' !! norm_array
    = Some (concat ((λ ic, scale (norm_of spec ic.1 ic.2 (rs ic)) <$> rs ic)
                      <$> pairs n m)).
Proof.
  intros Hspec Hpix. eexists _, _.
  split; [by apply norm_flux_coo_arena|]. apply lookup_insert_eq.
Qed.

Lemma norm_flux_coo_any_layout_witness :
  ∃ norm_array h',
    norm_flux_coo {[3 := concat (example_runs <$> pairs 1 2)]} 3
      (Table 1 2
         (cells_from 0
            ((λ ic, Z.of_nat (length (example_runs ic))) <$> pairs 1 2)))
      None
    = Ok (norm_array, h') ∧
    h' !! norm_array
    = Some (concat
              ((λ ic, scale (norm_of None ic.1 ic.2 (example_runs ic))
                        <$> example_runs ic)
                 <$> pairs 1 2)).
Proof.
  apply (norm_flux_coo_any_layout 1 2 example_runs None
           {[3 := concat (example_runs <$> pairs 1 2)]} 3).
  - exact I.
  - apply lookup_singleton_eq.
Defined.
